(** * Evidence pipeline of gemara-mcp: parsers, schema mapper, pipeline

    A shallow embedding of the Go packages [internal/evidence] and
    [internal/evidence/parsers].  Go strings are byte sequences and are
    modelled by [string] (one [ascii] per byte); [float64] is the
    primitive binary64 type [float]; Go maps are [gmap]s. *)

From Stdlib Require Import Floats ZArith Ascii String Lia DecimalString.
From stdpp Require Import gmap strings list.

Set Warnings "-inexact-float".
Local Open Scope bool_scope.

(** ** Bytes *)

Definition byte_lt (c : ascii) (n : N) : bool := (N_of_ascii c <? n)%N.
Definition byte_in (lo hi : N) (c : ascii) : bool :=
  (lo <=? N_of_ascii c)%N && (N_of_ascii c <=? hi)%N.
Definition byte_is (n : N) (c : ascii) : bool := (N_of_ascii c =? n)%N.

(** [utf8.RuneSelf]: bytes below it are single-byte runes. *)
Definition RuneSelf : N := 128.

Definition nl : string := String "010" "".

(** ** Package [strings] of the Go standard library *)

Fixpoint String_map (f : ascii → ascii) (s : string) : string :=
  match s with
  | "" => ""
  | String c s' => String (f c) (String_map f s')
  end.

Fixpoint String_forallb (f : ascii → bool) (s : string) : bool :=
  match s with
  | "" => true
  | String c s' => f c && String_forallb f s'
  end.

Definition isASCII (s : string) : bool :=
  String_forallb (λ c, byte_lt c RuneSelf) s.

Fixpoint HasPrefix (s prefix : string) : bool :=
  match prefix, s with
  | "", _ => true
  | String p prefix', String c s' =>
      if decide (c = p) then HasPrefix s' prefix' else false
  | String _ _, "" => false
  end.

Fixpoint Contains (s substr : string) : bool :=
  HasPrefix s substr ||
  match s with
  | "" => false
  | String _ s' => Contains s' substr
  end.

Fixpoint Join (elems : list string) (sep : string) : string :=
  match elems with
  | [] => ""
  | [e] => e
  | e :: rest => e +:+ sep +:+ Join rest sep
  end.

Definition cons_head (c : ascii) (pieces : list string) : list string :=
  match pieces with
  | [] => [String c ""]
  | p :: ps => String c p :: ps
  end.

(** [strings.SplitN s sep n] for a non-empty separator and [n > 0]:
    leftmost non-overlapping occurrences of [sep] cut the string, and
    the [n]-th piece is the unsplit remainder.  [skip] counts the bytes
    of a separator still to be consumed. *)
Fixpoint splitN_aux (sep : string) (n skip : nat) (s : string) : list string :=
  match s with
  | "" => [""]
  | String c s' =>
      match skip with
      | S k => splitN_aux sep n k s'
      | O =>
          match n with
          | O | S O => [s]
          | S n' =>
              if HasPrefix s sep
              then "" :: splitN_aux sep n' (String.length sep - 1) s'
              else cons_head c (splitN_aux sep n 0 s')
          end
      end
  end.

Definition SplitN (s sep : string) (n : nat) : list string :=
  splitN_aux sep n 0 s.

(** [strings.Split s sep] for a non-empty separator. *)
Fixpoint split_aux (sep : string) (skip : nat) (s : string) : list string :=
  match s with
  | "" => [""]
  | String c s' =>
      match skip with
      | S k => split_aux sep k s'
      | O =>
          if HasPrefix s sep
          then "" :: split_aux sep (String.length sep - 1) s'
          else cons_head c (split_aux sep 0 s')
      end
  end.

Definition Split (s sep : string) : list string := split_aux sep 0 s.

(** [strings.TrimLeft s cutset] for a cutset of one ASCII byte. *)
Fixpoint TrimLeft (s : string) (cut : ascii) : string :=
  match s with
  | String c s' => if decide (c = cut) then TrimLeft s' cut else s
  | "" => ""
  end.

(** The ASCII white space of [strings.TrimSpace]'s fast path. *)
Definition asciiSpace (c : ascii) : bool :=
  byte_in 9 13 c || byte_is 32 c.

(** UTF-8 encodings of the non-ASCII runes for which [unicode.IsSpace]
    holds: U+0085 and U+00A0 take two bytes; U+1680, U+2000..U+200A,
    U+2028, U+2029, U+202F, U+205F and U+3000 take three.  The bytes are
    given in string order. *)
Definition space2 (c0 c1 : ascii) : bool :=
  byte_is 194 c0 && (byte_is 133 c1 || byte_is 160 c1).

Definition space3 (c0 c1 c2 : ascii) : bool :=
  (byte_is 225 c0 && byte_is 154 c1 && byte_is 128 c2)
  || (byte_is 226 c0 && byte_is 128 c1 &&
        (byte_in 128 138 c2 || byte_is 168 c2 || byte_is 169 c2 || byte_is 175 c2))
  || (byte_is 226 c0 && byte_is 129 c1 && byte_is 159 c2)
  || (byte_is 227 c0 && byte_is 128 c1 && byte_is 128 c2).

(** Strip white-space runes from the front.  With [back = true] the
    string is read back to front (it is a reversed string), so the bytes
    of a rune arrive last byte first. *)
Fixpoint trimSpaceFront (back : bool) (s : string) : string :=
  match s with
  | "" => ""
  | String c0 s1 =>
      if asciiSpace c0 then trimSpaceFront back s1 else
      match s1 with
      | "" => s
      | String c1 s2 =>
          if (if back then space2 c1 c0 else space2 c0 c1)
          then trimSpaceFront back s2 else
          match s2 with
          | "" => s
          | String c2 s3 =>
              if (if back then space3 c2 c1 c0 else space3 c0 c1 c2)
              then trimSpaceFront back s3 else s
          end
      end
  end.

(** [strings.TrimSpace]: leading white space is removed first, then
    trailing white space. *)
Definition TrimSpace (s : string) : string :=
  String.rev (trimSpaceFront true (String.rev (trimSpaceFront false s))).

(** The number of bytes of the white-space rune a string begins with,
    [0] when it begins with none. *)
Definition spaceWidth (back : bool) (s : string) : nat :=
  match s with
  | "" => 0
  | String c0 s1 =>
      if asciiSpace c0 then 1 else
      match s1 with
      | "" => 0
      | String c1 s2 =>
          if (if back then space2 c1 c0 else space2 c0 c1) then 2 else
          match s2 with
          | "" => 0
          | String c2 _ =>
              if (if back then space3 c2 c1 c0 else space3 c0 c1 c2) then 3 else 0
          end
      end
  end.

Fixpoint String_drop (n : nat) (s : string) : string :=
  match n, s with
  | O, _ => s
  | S n', String _ s' => String_drop n' s'
  | S _, "" => ""
  end.

Fixpoint String_take (n : nat) (s : string) : string :=
  match n, s with
  | O, _ => ""
  | S n', String c s' => String c (String_take n' s')
  | S _, "" => ""
  end.

(** Bytes that can belong to a white-space rune: ASCII white space and
    the bytes of multi-byte runes. *)
Definition blankByte (c : ascii) : bool := asciiSpace c || negb (byte_lt c RuneSelf).

Definition blank (s : string) : bool := String_forallb blankByte s.

Definition lowerByte (c : ascii) : ascii :=
  if byte_in 65 90 c then ascii_of_N (N_of_ascii c + 32) else c.

(** [strings.EqualFold]: the ASCII fast path compares byte by byte; the
    first non-ASCII byte on either side hands the two remainders to the
    rune-wise comparison [fold], which needs the Unicode tables. *)
Fixpoint equalFold (fold : string → string → bool) (s t : string) : bool :=
  match s, t with
  | "", "" => true
  | String sr s', String tr t' =>
      if negb (byte_lt sr RuneSelf && byte_lt tr RuneSelf) then fold s t
      else if decide (tr = sr) then equalFold fold s' t'
      else
        let lo := N.min (N_of_ascii sr) (N_of_ascii tr) in
        let hi := N.max (N_of_ascii sr) (N_of_ascii tr) in
        if (65 <=? lo)%N && (lo <=? 90)%N && (hi =? lo + 32)%N
        then equalFold fold s' t' else false
  | _, _ => false
  end.

(** ** Package [strconv]: quoting for the verb [%q] *)

Definition dquote : string := String "034" "".
Definition backslash : string := String "092" "".

Definition lowerhex (n : N) : string :=
  match String.get (N.to_nat n) "0123456789abcdef" with
  | Some c => String c ""
  | None => ""
  end.

(** One ASCII byte inside a quoted string. *)
Definition quoteByte (c : ascii) : string :=
  if byte_is 34 c || byte_is 92 c then backslash +:+ String c ""
  else if byte_in 32 126 c then String c ""
  else if byte_is 7 c then backslash +:+ "a"
  else if byte_is 8 c then backslash +:+ "b"
  else if byte_is 12 c then backslash +:+ "f"
  else if byte_is 10 c then backslash +:+ "n"
  else if byte_is 13 c then backslash +:+ "r"
  else if byte_is 9 c then backslash +:+ "t"
  else if byte_is 11 c then backslash +:+ "v"
  else backslash +:+ "x" +:+ lowerhex (N_of_ascii c / 16) +:+ lowerhex (N_of_ascii c mod 16).

Fixpoint quoteBytes (s : string) : string :=
  match s with
  | "" => ""
  | String c s' => quoteByte c +:+ quoteBytes s'
  end.

(** ** Package [fmt] *)

(** The verb [%d] on a non-negative [int]. *)
Definition formatInt (n : nat) : string := NilZero.string_of_uint (Nat.to_uint n).

(** ** Errors *)

(** A Go [error] built by [fmt.Errorf]: a message, and the wrapped cause
    when the format has a [%w]. *)
Inductive error : Type :=
  | errorString (msg : string)
  | wrapError (msg : string) (err : error).

Definition Error (e : error) : string :=
  match e with
  | errorString msg => msg
  | wrapError msg _ => msg
  end.

Definition Unwrap (e : error) : option error :=
  match e with
  | errorString _ => None
  | wrapError _ err => Some err
  end.

(** [fmt.Errorf(prefix + "%w", err)]. *)
Definition Errorf_w (prefix : string) (err : error) : error :=
  wrapError (prefix +:+ Error err) err.

(** A Go result pair [(T, error)] with exactly one side set. *)
Definition result (T : Type) : Type := error + T.

(** ** Package [evidence]: data types (evidence.go) *)

Record EvidenceChunk := {
  Text : string;
  SourceID : string;
  SectionPath : string;
  Confidence : float;
}.

Record SchemaCandidate := {
  TargetField : string;
  Value : string;
  SourceRef : string;
  CandidateConfidence : float;
}.

Record EvidenceSource := {
  Content : string;
  Format : string;
  ID : string;
}.

(** [kubeManifest] of the Kubernetes parser; [Any] stands for Go's
    [interface{}], and a [nil] map is [None]. *)
Record kubeManifest (Any : Type) := {
  APIVersion : string;
  Kind : string;
  Metadata : option (gmap string Any);
  Spec : option (gmap string Any);
}.
Arguments APIVersion {Any}.
Arguments Kind {Any}.
Arguments Metadata {Any}.
Arguments Spec {Any}.

(** ** What the code calls outside the repository

    The Unicode tables of the Go standard library and the YAML codec
    [github.com/goccy/go-yaml] are not part of the repository; the
    development is parametric in them. *)
Class Externals := {
  (** decoded YAML values, Go's [interface{}] *)
  Any : Type;
  (** [strings.ToLower] on a string with a non-ASCII byte *)
  unicodeToLower : string → string;
  (** the rune-wise part of [strings.EqualFold] *)
  unicodeEqualFold : string → string → bool;
  (** [strconv.Quote] on a string with a non-ASCII byte *)
  unicodeQuote : string → string;
  (** the verb [%v] on a decoded value *)
  formatAny : Any → string;
  (** [yaml.Unmarshal] into a [map[string]interface{}]; a [nil] map is
      the empty map *)
  yamlUnmarshalMap : string → result (gmap string Any);
  (** [yaml.Unmarshal] into a [kubeManifest] *)
  yamlUnmarshalManifest : string → result (kubeManifest Any);
  (** [yaml.Marshal] *)
  yamlMarshal : Any → result string;
}.

(** The order in which one [range] loop visits the entries of a map.
    The Go runtime picks it afresh for every loop; all that is known is
    that every entry is visited once. *)
Definition MapRange `{Externals} : Type := gmap string Any → list (string * Any).

Definition valid_range `{Externals} (ρ : MapRange) : Prop :=
  ∀ m, ρ m ≡ₚ map_to_list m.

Section Evidence.
Context `{ext : Externals}.

Definition ToLower (s : string) : string :=
  if isASCII s then String_map lowerByte s else unicodeToLower s.

Definition EqualFold (s t : string) : bool := equalFold unicodeEqualFold s t.

(** [strconv.Quote], the verb [%q]. *)
Definition Quote (s : string) : string :=
  if isASCII s then dquote +:+ quoteBytes s +:+ dquote else unicodeQuote s.

(** ** The schema mapper (mapper.go) *)

Record fieldRule := {
  keywords : list string;
  targetField : string;
}.

Definition schemaFieldRules : list fieldRule := [
  {| keywords := ["identifier"; "id:"; "control id"; "policy id"]; targetField := "metadata.id" |};
  {| keywords := ["title:"; "name:"; "policy name"; "control name"]; targetField := "metadata.title" |};
  {| keywords := ["version:"; "revision:"]; targetField := "metadata.version" |};
  {| keywords := ["objective"; "goal"; "purpose"; "intent"]; targetField := "controls[].objective" |};
  {| keywords := ["control statement"; "requirement"; "must "; "shall "; "required to"]; targetField := "controls[].statement" |};
  {| keywords := ["assessment"; "verify"; "verification"; "audit"; "check"]; targetField := "controls[].assessment" |};
  {| keywords := ["implementation"; "procedure"; "how to"; "steps to"]; targetField := "controls[].implementation" |};
  {| keywords := ["parameter"; "setting"; "configuration"; "config value"]; targetField := "controls[].parameters[]" |};
  {| keywords := ["reference"; "see also"; "related"; "maps to"]; targetField := "metadata.references[]" |};
  {| keywords := ["scope"; "applies to"; "applicability"]; targetField := "metadata.scope" |};
  {| keywords := ["description"; "overview"; "summary"; "background"]; targetField := "metadata.description" |}
].

Definition normalizeValue (text : string) : string :=
  let lines := Split text nl in
  let parts :=
    fold_left (λ parts l,
                 let trimmed := TrimSpace l in
                 if decide (trimmed = "") then parts else parts ++ [trimmed])
              lines [] in
  Join parts " ".

Definition mappingConfidence : float := 0.75%float.

(** The binary64 value of the mapping confidence: mantissa [3 * 2^51],
    exponent [-53]. *)
Definition mappingMantissa : positive := 6755399441055744.

(** The inner loop of [mapChunk] over the keywords of one rule: the
    first keyword found in [lower] returns the candidate. *)
Fixpoint mapChunk_keywords (chunk : EvidenceChunk) (lower : string)
    (rule : fieldRule) (kws : list string) : option SchemaCandidate :=
  match kws with
  | [] => None
  | kw :: kws' =>
      if Contains lower kw then
        let combined := (mappingConfidence * Confidence chunk)%float in
        Some {| TargetField := targetField rule;
                Value := normalizeValue (Text chunk);
                SourceRef := SourceID chunk +:+ " / " +:+ SectionPath chunk;
                CandidateConfidence := combined |}
      else mapChunk_keywords chunk lower rule kws'
  end.

(** The outer loop of [mapChunk] over the rule table. *)
Fixpoint mapChunk_rules (chunk : EvidenceChunk) (lower : string)
    (rules : list fieldRule) : option SchemaCandidate :=
  match rules with
  | [] => None
  | rule :: rules' =>
      match mapChunk_keywords chunk lower rule (keywords rule) with
      | Some candidate => Some candidate
      | None => mapChunk_rules chunk lower rules'
      end
  end.

Definition mapChunk (chunk : EvidenceChunk) : option SchemaCandidate :=
  let lower := ToLower (Text chunk) in
  mapChunk_rules chunk lower schemaFieldRules.

(** [SchemaMapper.Map]: candidates are appended in chunk order. *)
Definition Map (chunks : list EvidenceChunk) : list SchemaCandidate :=
  fold_left (λ candidates chunk,
               match mapChunk chunk with
               | Some candidate => candidates ++ [candidate]
               | None => candidates
               end)
            chunks [].

(** ** The parser interface (evidence.go)

    Every parser of the repository ignores its [context.Context]; what a
    parse can depend on besides the source is the order in which the
    runtime walks a map, which takes the place of that argument. *)
Record EvidenceParser := {
  CanHandle : EvidenceSource → bool;
  Parse : MapRange → EvidenceSource → result (list EvidenceChunk);
  Name : string;
}.

(** ** The Markdown parser (parsers/markdown.go) *)

Definition MarkdownParser_CanHandle (source : EvidenceSource) : bool :=
  if EqualFold (Format source) "markdown" || EqualFold (Format source) "md"
  then true
  else
    let content := TrimSpace (Content source) in
    HasPrefix content "#" || Contains content (nl +:+ "#").

(** The variables the closure [flush] and the loop of [Parse] share. *)
Record mdState := {
  md_chunks : list EvidenceChunk;
  currentHeading : string;
  currentLines : list string;
}.

(** [flush] returns the new value of [chunks]. *)
Definition flush (source : EvidenceSource) (st : mdState) : list EvidenceChunk :=
  let text := TrimSpace (Join (currentLines st) nl) in
  if decide (text = "") then md_chunks st
  else
    let sectionPath := currentHeading st in
    let sectionPath := if decide (sectionPath = "") then "preamble" else sectionPath in
    md_chunks st ++ [ {| Text := text;
                         SourceID := ID source;
                         SectionPath := sectionPath;
                         Confidence := 0.85 |} ].

Definition md_line (source : EvidenceSource) (st : mdState) (line : string) : mdState :=
  if HasPrefix line "#" then
    {| md_chunks := flush source st;
       currentHeading := TrimSpace (TrimLeft line "#");
       currentLines := [] |}
  else
    {| md_chunks := md_chunks st;
       currentHeading := currentHeading st;
       currentLines := currentLines st ++ [line] |}.

Definition MarkdownParser_Parse (source : EvidenceSource)
    : result (list EvidenceChunk) :=
  let lines := Split (Content source) nl in
  let st := fold_left (md_line source) lines
              {| md_chunks := []; currentHeading := ""; currentLines := [] |} in
  inr (flush source st).

Definition MarkdownParser : EvidenceParser :=
  {| CanHandle := MarkdownParser_CanHandle;
     Parse := λ _ source, MarkdownParser_Parse source;
     Name := "markdown" |}.

(** ** The YAML parser (parsers/yaml.go) *)

Definition YAMLParser_CanHandle (source : EvidenceSource) : bool :=
  let hint := ToLower (Format source) in
  if decide (hint = "yaml" ∨ hint = "yml" ∨ hint = "json") then true
  else
    let content := TrimSpace (Content source) in
    if HasPrefix content "{" then true
    else if (0 <? String.length content)%nat
            && Contains (nth 0 (SplitN content nl 2) "") ":"
    then
      if negb (HasPrefix content "#") && negb (HasPrefix content "FROM")
      then true else false
    else false.

(** The body of the [range doc] loop. *)
Definition yaml_entry (source : EvidenceSource) (chunks : list EvidenceChunk)
    (kv : string * Any) : list EvidenceChunk :=
  let '(key, value) := kv in
  let rendered :=
    match yamlMarshal value with
    | inr rendered => rendered
    | inl _ => formatAny value
    end in
  chunks ++ [ {| Text := key +:+ ": " +:+ TrimSpace rendered;
                 SourceID := ID source;
                 SectionPath := key;
                 Confidence := 0.80 |} ].

Definition YAMLParser_Parse (ρ : MapRange) (source : EvidenceSource)
    : result (list EvidenceChunk) :=
  match yamlUnmarshalMap (Content source) with
  | inl err => inl (Errorf_w "failed to unmarshal YAML/JSON: " err)
  | inr doc => inr (fold_left (yaml_entry source) (ρ doc) [])
  end.

Definition YAMLParser : EvidenceParser :=
  {| CanHandle := YAMLParser_CanHandle;
     Parse := YAMLParser_Parse;
     Name := "yaml" |}.

(** ** The Kubernetes parser (parsers/kubernetes.go) *)

Definition KubernetesParser_CanHandle (source : EvidenceSource) : bool :=
  let hint := ToLower (Format source) in
  if decide (hint = "kubernetes" ∨ hint = "k8s") then true
  else
    let content := Content source in
    Contains content "apiVersion:" && Contains content "kind:".

Definition securityKeys : list string := [
  "securityContext"; "containers"; "initContainers";
  "volumes"; "serviceAccountName"; "hostNetwork";
  "hostPID"; "hostIPC"; "resources"; "env"; "image"
].

Definition spec_key (spec : gmap string Any) (sourceID resourceRef : string)
    (chunks : list EvidenceChunk) (key : string) : list EvidenceChunk :=
  match spec !! key with
  | None => chunks
  | Some val =>
      let rendered :=
        match yamlMarshal val with
        | inr rendered => rendered
        | inl _ => formatAny val
        end in
      chunks ++ [ {| Text := key +:+ ":" +:+ nl +:+ TrimSpace rendered;
                     SourceID := sourceID;
                     SectionPath := resourceRef +:+ " / spec." +:+ key;
                     Confidence := 0.88 |} ]
  end.

Definition extractSpecChunks (spec : gmap string Any)
    (sourceID resourceRef : string) : list EvidenceChunk :=
  fold_left (spec_key spec sourceID resourceRef) securityKeys [].

Definition parseDocument (content sourceID : string) (docIndex : nat)
    : result (list EvidenceChunk) :=
  match yamlUnmarshalManifest content with
  | inl err => inl (Errorf_w "failed to unmarshal manifest: " err)
  | inr manifest =>
      let resourceRef := Kind manifest +:+ "/" +:+ APIVersion manifest in
      let resourceRef :=
        match Metadata manifest ≫= (λ m, m !! "name") with
        | Some name =>
            Kind manifest +:+ "/" +:+ formatAny name
              +:+ " (doc " +:+ formatInt docIndex +:+ ")"
        | None => resourceRef
        end in
      let chunks := [] in
      let chunks :=
        if decide (Kind manifest ≠ "") then
          chunks ++ [ {| Text := "kind: " +:+ Kind manifest +:+ nl
                                   +:+ "apiVersion: " +:+ APIVersion manifest;
                         SourceID := sourceID;
                         SectionPath := resourceRef +:+ " / identity";
                         Confidence := 0.90 |} ]
        else chunks in
      let chunks :=
        match Spec manifest with
        | Some spec => chunks ++ extractSpecChunks spec sourceID resourceRef
        | None => chunks
        end in
      inr chunks
  end.

(** One turn of the loop [for i, doc := range docs]; the state is the
    index [i] and the chunks gathered so far. *)
Definition k8s_doc (source : EvidenceSource) (st : nat * list EvidenceChunk)
    (doc : string) : nat * list EvidenceChunk :=
  let '(i, chunks) := st in
  let doc := TrimSpace doc in
  if decide (doc = "") then (S i, chunks)
  else
    match parseDocument doc (ID source) i with
    | inl _ => (S i, chunks)
    | inr docChunks => (S i, chunks ++ docChunks)
    end.

Definition KubernetesParser_Parse (source : EvidenceSource)
    : result (list EvidenceChunk) :=
  let docs := Split (Content source) (nl +:+ "---") in
  inr (snd (fold_left (k8s_doc source) docs (0, []))).

Definition KubernetesParser : EvidenceParser :=
  {| CanHandle := KubernetesParser_CanHandle;
     Parse := λ _ source, KubernetesParser_Parse source;
     Name := "kubernetes" |}.

(** ** The pipeline (pipeline.go) *)

(** The mapper of a pipeline is the stateless [SchemaMapper]; only the
    parsers are data. *)
Record Pipeline := {
  parsers : list EvidenceParser;
}.

Definition NewPipeline (parsers : list EvidenceParser) : Pipeline :=
  {| parsers := parsers |}.

Record RunResult := {
  Candidates : list SchemaCandidate;
  ParserUsed : string;
  ChunkCount : nat;
}.

Definition errUnsupported (source : EvidenceSource) : error :=
  errorString ("unsupported evidence format: no parser found for source "
                 +:+ Quote (ID source) +:+ " (format hint: "
                 +:+ Quote (Format source) +:+ ")").

Fixpoint selectParser_loop (ps : list EvidenceParser) (source : EvidenceSource)
    : result EvidenceParser :=
  match ps with
  | [] => inl (errUnsupported source)
  | parser :: ps' =>
      if CanHandle parser source then inr parser
      else selectParser_loop ps' source
  end.

Definition selectParser (p : Pipeline) (source : EvidenceSource)
    : result EvidenceParser :=
  selectParser_loop (parsers p) source.

Definition RunWithMeta (ρ : MapRange) (p : Pipeline) (source : EvidenceSource)
    : result RunResult :=
  match selectParser p source with
  | inl err => inl err
  | inr parser =>
      match Parse parser ρ source with
      | inl err =>
          inl (Errorf_w ("parser " +:+ Quote (Name parser) +:+ " failed: ") err)
      | inr chunks =>
          let candidates := Map chunks in
          inr {| Candidates := candidates;
                 ParserUsed := Name parser;
                 ChunkCount := length chunks |}
      end
  end.

Definition Run (ρ : MapRange) (p : Pipeline) (source : EvidenceSource)
    : result (list SchemaCandidate) :=
  match RunWithMeta ρ p source with
  | inl err => inl err
  | inr result => inr (Candidates result)
  end.

Definition RegisteredParsers (p : Pipeline) : list string :=
  Name <$> parsers p.

(** ** Views used to state the properties *)

(** What one piece of a manifest stream contributes: nothing when it is
    blank or does not decode, the chunks of [parseDocument] otherwise. *)
Definition document_chunks (source : EvidenceSource) (i : nat) (doc : string)
    : list EvidenceChunk :=
  let doc := TrimSpace doc in
  if decide (doc = "") then []
  else
    match parseDocument doc (ID source) i with
    | inl _ => []
    | inr docChunks => docChunks
    end.

(** What one section of a Markdown document contributes: a section is
    a heading text (empty before the first heading) and the body lines
    that follow it up to the next heading line. *)
Definition section_chunks (source : EvidenceSource) (heading : string)
    (body : list string) : list EvidenceChunk :=
  let text := TrimSpace (Join body nl) in
  if decide (text = "") then []
  else [ {| Text := text;
            SourceID := ID source;
            SectionPath := if decide (heading = "") then "preamble" else heading;
            Confidence := 0.85 |} ].

Definition isHeading (line : string) : bool := HasPrefix line "#".

Definition headingText (line : string) : string := TrimSpace (TrimLeft line "#").

(** The lines of a document laid out as a leading body and sections. *)
Definition section_lines (body0 : list string) (secs : list (string * list string))
    : list string :=
  body0 ++ flat_map (λ sec, fst sec :: snd sec) secs.

Definition well_sectioned (body0 : list string) (secs : list (string * list string))
    : Prop :=
  Forall (λ l, isHeading l = false) body0
  ∧ Forall (λ sec, isHeading (fst sec) = true
                   ∧ Forall (λ l, isHeading l = false) (snd sec)) secs.

(** A confidence lies in the unit interval. *)
Definition unit_interval (x : float) : Prop :=
  (0 <=? x)%float = true ∧ (x <=? 1)%float = true.

(** Two runs agree up to the order of their candidates. *)
Definition agree_up_to_order (r1 r2 : result RunResult) : Prop :=
  match r1, r2 with
  | inl e1, inl e2 => e1 = e2
  | inr a, inr b =>
      Candidates a ≡ₚ Candidates b
      ∧ ParserUsed a = ParserUsed b
      ∧ ChunkCount a = ChunkCount b
  | _, _ => False
  end.

(** The parsers of the repository whose source is at hand. *)
Definition repoParsers : list EvidenceParser :=
  [KubernetesParser; MarkdownParser; YAMLParser].

End Evidence.

(** ** Package [tool]: the handler of parse_governance_document (parse.go)

    The handler returns a triple whose first component is always [nil];
    the model returns the other two as a [result]. *)
Module Tool.

Record InputParseGovernanceDocument := {
  Content : string;
  Format : string;
  SourceID : string;
}.

Record OutputParseGovernanceDocument := {
  Candidates : list SchemaCandidate;
  ParserUsed : string;
  TotalChunks : nat;
}.

Section Handler.
Context `{ext : Externals}.

(** [parsers.NewDockerfileParser()]: the file of this parser is not at
    hand, so the handler is studied for every parser in its place. *)
Variable DockerfileParser : EvidenceParser.

Definition defaultPipeline : Pipeline :=
  NewPipeline [KubernetesParser; DockerfileParser; MarkdownParser; YAMLParser].

Definition ParseGovernanceDocument (ρ : MapRange) (input : InputParseGovernanceDocument)
    : result OutputParseGovernanceDocument :=
  if decide (Content input = "") then inl (errorString "content is required")
  else
    let sourceID := SourceID input in
    let sourceID := if decide (sourceID = "") then "unknown" else sourceID in
    let src := Build_EvidenceSource (Content input) (Format input) sourceID in
    let pipeline := defaultPipeline in
    match RunWithMeta ρ pipeline src with
    | inl err => inl err
    | inr (Build_RunResult candidates parserUsed chunkCount) =>
        inr {| Candidates := candidates;
               ParserUsed := parserUsed;
               TotalChunks := chunkCount |}
    end.

End Handler.

(** The source that the handler hands to the pipeline: the input's
    content and format, and its source ID or [unknown]. *)
Definition sourceOf (input : InputParseGovernanceDocument) : EvidenceSource :=
  Build_EvidenceSource (Content input) (Format input)
    (if decide (SourceID input = "") then "unknown" else SourceID input).

End Tool.

(** ** A reference instance for concrete runs

    The examples below run the code on ASCII sources whose YAML is a
    block mapping, one [key: value] per line with plain string scalars;
    a manifest may also hold the blocks [metadata:] and [spec:] with
    one level of such entries.  The codec below is a stand-in for the
    YAML library at the inputs of the examples, not a model of it: it
    refuses nested documents, and it neither resolves nor quotes
    scalars as the library does.  No property is proved of it; the
    theorems hold for every codec.  The Unicode entries are never
    reached on ASCII input. *)
Module Flat.

Definition letter (c : ascii) : bool := byte_in 65 90 c || byte_in 97 122 c.

Definition keyByte (c : ascii) : bool :=
  letter c || byte_in 48 57 c || byte_is 95 c.

Definition scalarByte (c : ascii) : bool :=
  keyByte c || byte_is 32 c || byte_is 45 c || byte_is 46 c || byte_is 47 c.

(** Plain scalars that YAML resolves to a boolean or to null. *)
Definition reserved : list string :=
  ["true"; "false"; "null"; "yes"; "no"; "on"; "off"; "y"; "n"].

Definition startsWithLetter (s : string) : bool :=
  match s with
  | "" => false
  | String c _ => letter c
  end.

Definition plainScalar (v : string) : bool :=
  startsWithLetter v && String_forallb scalarByte v
  && bool_decide (TrimSpace v = v)
  && negb (bool_decide (String_map lowerByte v ∈ reserved)).

Definition decodeLine (line : string) : option (string * string) :=
  match SplitN line ": " 2 with
  | [key; value] =>
      if startsWithLetter key && String_forallb keyByte key && plainScalar value
      then Some (key, value) else None
  | _ => None
  end.

Fixpoint decodeLines (lines : list string) (doc : gmap string string)
    : option (gmap string string) :=
  match lines with
  | [] => Some doc
  | line :: rest =>
      if decide (line = "") then decodeLines rest doc
      else
        match decodeLine line with
        | Some (key, value) =>
            match doc !! key with
            | Some _ => None
            | None => decodeLines rest (<[key:=value]> doc)
            end
        | None => None
        end
  end.

Definition unmarshalMap (content : string) : result (gmap string string) :=
  match decodeLines (Split content nl) ∅ with
  | Some doc => inr doc
  | None => inl (errorString "yaml: not a flat mapping of plain scalars")
  end.

(** Decoding into a manifest: besides the flat entries, the blocks
    [metadata:] and [spec:] may follow, each with entries indented by
    two spaces. *)
Inductive block := inMetadata | inSpec.

Record manifestState := {
  top : gmap string string;
  metadata : gmap string string;
  spec : gmap string string;
  seenMetadata : bool;
  seenSpec : bool;
  current : option block;
}.

Definition put (b : block) (key value : string) (st : manifestState)
    : option manifestState :=
  match b with
  | inMetadata =>
      match metadata st !! key with
      | Some _ => None
      | None => Some {| top := top st; metadata := <[key:=value]> (metadata st);
                        spec := spec st; seenMetadata := seenMetadata st;
                        seenSpec := seenSpec st; current := current st |}
      end
  | inSpec =>
      match spec st !! key with
      | Some _ => None
      | None => Some {| top := top st; metadata := metadata st;
                        spec := <[key:=value]> (spec st);
                        seenMetadata := seenMetadata st;
                        seenSpec := seenSpec st; current := current st |}
      end
  end.

Definition manifestLine (st : manifestState) (line : string) : option manifestState :=
  if decide (line = "") then Some st
  else if HasPrefix line "  " then
    match current st, decodeLine (String_drop 2 line) with
    | Some b, Some (key, value) => put b key value st
    | _, _ => None
    end
  else if decide (line = "metadata:") then
    if seenMetadata st then None
    else Some {| top := top st; metadata := metadata st; spec := spec st;
                 seenMetadata := true; seenSpec := seenSpec st;
                 current := Some inMetadata |}
  else if decide (line = "spec:") then
    if seenSpec st then None
    else Some {| top := top st; metadata := metadata st; spec := spec st;
                 seenMetadata := seenMetadata st; seenSpec := true;
                 current := Some inSpec |}
  else
    match decodeLine line with
    | Some (key, value) =>
        if bool_decide (key ∈ ["metadata"; "spec"]) || bool_decide (is_Some (top st !! key))
        then None
        else Some {| top := <[key:=value]> (top st); metadata := metadata st;
                     spec := spec st; seenMetadata := seenMetadata st;
                     seenSpec := seenSpec st; current := None |}
    | None => None
    end.

Fixpoint manifestLines (lines : list string) (st : manifestState)
    : option manifestState :=
  match lines with
  | [] => Some st
  | line :: rest =>
      match manifestLine st line with
      | Some st' => manifestLines rest st'
      | None => None
      end
  end.

Definition nonempty (m : gmap string string) : option (gmap string string) :=
  if decide (m = ∅) then None else Some m.

Definition unmarshalManifest (content : string) : result (kubeManifest string) :=
  match manifestLines (Split content nl)
          {| top := ∅; metadata := ∅; spec := ∅; seenMetadata := false;
             seenSpec := false; current := None |} with
  | Some st =>
      inr {| APIVersion := default "" (top st !! "apiVersion");
             Kind := default "" (top st !! "kind");
             Metadata := nonempty (metadata st);
             Spec := nonempty (spec st) |}
  | None => inl (errorString "yaml: not a manifest of plain scalars")
  end.

Definition codec : Externals :=
  {| Any := string;
     unicodeToLower := λ s, s;
     unicodeEqualFold := λ _ _, false;
     unicodeQuote := λ s, s;
     formatAny := λ s, s;
     yamlUnmarshalMap := unmarshalMap;
     yamlUnmarshalManifest := unmarshalManifest;
     yamlMarshal := λ s, inr (s +:+ nl) |}.

(** Two iteration orders of the runtime. *)
Definition ascending : @MapRange codec := map_to_list.
Definition descending : @MapRange codec := λ m, reverse (map_to_list m).

End Flat.

(** Sources and parsers of the examples. *)
Module Examples.

#[local] Existing Instance Flat.codec.

Definition mdSample : EvidenceSource :=
  {| Content := "# Section One" +:+ nl +:+ "Content of section one." +:+ nl
                  +:+ nl +:+ "## Subsection" +:+ nl +:+ "More content here." +:+ nl
                  +:+ nl +:+ "# Section Two" +:+ nl +:+ "Another section.";
     Format := "";
     ID := "test.md" |}.

(** A parser that claims every source and fails, repeating in its error
    what it was given. *)
Definition echoParser : @EvidenceParser Flat.codec :=
  {| CanHandle := λ _, true;
     Parse := λ _ source,
       inl (errorString ("unsupported evidence format: "
                           +:+ Quote (ID source) +:+ " " +:+ Quote (Format source)));
     Name := "echo" |}.

Definition pdfSource : EvidenceSource :=
  {| Content := "anything"; Format := "pdf"; ID := "test.pdf" |}.

(** Two headings in a row, then a body. *)
Definition twoHeadings : EvidenceSource :=
  {| Content := "# A" +:+ nl +:+ "# B" +:+ nl +:+ "text"; Format := "markdown"; ID := "doc.md" |}.

(** A manifest without an [apiVersion]. *)
Definition bareKind : EvidenceSource :=
  {| Content := "kind: Pod"; Format := "k8s"; ID := "pod.yaml" |}.

(** Chunks that hold the keyword "objective", with confidence one and
    with the zero value of [float64]. *)
Definition sureChunk : EvidenceChunk :=
  {| Text := "objective: ensure encryption"; SourceID := "doc.md";
     SectionPath := "s1"; Confidence := 1 |}.

Definition zeroChunk : EvidenceChunk :=
  {| Text := "objective: ensure encryption"; SourceID := "doc.md";
     SectionPath := "s1"; Confidence := 0 |}.

(** The manifest of the repository's parser tests. *)
Definition sampleDeployment : string :=
  "apiVersion: apps/v1" +:+ nl +:+ "kind: Deployment" +:+ nl
    +:+ "metadata:" +:+ nl +:+ "  name: my-app" +:+ nl
    +:+ "spec:" +:+ nl +:+ "  securityContext:" +:+ nl
    +:+ "    runAsNonRoot: true" +:+ nl +:+ "  containers:" +:+ nl
    +:+ "    - name: app" +:+ nl +:+ "      image: my-app:1.0" +:+ nl
    +:+ "      env:" +:+ nl +:+ "        - name: SECRET" +:+ nl
    +:+ "          value: " +:+ dquote +:+ "abc" +:+ dquote +:+ nl.

Definition content (c : string) : EvidenceSource :=
  {| Content := c; Format := ""; ID := "" |}.

Definition hint (f : string) : EvidenceSource :=
  {| Content := ""; Format := f; ID := "" |}.

Definition emptySource : EvidenceSource :=
  {| Content := ""; Format := ""; ID := "empty" |}.

(** A Deployment and a Service joined by a document separator. *)
Definition deployment : string := "apiVersion: apps/v1" +:+ nl +:+ "kind: Deployment" +:+ nl.
Definition service : string := nl +:+ "apiVersion: v1" +:+ nl +:+ "kind: Service" +:+ nl.

Definition multiDoc : EvidenceSource :=
  {| Content := deployment +:+ nl +:+ "---" +:+ service;
     Format := "";
     ID := "multi.yaml" |}.

(** A pod with a name and a service account. *)
Definition pod : string :=
  "apiVersion: v1" +:+ nl +:+ "kind: Pod" +:+ nl
    +:+ "metadata:" +:+ nl +:+ "  name: builder" +:+ nl
    +:+ "spec:" +:+ nl +:+ "  serviceAccountName: builder" +:+ nl.

(** A policy with two top-level keys. *)
Definition policy : EvidenceSource :=
  {| Content := "title: Access Policy" +:+ nl +:+ "version: v2";
     Format := "yaml";
     ID := "policy.yaml" |}.

(** A stand-in for the Dockerfile parser of the default pipeline: it
    accepts the hint [dockerfile] and content that begins with [FROM],
    and yields no chunk. *)
Definition fromParser : @EvidenceParser Flat.codec :=
  {| CanHandle := λ source,
       bool_decide (ToLower (Format source) = "dockerfile")
       || HasPrefix (TrimSpace (Content source)) "FROM";
     Parse := λ _ _, inr [];
     Name := "dockerfile" |}.

(** Inputs of the handler: a named pod sent with the hint [markdown],
    and the policy of the handler's test without a source ID. *)
Definition podAsMarkdown : Tool.InputParseGovernanceDocument :=
  {| Tool.Content := pod; Tool.Format := "markdown"; Tool.SourceID := "" |}.

Definition policyInput : Tool.InputParseGovernanceDocument :=
  {| Tool.Content := "# Policy" +:+ nl
                       +:+ "The objective of this policy is to enforce access controls.";
     Tool.Format := "markdown";
     Tool.SourceID := "" |}.

(** A document with a preamble and one section. *)
Definition withPreamble : EvidenceSource :=
  {| Content := "This is a preamble." +:+ nl +:+ nl +:+ "# First Section"
                  +:+ nl +:+ "Section content.";
     Format := "";
     ID := "doc.md" |}.

(** A source of white space only, with a hint that no parser knows. *)
Definition blankPdf : EvidenceSource :=
  {| Content := " " +:+ nl; Format := "PDF"; ID := "scan.pdf" |}.

(** A YAML sequence, which does not decode into a mapping. *)
Definition listYaml : EvidenceSource :=
  {| Content := "- item"; Format := "yaml"; ID := "list.yaml" |}.

(** A Markdown document with white space around it. *)
Definition padded : EvidenceSource :=
  {| Content := nl +:+ "  # Title" +:+ nl +:+ "text  " +:+ nl; Format := ""; ID := "padded.md" |}.

(** A document that begins with a heading, sent with the hint [yaml]. *)
Definition headingAsYaml : EvidenceSource :=
  {| Content := "# Owners" +:+ nl +:+ "owner: platform team"; Format := "yaml"; ID := "owners" |}.

End Examples.

(** ** Tactics *)

(** Membership in a list of names written out. *)
Ltac solve_names := rewrite ?elem_of_cons, ?elem_of_nil in *; tauto.

(** * Properties *)

(** ** Strings *)

Lemma sapp_nil_l (s : string) : "" +:+ s = s.
Proof. reflexivity. Qed.

Lemma sapp_cons (c : ascii) (s t : string) : String c s +:+ t = String c (s +:+ t).
Proof. reflexivity. Qed.

Lemma sapp_nil_r (s : string) : s +:+ "" = s.
Proof. induction s as [|c s IH]; [done|]. by rewrite sapp_cons, IH. Qed.

Lemma sapp_assoc (s t u : string) : (s +:+ t) +:+ u = s +:+ (t +:+ u).
Proof. induction s as [|c s IH]; [done|]. by rewrite !sapp_cons, IH. Qed.

Lemma HasPrefix_app (p s : string) : HasPrefix (p +:+ s) p = true.
Proof.
  induction p as [|c p IH]; [by destruct s|].
  rewrite sapp_cons. simpl. by rewrite decide_True.
Qed.


Lemma Contains_unfold (s sub : string) :
  Contains s sub =
  HasPrefix s sub || match s with "" => false | String _ s' => Contains s' sub end.
Proof. by destruct s. Qed.

Lemma Contains_HasPrefix (s sub : string) :
  HasPrefix s sub = true → Contains s sub = true.
Proof. intros H. rewrite Contains_unfold, H. done. Qed.

Lemma Contains_app_r (a s sub : string) :
  Contains s sub = true → Contains (a +:+ s) sub = true.
Proof.
  intros H. induction a as [|c a IH]; [done|].
  rewrite sapp_cons, Contains_unfold, IH. apply orb_true_r.
Qed.


Lemma Contains_middle (a sub b : string) : Contains (a +:+ sub +:+ b) sub = true.
Proof. apply Contains_app_r, Contains_HasPrefix, HasPrefix_app. Qed.

Lemma concat_imap_nil {A B} (f : nat → A → list B) (l : list A) :
  (∀ i x, l !! i = Some x → f i x = []) → concat (imap f l) = [].
Proof.
  revert f. induction l as [|x l IH]; intros f Hf; [done|]. simpl.
  rewrite (Hf 0 x) by done. apply IH. intros i y Hy. by apply (Hf (S i)).
Qed.

Lemma fold_left_snoc {A B} (f : A → option B) (l : list A) (acc : list B) :
  fold_left (λ acc x, match f x with Some y => acc ++ [y] | None => acc end) l acc
  = acc ++ omap f l.
Proof.
  revert acc. induction l as [|x l IH]; intros acc; simpl.
  - by rewrite app_nil_r.
  - rewrite IH. destruct (f x); [by rewrite <-app_assoc|done].
Qed.

(** ** The schema mapper *)

Section MapperFacts.
Context `{ext : Externals}.

Lemma Map_omap (chunks : list EvidenceChunk) : Map chunks = omap mapChunk chunks.
Proof. unfold Map. by rewrite fold_left_snoc. Qed.

Lemma mapChunk_keywords_None chunk lower rule kws :
  (∀ kw, kw ∈ kws → Contains lower kw = false) →
  mapChunk_keywords chunk lower rule kws = None.
Proof.
  induction kws as [|kw kws IH]; intros Hmiss; [done|]. simpl.
  rewrite (Hmiss kw) by left. apply IH. intros kw' Hin. apply Hmiss. by right.
Qed.

Lemma mapChunk_keywords_Some chunk lower rule kws cand :
  mapChunk_keywords chunk lower rule kws = Some cand →
  (∃ kw, kw ∈ kws ∧ Contains lower kw = true)
  ∧ cand = {| TargetField := targetField rule;
              Value := normalizeValue (Text chunk);
              SourceRef := SourceID chunk +:+ " / " +:+ SectionPath chunk;
              CandidateConfidence := (mappingConfidence * Confidence chunk)%float |}.
Proof.
  induction kws as [|kw kws IH]; [done|]. simpl.
  destruct (Contains lower kw) eqn:Hkw.
  - intros [= <-]. split; [|done]. exists kw. split; [left|done].
  - intros H. destruct (IH H) as [(kw' & Hin & Hhit) ->]. split; [|done].
    exists kw'. split; [by right|done].
Qed.

Lemma mapChunk_keywords_hit chunk lower rule kws :
  (∃ kw, kw ∈ kws ∧ Contains lower kw = true) →
  is_Some (mapChunk_keywords chunk lower rule kws).
Proof.
  intros (kw & Hin & Hhit).
  destruct (mapChunk_keywords chunk lower rule kws) eqn:E; [done|].
  induction kws as [|kw' kws IH]; [by apply elem_of_nil in Hin|].
  simpl in E. destruct (Contains lower kw') eqn:Hkw'; [done|].
  apply elem_of_cons in Hin as [->|Hin]; [congruence|auto].
Qed.

Lemma mapChunk_rules_first chunk lower pre rule post :
  (∀ r kw, r ∈ pre → kw ∈ keywords r → Contains lower kw = false) →
  (∃ kw, kw ∈ keywords rule ∧ Contains lower kw = true) →
  mapChunk_rules chunk lower (pre ++ rule :: post)
  = Some {| TargetField := targetField rule;
            Value := normalizeValue (Text chunk);
            SourceRef := SourceID chunk +:+ " / " +:+ SectionPath chunk;
            CandidateConfidence := (mappingConfidence * Confidence chunk)%float |}.
Proof.
  intros Hpre Hhit. induction pre as [|r pre IH]; simpl.
  - destruct (mapChunk_keywords_hit chunk lower rule _ Hhit) as [cand E].
    rewrite E. by destruct (mapChunk_keywords_Some _ _ _ _ _ E) as [_ ->].
  - rewrite mapChunk_keywords_None.
    + apply IH. intros r' kw Hr'. apply Hpre. by right.
    + intros kw. apply Hpre. left.
Qed.

Lemma mapChunk_rules_None chunk lower rules :
  (∀ r kw, r ∈ rules → kw ∈ keywords r → Contains lower kw = false) →
  mapChunk_rules chunk lower rules = None.
Proof.
  induction rules as [|r rules IH]; intros Hmiss; [done|]. simpl.
  rewrite mapChunk_keywords_None.
  - apply IH. intros r' kw Hr'. apply Hmiss. by right.
  - intros kw. apply Hmiss. left.
Qed.

Lemma mapChunk_rules_Some chunk lower rules cand :
  mapChunk_rules chunk lower rules = Some cand →
  ∃ pre rule post,
    rules = pre ++ rule :: post
    ∧ (∀ r kw, r ∈ pre → kw ∈ keywords r → Contains lower kw = false)
    ∧ (∃ kw, kw ∈ keywords rule ∧ Contains lower kw = true)
    ∧ cand = {| TargetField := targetField rule;
                Value := normalizeValue (Text chunk);
                SourceRef := SourceID chunk +:+ " / " +:+ SectionPath chunk;
                CandidateConfidence := (mappingConfidence * Confidence chunk)%float |}.
Proof.
  induction rules as [|r rules IH]; [done|]. simpl.
  destruct (mapChunk_keywords chunk lower r (keywords r)) as [c|] eqn:E.
  - intros [= <-]. destruct (mapChunk_keywords_Some _ _ _ _ _ E) as [Hhit ->].
    exists [], r, rules. split_and!; try done. intros r' kw Hr'.
    by apply elem_of_nil in Hr'.
  - intros H. destruct (IH H) as (pre & rule & post & -> & Hpre & Hhit & ->).
    exists (r :: pre), rule, post. split_and!; try done.
    intros r' kw [->|Hr']%elem_of_cons Hkw; [|eauto].
    destruct (Contains lower kw) eqn:Hc; [|done].
    assert (is_Some (mapChunk_keywords chunk lower r (keywords r))) as [? ?]
      by (apply mapChunk_keywords_hit; eauto).
    congruence.
Qed.

Lemma mapChunk_rules_None_inv chunk lower rules :
  mapChunk_rules chunk lower rules = None →
  ∀ r kw, r ∈ rules → kw ∈ keywords r → Contains lower kw = false.
Proof.
  induction rules as [|r0 rules IH]; intros Hnone r kw Hr Hkw.
  - by apply elem_of_nil in Hr.
  - simpl in Hnone.
    destruct (mapChunk_keywords chunk lower r0 (keywords r0)) eqn:E; [done|].
    apply elem_of_cons in Hr as [->|Hr]; [|eauto].
    destruct (Contains lower kw) eqn:Hc; [|done].
    assert (is_Some (mapChunk_keywords chunk lower r0 (keywords r0))) as [? ?]
      by (apply mapChunk_keywords_hit; eauto).
    congruence.
Qed.

(** C3: the mapper lower-cases the chunk text and walks the rule table
    in order.  The first rule one of whose keywords occurs in the
    lower-cased text yields the candidate, which carries that rule's
    target field; a chunk yields at most one candidate, and none when no
    keyword of any rule occurs. *)
Theorem mapChunk_first_matching_rule (chunk : EvidenceChunk) :
  let lower := ToLower (Text chunk) in
  (∀ cand, mapChunk chunk = Some cand ↔
     ∃ pre rule post,
       schemaFieldRules = pre ++ rule :: post
       ∧ (∀ r kw, r ∈ pre → kw ∈ keywords r → Contains lower kw = false)
       ∧ (∃ kw, kw ∈ keywords rule ∧ Contains lower kw = true)
       ∧ cand = {| TargetField := targetField rule;
                   Value := normalizeValue (Text chunk);
                   SourceRef := SourceID chunk +:+ " / " +:+ SectionPath chunk;
                   CandidateConfidence := (mappingConfidence * Confidence chunk)%float |})
  ∧ (mapChunk chunk = None ↔
       ∀ r kw, r ∈ schemaFieldRules → kw ∈ keywords r → Contains lower kw = false)
  ∧ Map [chunk] = option_list (mapChunk chunk)
  ∧ length (Map [chunk]) ≤ 1.
Proof.
  intros lower. split_and!.
  - intros cand. split.
    + apply mapChunk_rules_Some.
    + intros (pre & rule & post & Htable & Hpre & Hhit & ->).
      unfold mapChunk. fold lower. rewrite Htable.
      by apply mapChunk_rules_first.
  - split.
    + apply mapChunk_rules_None_inv.
    + apply mapChunk_rules_None.
  - rewrite Map_omap. simpl. by destruct (mapChunk chunk).
  - rewrite Map_omap. simpl. destruct (mapChunk chunk); simpl; lia.
Qed.

End MapperFacts.

(** ** The pipeline *)

Section PipelineFacts.
Context `{ext : Externals}.

Lemma selectParser_loop_first pre parser post source :
  (∀ q, q ∈ pre → CanHandle q source = false) →
  CanHandle parser source = true →
  selectParser_loop (pre ++ parser :: post) source = inr parser.
Proof.
  intros Hpre Hp. induction pre as [|q pre IH]; simpl.
  - by rewrite Hp.
  - rewrite (Hpre q) by left. apply IH. intros q' Hq'. apply Hpre. by right.
Qed.

Lemma selectParser_loop_inr ps parser source :
  selectParser_loop ps source = inr parser →
  ∃ pre post,
    ps = pre ++ parser :: post
    ∧ (∀ q, q ∈ pre → CanHandle q source = false)
    ∧ CanHandle parser source = true.
Proof.
  induction ps as [|q ps IH]; [done|]. simpl.
  destruct (CanHandle q source) eqn:Hq.
  - intros [= <-]. exists [], ps. split_and!; try done.
    intros q' Hq'. by apply elem_of_nil in Hq'.
  - intros H. destruct (IH H) as (pre & post & -> & Hpre & Hp).
    exists (q :: pre), post. split_and!; try done.
    intros q' [->|Hq']%elem_of_cons; auto.
Qed.

Lemma selectParser_loop_none ps source :
  (∀ q, q ∈ ps → CanHandle q source = false) →
  selectParser_loop ps source = inl (errUnsupported source).
Proof.
  induction ps as [|q ps IH]; intros Hnone; [done|]. simpl.
  rewrite (Hnone q) by left. apply IH. intros q' Hq'. apply Hnone. by right.
Qed.

Lemma selectParser_loop_inl ps source err :
  selectParser_loop ps source = inl err →
  err = errUnsupported source ∧ ∀ q, q ∈ ps → CanHandle q source = false.
Proof.
  induction ps as [|q ps IH]; simpl.
  - intros [= <-]. split; [done|]. intros q Hq. by apply elem_of_nil in Hq.
  - destruct (CanHandle q source) eqn:Hq; [done|]. intros H.
    destruct (IH H) as [-> Hnone]. split; [done|].
    intros q' [->|Hq']%elem_of_cons; auto.
Qed.

(** C4: parser selection is first-match-wins.  The selected parser is
    the first one in registration order whose [CanHandle] accepts the
    source, and a successful run maps the chunks of exactly that parser
    and reports its name as [ParserUsed]. *)
Theorem selectParser_first_match (ρ : MapRange) (ps : list EvidenceParser)
    (source : EvidenceSource) :
  (∀ parser,
     selectParser (NewPipeline ps) source = inr parser ↔
     ∃ pre post,
       ps = pre ++ parser :: post
       ∧ (∀ q, q ∈ pre → CanHandle q source = false)
       ∧ CanHandle parser source = true)
  ∧ (∀ result,
       RunWithMeta ρ (NewPipeline ps) source = inr result ↔
       ∃ parser chunks,
         selectParser (NewPipeline ps) source = inr parser
         ∧ Parse parser ρ source = inr chunks
         ∧ result = {| Candidates := Map chunks;
                       ParserUsed := Name parser;
                       ChunkCount := length chunks |}).
Proof.
  split.
  - intros parser. split.
    + apply selectParser_loop_inr.
    + intros (pre & post & -> & Hpre & Hp). by apply selectParser_loop_first.
  - intros result. unfold RunWithMeta.
    destruct (selectParser (NewPipeline ps) source) as [err|parser] eqn:Hsel.
    + split; [done|]. by intros (? & ? & ? & _).
    + destruct (Parse parser ρ source) as [err|chunks] eqn:Hparse.
      * split; [done|]. intros (p' & chunks & [= <-] & Hp' & _). congruence.
      * split.
        -- intros [= <-]. by exists parser, chunks.
        -- intros (p' & chunks' & [= <-] & Hp' & ->). congruence.
Qed.

Lemma HasPrefix_parser_failed (rest : string) :
  HasPrefix ("parser " +:+ rest) "unsupported evidence format" = false.
Proof. reflexivity. Qed.

(** C5 (as amended): the run fails with the unsupported-format error,
    whose message begins with "unsupported evidence format" and carries
    the quoted source ID and format hint, exactly when no registered
    parser accepts the source; when a parser accepts it, a failure is
    that parser's error wrapped under the parser's name. *)
Theorem unsupported_format_iff_no_parser (ρ : MapRange) (ps : list EvidenceParser)
    (source : EvidenceSource) :
  ((∀ q, q ∈ ps → CanHandle q source = false) ↔
     RunWithMeta ρ (NewPipeline ps) source = inl (errUnsupported source))
  ∧ ((∀ q, q ∈ ps → CanHandle q source = false) ↔
       ∃ err, RunWithMeta ρ (NewPipeline ps) source = inl err
              ∧ HasPrefix (Error err) "unsupported evidence format" = true)
  ∧ Error (errUnsupported source)
      = "unsupported evidence format: no parser found for source "
          +:+ Quote (ID source) +:+ " (format hint: "
          +:+ Quote (Format source) +:+ ")"
  ∧ Contains (Error (errUnsupported source)) "unsupported evidence format" = true
  ∧ Contains (Error (errUnsupported source)) (Quote (ID source)) = true
  ∧ Contains (Error (errUnsupported source)) (Quote (Format source)) = true
  ∧ (∀ parser err,
       selectParser (NewPipeline ps) source = inr parser →
       Parse parser ρ source = inl err →
       RunWithMeta ρ (NewPipeline ps) source
       = inl (wrapError ("parser " +:+ Quote (Name parser) +:+ " failed: "
                           +:+ Error err) err)).
Proof.
  assert (∀ err, RunWithMeta ρ (NewPipeline ps) source = inl err →
                 HasPrefix (Error err) "unsupported evidence format" = true →
                 ∀ q, q ∈ ps → CanHandle q source = false) as Hconv.
  { intros err. unfold RunWithMeta, selectParser. simpl.
    destruct (selectParser_loop ps source) as [e|parser] eqn:Hsel.
    - intros _ _. by destruct (selectParser_loop_inl _ _ _ Hsel).
    - destruct (Parse parser ρ source) as [e|chunks]; [|done].
      by intros [= <-]. }
  split_and!.
  - split.
    + intros Hnone. unfold RunWithMeta, selectParser. simpl.
      by rewrite selectParser_loop_none.
    + intros Hrun. by apply (Hconv _ Hrun).
  - split.
    + intros Hnone. exists (errUnsupported source). split; [|done].
      unfold RunWithMeta, selectParser. simpl. by rewrite selectParser_loop_none.
    + intros (err & Hrun & Hpre). by apply (Hconv _ Hrun).
  - done.
  - done.
  - unfold errUnsupported. cbn [Error]. apply Contains_app_r.
    rewrite <-(sapp_nil_l (Quote (ID source) +:+ _)). apply Contains_middle.
  - unfold errUnsupported. cbn [Error]. do 3 apply Contains_app_r.
    rewrite <-(sapp_nil_l (Quote (Format source) +:+ _)). apply Contains_middle.
  - intros parser err Hsel Hparse. unfold RunWithMeta. rewrite Hsel, Hparse.
    unfold Errorf_w. by rewrite !sapp_assoc.
Qed.

End PipelineFacts.

(** C5, counterexample: a parser accepts the source, yet the run fails
    with an error whose message contains "unsupported evidence format"
    and the quoted source ID and format hint. *)
Lemma unsupported_text_with_matching_parser :
  let source := Examples.pdfSource in
  let p := @NewPipeline Flat.codec [Examples.echoParser] in
  ∃ err,
    RunWithMeta Flat.ascending p source = inl err
    ∧ Contains (Error err) "unsupported evidence format" = true
    ∧ Contains (Error err) (@Quote Flat.codec (ID source)) = true
    ∧ Contains (Error err) (@Quote Flat.codec (Format source)) = true
    ∧ CanHandle Examples.echoParser source = true.
Proof. eexists. split_and!; [reflexivity|vm_compute; reflexivity..|reflexivity]. Qed.

(** ** The parsers *)

Lemma ascending_valid : valid_range Flat.ascending.
Proof. by intros m. Qed.

Lemma descending_valid : valid_range Flat.descending.
Proof. intros m. apply reverse_Permutation. Qed.

Section ParserFacts.
Context `{ext : Externals}.

Lemma empty_range (ρ : MapRange) : valid_range ρ → ρ ∅ = [].
Proof.
  intros Hρ. apply Permutation_nil_r. by rewrite (Hρ ∅), map_to_list_empty.
Qed.

(** On empty content the Markdown and the manifest parser return no
    chunk and no error; the YAML parser does so when the decoder, which
    is outside the repository, accepts the empty input as an empty
    mapping. *)
Theorem Parse_empty_content (ρ : MapRange) (format id : string) :
  valid_range ρ →
  yamlUnmarshalMap "" = inr ∅ →
  let source := {| Content := ""; Format := format; ID := id |} in
  Parse MarkdownParser ρ source = inr []
  ∧ Parse KubernetesParser ρ source = inr []
  ∧ Parse YAMLParser ρ source = inr [].
Proof.
  intros Hρ Hdec source. split_and!; [done..|].
  simpl. unfold YAMLParser_Parse. simpl. by rewrite Hdec, empty_range.
Qed.

Lemma k8s_fold source docs i acc :
  fold_left (k8s_doc source) docs (i, acc)
  = (i + length docs,
     acc ++ concat (imap (λ j, document_chunks source (i + j)) docs)).
Proof.
  revert i acc. induction docs as [|doc docs IH]; intros i acc; cbn [fold_left].
  - simpl. by rewrite Nat.add_0_r, app_nil_r.
  - assert (k8s_doc source (i, acc) doc
            = (S i, acc ++ document_chunks source i doc)) as ->.
    { unfold k8s_doc, document_chunks. case_decide; [by rewrite app_nil_r|].
      destruct (parseDocument _ _ _); [by rewrite app_nil_r|done]. }
    rewrite IH. simpl. f_equal; [lia|]. rewrite Nat.add_0_r, <-app_assoc. do 3 f_equal.
    apply imap_ext. intros j d _. simpl. f_equal. lia.
Qed.

Lemma KubernetesParser_Parse_concat source :
  KubernetesParser_Parse source
  = inr (concat (imap (document_chunks source)
                      (Split (Content source) (nl +:+ "---")))).
Proof. unfold KubernetesParser_Parse. by rewrite k8s_fold. Qed.

Lemma parseDocument_identity content sourceID i manifest :
  yamlUnmarshalManifest content = inr manifest →
  Kind manifest ≠ "" →
  ∃ c rest,
    parseDocument content sourceID i = inr (c :: rest)
    ∧ Text c = "kind: " +:+ Kind manifest +:+ nl
                 +:+ "apiVersion: " +:+ APIVersion manifest.
Proof.
  intros Hdec Hkind. unfold parseDocument. rewrite Hdec.
  rewrite decide_True by done. simpl.
  destruct (Spec manifest); eexists _, _; split; reflexivity.
Qed.

(** C7: the manifest parser cuts its input at every newline followed by
    three dashes and treats the pieces one by one: a blank piece or one
    that does not decode adds nothing and raises no error, any other
    adds the chunks of its document.  When the input is a Deployment and
    a Service joined by the separator, some chunk text holds
    "kind: Deployment" and some chunk text holds "kind: Service". *)
Theorem KubernetesParser_documents (source : EvidenceSource) :
  KubernetesParser_Parse source
  = inr (concat (imap (document_chunks source)
                      (Split (Content source) (nl +:+ "---"))))
  ∧ (∀ i doc,
       TrimSpace doc = "" ∨ (∃ err, parseDocument (TrimSpace doc) (ID source) i = inl err) →
       document_chunks source i doc = [])
  ∧ (∀ i doc docChunks,
       TrimSpace doc ≠ "" →
       parseDocument (TrimSpace doc) (ID source) i = inr docChunks →
       document_chunks source i doc = docChunks)
  ∧ (∀ d1 d2 m1 m2,
       Split (Content source) (nl +:+ "---") = [d1; d2] →
       TrimSpace d1 ≠ "" → TrimSpace d2 ≠ "" →
       yamlUnmarshalManifest (TrimSpace d1) = inr m1 → Kind m1 = "Deployment" →
       yamlUnmarshalManifest (TrimSpace d2) = inr m2 → Kind m2 = "Service" →
       ∃ chunks c1 c2,
         KubernetesParser_Parse source = inr chunks
         ∧ c1 ∈ chunks ∧ c2 ∈ chunks
         ∧ Contains (Text c1) "kind: Deployment" = true
         ∧ Contains (Text c2) "kind: Service" = true).
Proof.
  split_and!.
  - apply KubernetesParser_Parse_concat.
  - intros i doc [Hblank|[err Herr]]; unfold document_chunks.
    + by rewrite decide_True.
    + case_decide; [done|]. by rewrite Herr.
  - intros i doc docChunks Hdoc Hparse. unfold document_chunks.
    by rewrite decide_False, Hparse.
  - intros d1 d2 m1 m2 Hsplit Hd1 Hd2 Hm1 Hk1 Hm2 Hk2.
    rewrite KubernetesParser_Parse_concat, Hsplit. simpl.
    unfold document_chunks. rewrite !decide_False by done.
    destruct (parseDocument_identity _ (ID source) 0 _ Hm1) as (c1 & r1 & -> & Ht1);
      [by rewrite Hk1|].
    destruct (parseDocument_identity _ (ID source) 1 _ Hm2) as (c2 & r2 & -> & Ht2);
      [by rewrite Hk2|].
    eexists _, c1, c2. split; [done|]. rewrite app_nil_r. split_and!.
    + set_solver.
    + set_solver.
    + rewrite Ht1, Hk1. by apply Contains_HasPrefix.
    + rewrite Ht2, Hk2. by apply Contains_HasPrefix.
Qed.

(** C10: the manifest parser never returns an error.  When every piece
    of the input fails to decode it returns no chunk; and a pipeline
    that selects this parser always returns a result. *)
Theorem KubernetesParser_never_fails (ρ : MapRange) (source : EvidenceSource) :
  (∃ chunks, Parse KubernetesParser ρ source = inr chunks)
  ∧ ((∀ i doc,
        Split (Content source) (nl +:+ "---") !! i = Some doc →
        TrimSpace doc ≠ "" →
        ∃ err, parseDocument (TrimSpace doc) (ID source) i = inl err) →
     Parse KubernetesParser ρ source = inr [])
  ∧ (∀ ps,
       selectParser (NewPipeline ps) source = inr KubernetesParser →
       ∃ chunks,
         RunWithMeta ρ (NewPipeline ps) source
         = inr {| Candidates := Map chunks;
                  ParserUsed := "kubernetes";
                  ChunkCount := length chunks |}).
Proof.
  split_and!.
  - eexists. apply KubernetesParser_Parse_concat.
  - intros Hfail. change (KubernetesParser_Parse source = inr []).
    rewrite KubernetesParser_Parse_concat. f_equal.
    apply concat_imap_nil. intros i doc Hdoc. unfold document_chunks.
    case_decide as Hblank; [done|]. by destruct (Hfail i doc Hdoc Hblank) as [err ->].
  - intros ps Hsel. eexists. unfold RunWithMeta. rewrite Hsel.
    change (Parse KubernetesParser ρ source) with (KubernetesParser_Parse source).
    by rewrite KubernetesParser_Parse_concat.
Qed.

End ParserFacts.

(** At the reference codec the hypotheses hold. *)
Lemma Parse_empty_content_witness :
  valid_range Flat.ascending
  ∧ @yamlUnmarshalMap Flat.codec "" = inr ∅
  ∧ Parse (@MarkdownParser Flat.codec) Flat.ascending Examples.emptySource = inr []
  ∧ Parse (@KubernetesParser Flat.codec) Flat.ascending Examples.emptySource = inr []
  ∧ Parse (@YAMLParser Flat.codec) Flat.ascending Examples.emptySource = inr [].
Proof.
  split; [exact ascending_valid|]. split; [reflexivity|].
  apply (@Parse_empty_content Flat.codec Flat.ascending "" "empty").
  - exact ascending_valid.
  - reflexivity.
Defined.

(** C7, at a Deployment and a Service joined by a separator. *)
Lemma KubernetesParser_documents_witness :
  ∃ chunks c1 c2,
    @KubernetesParser_Parse Flat.codec Examples.multiDoc = inr chunks
    ∧ c1 ∈ chunks ∧ c2 ∈ chunks
    ∧ Contains (Text c1) "kind: Deployment" = true
    ∧ Contains (Text c2) "kind: Service" = true.
Proof.
  apply (proj2 (proj2 (proj2 (@KubernetesParser_documents Flat.codec Examples.multiDoc)))
           Examples.deployment Examples.service
           {| APIVersion := "apps/v1"; Kind := "Deployment"; Metadata := None; Spec := None |}
           {| APIVersion := "v1"; Kind := "Service"; Metadata := None; Spec := None |}).
  - vm_compute. reflexivity.
  - vm_compute. discriminate.
  - vm_compute. discriminate.
  - vm_compute. reflexivity.
  - reflexivity.
  - vm_compute. reflexivity.
  - reflexivity.
Defined.

(** C1, evaluated: one pipeline, one source, two iteration orders of the
    runtime, two different candidate lists. *)
Theorem yaml_candidates_follow_map_order :
  let p := @NewPipeline Flat.codec [YAMLParser] in
  let title := {| TargetField := "metadata.title";
                  Value := "title: Access Policy";
                  SourceRef := "policy.yaml / title";
                  CandidateConfidence := (0.75 * 0.80)%float |} in
  let version := {| TargetField := "metadata.version";
                    Value := "version: v2";
                    SourceRef := "policy.yaml / version";
                    CandidateConfidence := (0.75 * 0.80)%float |} in
  valid_range Flat.ascending ∧ valid_range Flat.descending
  ∧ RunWithMeta Flat.ascending p Examples.policy
    = inr {| Candidates := [version; title]; ParserUsed := "yaml"; ChunkCount := 2 |}
  ∧ RunWithMeta Flat.descending p Examples.policy
    = inr {| Candidates := [title; version]; ParserUsed := "yaml"; ChunkCount := 2 |}
  ∧ [version; title] ≠ [title; version].
Proof.
  split_and!.
  - exact ascending_valid.
  - exact descending_valid.
  - vm_compute. reflexivity.
  - vm_compute. reflexivity.
  - discriminate.
Qed.

(** ** White space *)

Lemma rev_app_app (s1 s2 s3 : string) :
  String.rev_app s1 s2 +:+ s3 = String.rev_app s1 (s2 +:+ s3).
Proof. revert s2. induction s1 as [|c s1 IH]; intros s2; [done|]. simpl. by rewrite IH. Qed.

Lemma rev_cons (c : ascii) (s : string) :
  String.rev (String c s) = String.rev s +:+ String c "".
Proof. unfold String.rev. simpl. by rewrite rev_app_app. Qed.

Lemma rev_app_distr (s t : string) :
  String.rev (s +:+ t) = String.rev t +:+ String.rev s.
Proof.
  induction s as [|c s IH]; [by rewrite sapp_nil_l, sapp_nil_r|].
  by rewrite sapp_cons, !rev_cons, IH, sapp_assoc.
Qed.

Lemma rev_involutive (s : string) : String.rev (String.rev s) = s.
Proof.
  induction s as [|c s IH]; [done|]. by rewrite rev_cons, rev_app_distr, IH.
Qed.

Lemma forallb_app (f : ascii → bool) (s t : string) :
  String_forallb f (s +:+ t) = String_forallb f s && String_forallb f t.
Proof.
  induction s as [|c s IH]; [done|]. rewrite sapp_cons. simpl.
  by rewrite IH, andb_assoc.
Qed.

Lemma forallb_rev (f : ascii → bool) (s : string) :
  String_forallb f (String.rev s) = String_forallb f s.
Proof.
  induction s as [|c s IH]; [done|]. rewrite rev_cons, forallb_app, IH. simpl.
  rewrite andb_true_r. apply andb_comm.
Qed.

Lemma take_drop (n : nat) (s : string) : String_take n s +:+ String_drop n s = s.
Proof.
  revert s. induction n as [|n IH]; intros [|c s]; try done.
  simpl. by rewrite sapp_cons, IH.
Qed.

Lemma drop_length (n : nat) (s : string) :
  String.length (String_drop n s) = String.length s - n.
Proof. revert s. induction n as [|n IH]; intros [|c s]; simpl; auto. Qed.


Lemma spaceWidth_nonempty back s : spaceWidth back s ≠ 0 → s ≠ "".
Proof. by destruct s. Qed.

(** One step of trimming. *)
Lemma trimSpaceFront_unfold back s :
  trimSpaceFront back s
  = if decide (spaceWidth back s = 0) then s
    else trimSpaceFront back (String_drop (spaceWidth back s) s).
Proof.
  destruct s as [|c0 s1]; [done|]. cbn [trimSpaceFront spaceWidth].
  destruct (asciiSpace c0); [done|]. destruct s1 as [|c1 s2]; [done|].
  destruct (if back then space2 c1 c0 else space2 c0 c1); [done|].
  destruct s2 as [|c2 s3]; [done|].
  by destruct (if back then space3 c2 c1 c0 else space3 c0 c1 c2).
Qed.

Lemma trimSpaceFront_ind back (P : string → Prop) :
  (∀ s, spaceWidth back s = 0 → P s) →
  (∀ s, spaceWidth back s ≠ 0 → P (String_drop (spaceWidth back s) s) → P s) →
  ∀ s, P s.
Proof.
  intros Hstop Hstep s.
  remember (String.length s) as n eqn:Hn. revert s Hn.
  induction n as [n IH] using lt_wf_ind. intros s ->.
  destruct (decide (spaceWidth back s = 0)) as [H0|H0]; [auto|].
  apply Hstep; [done|].
  apply (IH (String.length (String_drop (spaceWidth back s) s))); [|done].
  rewrite drop_length.
  assert (String.length s ≠ 0) by (destruct s; [by apply spaceWidth_nonempty in H0|done]).
  lia.
Qed.

Lemma trimSpaceFront_stable back s : spaceWidth back (trimSpaceFront back s) = 0.
Proof.
  induction s as [s H0|s Hn IH] using (trimSpaceFront_ind back);
    rewrite trimSpaceFront_unfold; by case_decide.
Qed.

Lemma trimSpaceFront_fixed back s : spaceWidth back s = 0 → trimSpaceFront back s = s.
Proof. intros H. rewrite trimSpaceFront_unfold. by case_decide. Qed.

Lemma trimSpaceFront_suffix back s : ∃ w, s = w +:+ trimSpaceFront back s.
Proof.
  induction s as [s H0|s Hn [w IH]] using (trimSpaceFront_ind back);
    rewrite trimSpaceFront_unfold; case_decide; try done.
  - by exists "".
  - exists (String_take (spaceWidth back s) s +:+ w).
    by rewrite sapp_assoc, <-IH, take_drop.
Qed.

Lemma byte_is_not_lt (n : N) (c : ascii) :
  (RuneSelf ≤ n)%N → byte_is n c = true → byte_lt c RuneSelf = false.
Proof.
  unfold byte_is, byte_lt. intros Hn Hc. apply N.eqb_eq in Hc. rewrite Hc.
  by apply N.ltb_ge.
Qed.

Lemma space2_blank c0 c1 : space2 c0 c1 = true → blankByte c0 = true ∧ blankByte c1 = true.
Proof.
  unfold space2, blankByte. intros H. apply andb_true_iff in H as [H0 H1].
  apply orb_true_iff in H1.
  rewrite (byte_is_not_lt 194 c0) by (done || by compute).
  destruct H1 as [H1|H1].
  - rewrite (byte_is_not_lt 133 c1) by (done || by compute). by rewrite !orb_true_r.
  - rewrite (byte_is_not_lt 160 c1) by (done || by compute). by rewrite !orb_true_r.
Qed.

Lemma space3_blank c0 c1 c2 :
  space3 c0 c1 c2 = true →
  blankByte c0 = true ∧ blankByte c1 = true ∧ blankByte c2 = true.
Proof.
  unfold space3, blankByte, byte_in, byte_is, byte_lt, RuneSelf.
  intros H.
  repeat match goal with
         | H : _ || _ = true |- _ => apply orb_true_iff in H as [H|H]
         | H : _ && _ = true |- _ => apply andb_true_iff in H as [? ?]
         | H : (_ =? _)%N = true |- _ => apply N.eqb_eq in H
         | H : (_ <=? _)%N = true |- _ => apply N.leb_le in H
         end;
    split_and!; apply orb_true_iff; right; apply negb_true_iff, N.ltb_ge; lia.
Qed.

Lemma blank_drop_spaceWidth back s :
  blank (String_drop (spaceWidth back s) s) = blank s.
Proof.
  unfold blank.
  destruct s as [|c0 [|c1 [|c2 s]]]; simpl; repeat case_match; simpl; try done;
    repeat match goal with
           | H : asciiSpace _ = true |- _ => unfold blankByte; rewrite H; clear H
           | H : space2 _ _ = true |- _ => apply space2_blank in H as [-> ->]
           | H : space3 _ _ _ = true |- _ => apply space3_blank in H as (-> & -> & ->)
           end; simpl; try done.
Qed.

Lemma blank_trimSpaceFront back s : blank (trimSpaceFront back s) = blank s.
Proof.
  induction s as [s H0|s Hn IH] using (trimSpaceFront_ind back);
    rewrite trimSpaceFront_unfold; case_decide; try done.
  by rewrite IH, blank_drop_spaceWidth.
Qed.

Lemma blank_TrimSpace s : blank (TrimSpace s) = blank s.
Proof.
  unfold TrimSpace, blank. rewrite forallb_rev. fold (blank (trimSpaceFront true (String.rev (trimSpaceFront false s)))).
  rewrite blank_trimSpaceFront. unfold blank. rewrite forallb_rev.
  apply blank_trimSpaceFront.
Qed.

(** A string holding an ASCII byte that is not white space does not trim
    to the empty string. *)
Lemma TrimSpace_solid (a b : string) (c : ascii) :
  blankByte c = false → TrimSpace (a +:+ String c b) ≠ "".
Proof.
  intros Hc Hempty.
  assert (blank (TrimSpace (a +:+ String c b)) = true) as H by by rewrite Hempty.
  rewrite blank_TrimSpace in H. unfold blank in H. rewrite forallb_app in H.
  simpl in H. rewrite Hc in H. by rewrite andb_false_r in H.
Qed.

Lemma spaceWidth_app s t :
  spaceWidth false s ≠ 0 → spaceWidth false (s +:+ t) ≠ 0.
Proof.
  destruct s as [|c0 [|c1 [|c2 s]]]; rewrite ?sapp_cons; simpl;
    repeat case_match; try done.
Qed.

Lemma TrimSpace_idempotent s : TrimSpace (TrimSpace s) = TrimSpace s.
Proof.
  unfold TrimSpace. set (t := trimSpaceFront false s).
  set (u := trimSpaceFront true (String.rev t)).
  assert (spaceWidth false (String.rev u) = 0) as Hfix.
  { destruct (trimSpaceFront_suffix true (String.rev t)) as [w Hw]. fold u in Hw.
    destruct (decide (spaceWidth false (String.rev u) = 0)) as [|Hne]; [done|].
    apply (spaceWidth_app _ (String.rev w)) in Hne.
    rewrite <-rev_app_distr, <-Hw, rev_involutive in Hne.
    unfold t in Hne. by rewrite trimSpaceFront_stable in Hne. }
  rewrite (trimSpaceFront_fixed false _ Hfix), rev_involutive.
  by rewrite (trimSpaceFront_fixed true u (trimSpaceFront_stable true _)).
Qed.

(** ** The Markdown parser *)

Lemma flush_section_chunks source st :
  flush source st
  = md_chunks st ++ section_chunks source (currentHeading st) (currentLines st).
Proof.
  unfold flush, section_chunks. case_decide; [by rewrite app_nil_r|done].
Qed.

Lemma md_body source body st :
  Forall (λ l, isHeading l = false) body →
  fold_left (md_line source) body st
  = {| md_chunks := md_chunks st;
       currentHeading := currentHeading st;
       currentLines := currentLines st ++ body |}.
Proof.
  intros Hbody. revert st. induction Hbody as [|l body Hl _ IH]; intros st.
  - simpl. rewrite app_nil_r. by destruct st.
  - cbn [fold_left]. rewrite IH. unfold md_line. unfold isHeading in Hl.
    rewrite Hl. simpl. by rewrite <-app_assoc.
Qed.

Lemma md_sections source secs st :
  Forall (λ sec, isHeading (fst sec) = true
                 ∧ Forall (λ l, isHeading l = false) (snd sec)) secs →
  flush source (fold_left (md_line source) (flat_map (λ sec, fst sec :: snd sec) secs) st)
  = flush source st
      ++ flat_map (λ sec, section_chunks source (headingText (fst sec)) (snd sec)) secs.
Proof.
  intros Hsecs. revert st. induction Hsecs as [|[h b] secs [Hh Hb] _ IH]; intros st.
  - simpl. by rewrite app_nil_r.
  - cbn [flat_map fst snd] in *. rewrite <-app_comm_cons. cbn [fold_left].
    rewrite fold_left_app, IH, md_body by done.
    unfold md_line. unfold isHeading in Hh. rewrite Hh.
    rewrite (flush_section_chunks source {| md_chunks := flush source st |}).
    cbn [md_chunks currentHeading currentLines app flat_map fst snd].
    by rewrite <-app_assoc.
Qed.

Lemma sections_exist (lines : list string) :
  ∃ body0 secs, lines = section_lines body0 secs ∧ well_sectioned body0 secs.
Proof.
  induction lines as [|l lines (body0 & secs & -> & Hb & Hs)].
  - exists [], []. by repeat split.
  - destruct (isHeading l) eqn:Hl.
    + exists [], ((l, body0) :: secs). repeat split; [done|]. by constructor.
    + exists (l :: body0), secs. repeat split; [|done]. by constructor.
Qed.

Lemma MarkdownParser_Parse_sections source body0 secs :
  well_sectioned body0 secs →
  Split (Content source) nl = section_lines body0 secs →
  MarkdownParser_Parse source
  = inr (section_chunks source "" body0
           ++ flat_map (λ sec, section_chunks source (headingText (fst sec)) (snd sec))
                       secs).
Proof.
  intros [Hb Hs] Hsplit. unfold MarkdownParser_Parse.
  rewrite Hsplit. unfold section_lines. rewrite fold_left_app, md_sections by done.
  by rewrite md_body, flush_section_chunks.
Qed.

(** C8 (as amended): the sample document parses into its three chunks,
    with section paths "Section One", "Subsection", "Section Two" and
    confidence 0.85.  In general every heading line ends the current
    section and opens the next; a section yields one chunk, holding its
    trimmed body, when that body is not blank, and none otherwise; the
    section path is the heading text, or "preamble" when that text is
    empty or the body precedes every heading. *)
Theorem MarkdownParser_sections :
  MarkdownParser_Parse Examples.mdSample
  = inr [ {| Text := "Content of section one."; SourceID := "test.md";
             SectionPath := "Section One"; Confidence := 0.85 |};
          {| Text := "More content here."; SourceID := "test.md";
             SectionPath := "Subsection"; Confidence := 0.85 |};
          {| Text := "Another section."; SourceID := "test.md";
             SectionPath := "Section Two"; Confidence := 0.85 |} ]
  ∧ (∀ source body0 secs,
       well_sectioned body0 secs →
       Split (Content source) nl = section_lines body0 secs →
       MarkdownParser_Parse source
       = inr (section_chunks source "" body0
                ++ flat_map (λ sec, section_chunks source (headingText (fst sec)) (snd sec))
                            secs))
  ∧ (∀ lines, ∃ body0 secs, lines = section_lines body0 secs ∧ well_sectioned body0 secs)
  ∧ (∀ source heading body,
       TrimSpace (Join body nl) = "" → section_chunks source heading body = [])
  ∧ (∀ source heading body,
       TrimSpace (Join body nl) ≠ "" →
       section_chunks source heading body
       = [ {| Text := TrimSpace (Join body nl);
              SourceID := ID source;
              SectionPath := if decide (heading = "") then "preamble" else heading;
              Confidence := 0.85 |} ]).
Proof.
  split_and!.
  - vm_compute. reflexivity.
  - apply MarkdownParser_Parse_sections.
  - apply sections_exist.
  - intros source heading body Hblank. unfold section_chunks. by rewrite decide_True.
  - intros source heading body Hbody. unfold section_chunks. by rewrite decide_False.
Qed.

(** C8, at the sample document laid out in its sections. *)
Lemma MarkdownParser_sections_witness :
  let secs := [ ("# Section One", ["Content of section one."; ""]);
                ("## Subsection", ["More content here."; ""]);
                ("# Section Two", ["Another section."]) ] in
  well_sectioned [] secs
  ∧ Split (Content Examples.mdSample) nl = section_lines [] secs
  ∧ MarkdownParser_Parse Examples.mdSample
    = inr (section_chunks Examples.mdSample "" []
             ++ flat_map (λ sec, section_chunks Examples.mdSample
                                   (headingText (fst sec)) (snd sec)) secs).
Proof.
  intros secs.
  assert (well_sectioned [] secs) as Hw.
  { split; [constructor|]. repeat constructor. }
  assert (Split (Content Examples.mdSample) nl = section_lines [] secs) as Hs
    by (vm_compute; reflexivity).
  split; [exact Hw|]. split; [exact Hs|].
  exact (proj1 (proj2 MarkdownParser_sections) Examples.mdSample [] secs Hw Hs).
Defined.

(** C8, counterexample: a heading line directly followed by another
    heading line starts no chunk; no chunk carries its text as section
    path. *)
Lemma heading_without_body_starts_no_chunk :
  ∃ chunks,
    MarkdownParser_Parse Examples.twoHeadings = inr chunks
    ∧ ¬ (∀ line, line ∈ Split (Content Examples.twoHeadings) nl →
                 isHeading line = true →
                 ∃ c, c ∈ chunks ∧ SectionPath c = headingText line).
Proof.
  eexists. split; [vm_compute; reflexivity|]. intros Hall.
  destruct (Hall "# A") as (c & Hc & Hpath).
  - vm_compute. left.
  - reflexivity.
  - apply list_elem_of_singleton in Hc as ->. vm_compute in Hpath. discriminate.
Qed.

(** ** Chunk and candidate invariants *)

Lemma TrimSpace_nonempty s : TrimSpace s ≠ "" → s ≠ "".
Proof. by intros H ->. Qed.

Section Invariants.
Context `{ext : Externals}.

Lemma section_chunks_inv source heading body c :
  c ∈ section_chunks source heading body →
  Text c ≠ "" ∧ TrimSpace (Text c) = Text c ∧ Confidence c = 0.85%float.
Proof.
  unfold section_chunks. case_decide as Htext; [by intros ?%elem_of_nil|].
  intros ->%list_elem_of_singleton. simpl. split_and!; try done.
  apply TrimSpace_idempotent.
Qed.

Lemma MarkdownParser_chunks_inv source chunks c :
  MarkdownParser_Parse source = inr chunks → c ∈ chunks →
  Text c ≠ "" ∧ TrimSpace (Text c) = Text c ∧ Confidence c = 0.85%float.
Proof.
  destruct (sections_exist (Split (Content source) nl)) as (body0 & secs & Hs & Hw).
  rewrite (MarkdownParser_Parse_sections source body0 secs Hw Hs).
  intros [= <-] [Hc|Hc]%elem_of_app.
  - by eapply section_chunks_inv.
  - apply list_elem_of_In, in_flat_map in Hc as (sec & _ & Hc).
    apply list_elem_of_In in Hc. by eapply section_chunks_inv.
Qed.

Lemma yaml_fold source kvs acc :
  fold_left (yaml_entry source) kvs acc
  = acc ++ ((λ kv, {| Text := kv.1 +:+ ": " +:+
                        TrimSpace match yamlMarshal kv.2 with
                                  | inr rendered => rendered
                                  | inl _ => formatAny kv.2
                                  end;
                      SourceID := ID source;
                      SectionPath := kv.1;
                      Confidence := 0.80 |}) <$> kvs).
Proof.
  revert acc. induction kvs as [|[k v] kvs IH]; intros acc; simpl.
  - by rewrite app_nil_r.
  - rewrite IH. by rewrite <-app_assoc.
Qed.

Lemma colon_blankByte : blankByte ":" = false.
Proof. reflexivity. Qed.

Lemma YAMLParser_chunks_inv ρ source chunks c :
  YAMLParser_Parse ρ source = inr chunks → c ∈ chunks →
  Text c ≠ "" ∧ TrimSpace (Text c) ≠ "" ∧ Confidence c = 0.80%float.
Proof.
  unfold YAMLParser_Parse. destruct (yamlUnmarshalMap (Content source)); [done|].
  intros [= <-]. rewrite yaml_fold. simpl.
  intros ([k v] & -> & _)%list_elem_of_fmap. simpl.
  assert (TrimSpace (k +:+ ": " +:+
            TrimSpace match yamlMarshal v with
                      | inr rendered => rendered
                      | inl _ => formatAny v
                      end) ≠ "") as Hsolid
    by apply (TrimSpace_solid k _ ":"), colon_blankByte.
  split_and!; [by apply TrimSpace_nonempty|done..].
Qed.

Lemma spec_fold spec sourceID resourceRef keys acc c :
  c ∈ fold_left (spec_key spec sourceID resourceRef) keys acc →
  c ∈ acc ∨ (TrimSpace (Text c) ≠ "" ∧ Confidence c = 0.88%float).
Proof.
  revert acc. induction keys as [|key keys IH]; intros acc; simpl; [by left|].
  intros Hc. apply IH in Hc as [Hc|Hc]; [|by right].
  unfold spec_key in Hc. destruct (spec !! key) as [val|]; [|by left].
  apply elem_of_app in Hc as [Hc|Hc]; [by left|right].
  apply list_elem_of_singleton in Hc as ->. simpl. split; [|done].
  apply (TrimSpace_solid key _ ":"), colon_blankByte.
Qed.

Lemma parseDocument_chunks_inv content sourceID i chunks c :
  parseDocument content sourceID i = inr chunks → c ∈ chunks →
  TrimSpace (Text c) ≠ ""
  ∧ (Confidence c = 0.90%float ∨ Confidence c = 0.88%float).
Proof.
  unfold parseDocument. destruct (yamlUnmarshalManifest content) as [|m]; [done|].
  intros [= <-] Hc.
  assert (∀ ref, c ∈ (if decide (Kind m ≠ "")
                      then [] ++ [ {| Text := "kind: " +:+ Kind m +:+ nl
                                                +:+ "apiVersion: " +:+ APIVersion m;
                                      SourceID := sourceID;
                                      SectionPath := ref +:+ " / identity";
                                      Confidence := 0.90 |} ]
                      else []) →
          TrimSpace (Text c) ≠ "" ∧ Confidence c = 0.90%float) as Hid.
  { intros ref. case_decide; [|by intros ?%elem_of_nil].
    intros ->%list_elem_of_singleton. simpl. split; [|done].
    by apply (TrimSpace_solid "" _ "k"). }
  destruct (Spec m) as [spec|].
  - apply elem_of_app in Hc as [Hc|Hc].
    + apply Hid in Hc as [? ?]. auto.
    + apply spec_fold in Hc as [Hc|[? ?]]; [by apply elem_of_nil in Hc|auto].
  - apply Hid in Hc as [? ?]. auto.
Qed.

Lemma KubernetesParser_chunks_inv source chunks c :
  KubernetesParser_Parse source = inr chunks → c ∈ chunks →
  Text c ≠ "" ∧ TrimSpace (Text c) ≠ ""
  ∧ (Confidence c = 0.90%float ∨ Confidence c = 0.88%float).
Proof.
  rewrite KubernetesParser_Parse_concat. intros [= <-] Hc.
  apply list_elem_of_In, in_concat in Hc as (cs & Hcs & Hc).
  apply list_elem_of_In in Hc, Hcs.
  apply elem_of_lookup_imap in Hcs as (i & doc & -> & _).
  unfold document_chunks in Hc. case_decide; [by apply elem_of_nil in Hc|].
  destruct (parseDocument _ _ _) as [|docChunks] eqn:Hdoc; [by apply elem_of_nil in Hc|].
  destruct (parseDocument_chunks_inv _ _ _ _ _ Hdoc Hc) as [Ht Hconf].
  split_and!; [by apply TrimSpace_nonempty|done..].
Qed.

Lemma Map_confidence chunks cand :
  cand ∈ Map chunks →
  ∃ c, c ∈ chunks
       ∧ CandidateConfidence cand = (mappingConfidence * Confidence c)%float.
Proof.
  rewrite Map_omap. intros (c & Hc & Hmap)%list_elem_of_omap. exists c. split; [done|].
  apply mapChunk_rules_Some in Hmap as (? & ? & ? & _ & _ & _ & ->). done.
Qed.

(** C9 (as amended): a chunk of the Markdown parser has a non-empty text
    that is trimmed; a chunk of the YAML or of the Kubernetes parser has
    a non-empty text that is not blank (it can begin or end with white
    space).  Chunk confidences are 0.85, 0.80, 0.90 or 0.88, so they lie
    in [0,1], and so does the confidence of every candidate mapped from
    the chunks of one of these parsers. *)
Theorem chunk_invariants (ρ : MapRange) (source : EvidenceSource)
    (chunks : list EvidenceChunk) :
  (Parse MarkdownParser ρ source = inr chunks →
     ∀ c, c ∈ chunks →
          Text c ≠ "" ∧ TrimSpace (Text c) = Text c ∧ Confidence c = 0.85%float)
  ∧ (Parse YAMLParser ρ source = inr chunks →
       ∀ c, c ∈ chunks →
            Text c ≠ "" ∧ TrimSpace (Text c) ≠ "" ∧ Confidence c = 0.80%float)
  ∧ (Parse KubernetesParser ρ source = inr chunks →
       ∀ c, c ∈ chunks →
            Text c ≠ "" ∧ TrimSpace (Text c) ≠ ""
            ∧ (Confidence c = 0.90%float ∨ Confidence c = 0.88%float))
  ∧ (∀ parser, parser ∈ repoParsers → Parse parser ρ source = inr chunks →
       (∀ c, c ∈ chunks → unit_interval (Confidence c))
       ∧ (∀ cand, cand ∈ Map chunks → unit_interval (CandidateConfidence cand))).
Proof.
  assert (∀ parser, parser ∈ repoParsers → Parse parser ρ source = inr chunks →
          ∀ c, c ∈ chunks →
               Confidence c = 0.85%float ∨ Confidence c = 0.80%float
               ∨ Confidence c = 0.90%float ∨ Confidence c = 0.88%float) as Hconf.
  { intros parser Hp Hparse c Hc. unfold repoParsers in Hp.
    apply elem_of_cons in Hp as [->|Hp]; [|apply elem_of_cons in Hp as [->|Hp]];
      [| |apply list_elem_of_singleton in Hp as ->].
    - destruct (KubernetesParser_chunks_inv _ _ _ Hparse Hc) as (_ & _ & [?|?]); auto.
    - destruct (MarkdownParser_chunks_inv _ _ _ Hparse Hc) as (_ & _ & ?); auto.
    - destruct (YAMLParser_chunks_inv _ _ _ _ Hparse Hc) as (_ & _ & ?); auto. }
  split_and!.
  - intros Hparse c Hc. exact (MarkdownParser_chunks_inv source chunks c Hparse Hc).
  - intros Hparse c Hc. exact (YAMLParser_chunks_inv ρ source chunks c Hparse Hc).
  - intros Hparse c Hc. exact (KubernetesParser_chunks_inv source chunks c Hparse Hc).
  - intros parser Hp Hparse. split.
    + intros c Hc.
      destruct (Hconf parser Hp Hparse c Hc) as [-> | [-> | [-> | ->]]]; by split.
    + intros cand (c & Hc & ->)%Map_confidence.
      destruct (Hconf parser Hp Hparse c Hc) as [-> | [-> | [-> | ->]]]; by split.
Qed.

End Invariants.

(** C9, counterexample: the identity chunk of a manifest without an
    [apiVersion] ends with a space, so its text is not trimmed. *)
Lemma kubernetes_chunk_text_not_trimmed :
  ∃ chunks c,
    Parse (@KubernetesParser Flat.codec) Flat.ascending Examples.bareKind = inr chunks
    ∧ CanHandle (@KubernetesParser Flat.codec) Examples.bareKind = true
    ∧ c ∈ chunks
    ∧ Text c = "kind: Pod" +:+ nl +:+ "apiVersion: "
    ∧ TrimSpace (Text c) ≠ Text c.
Proof.
  eexists _, _. split_and!.
  - vm_compute. reflexivity.
  - reflexivity.
  - left.
  - reflexivity.
  - vm_compute. discriminate.
Qed.

(** ** Binary64 arithmetic: multiplication by 0.75

    The product of two binary64 numbers is specified by [SFmul]: the
    exact product of the mantissas is shifted right until it fits the
    format, rounded to nearest even, and shifted once more when the
    rounding carries into a new bit.  For the factor 0.75 the first
    shift is by 52 or 53 bits, of which the low 51 are zero, so that one
    or two bits of [3 * m] are rounded away. *)

Section Binary64.
Local Open Scope Z_scope.

(** The number of binary digits of a positive number. *)
Lemma digits2_pos_size p : digits2_pos p = Pos.size p.
Proof. induction p; simpl; congruence. Qed.

Lemma digits2_log2 p : Zpos (digits2_pos p) = Z.log2 (Zpos p) + 1.
Proof. rewrite digits2_pos_size. destruct p; simpl; lia. Qed.

Lemma digits2_unique p k : 2 ^ (k - 1) <= Zpos p < 2 ^ k -> 1 <= k -> Zpos (digits2_pos p) = k.
Proof.
  intros H Hk. rewrite digits2_log2.
  rewrite (Z.log2_unique (Zpos p) (k - 1)); [lia|lia|].
  replace (Z.succ (k - 1)) with k by lia. exact H.
Qed.

Lemma digits2_le p k : Zpos p < 2 ^ k -> 0 <= k -> Zpos (digits2_pos p) <= k.
Proof.
  intros H Hk. rewrite digits2_log2.
  assert (Z.log2 (Zpos p) < k); [|lia]. apply Z.log2_lt_pow2; lia.
Qed.

Lemma digits2_lt_pow p k : Zpos (digits2_pos p) <= k -> Zpos p < 2 ^ k.
Proof.
  intros H. rewrite digits2_log2 in H. apply Z.log2_lt_pow2; lia.
Qed.

Lemma digits2_ge_pow p k : k <= Zpos (digits2_pos p) -> 2 ^ (k - 1) <= Zpos p.
Proof.
  intros H. rewrite digits2_log2 in H.
  destruct (Z.le_gt_cases (k - 1) 0) as [Hk|Hk].
  - assert (2 ^ (k - 1) <= 1); [|lia].
    destruct (Z.eq_dec (k - 1) 0) as [->|]; [simpl; lia|].
    rewrite Z.pow_neg_r; lia.
  - apply Z.log2_le_pow2; lia.
Qed.

(** One right shift of a non-negative mantissa: the bit shifted out
    becomes the round bit, the old round bit joins the sticky bit. *)
Lemma shr_1_nonneg m r s :
  0 <= m ->
  shr_1 {| shr_m := m; shr_r := r; shr_s := s |}
  = {| shr_m := m / 2; shr_r := Z.odd m; shr_s := r || s |}.
Proof.
  intros Hm. destruct m as [|p|p]; [reflexivity| |lia].
  destruct p as [p|p|]; cbv [shr_1]; f_equal; try reflexivity.
  - rewrite Pos2Z.inj_xI. apply (Z.div_unique _ _ _ 1); lia.
  - rewrite Pos2Z.inj_xO. apply (Z.div_unique _ _ _ 0); lia.
Qed.

Lemma iter_pos_nat {A} (f : A -> A) p x : SpecFloat.iter_pos f p x = Nat.iter (Pos.to_nat p) f x.
Proof.
  revert x. induction p as [p IH|p IH|]; intros x; cbn [SpecFloat.iter_pos].
  - rewrite !IH, Pos2Nat.inj_xI, <-Nat.iter_succ_r, <-Nat.iter_add. f_equal. lia.
  - rewrite !IH, Pos2Nat.inj_xO, <-Nat.iter_add. f_equal. lia.
  - reflexivity.
Qed.

Lemma odd_mod2 x : Z.odd x = (x mod 2 =? 1).
Proof.
  rewrite Zmod_odd. destruct (Z.odd x); reflexivity.
Qed.

(** [k + 1] right shifts from an exact location. *)
Lemma shr_iter k M :
  0 <= M ->
  Nat.iter (S k) shr_1 {| shr_m := M; shr_r := false; shr_s := false |}
  = {| shr_m := M / 2 ^ Z.of_nat (S k);
       shr_r := Z.odd (M / 2 ^ Z.of_nat k);
       shr_s := negb (M mod 2 ^ Z.of_nat k =? 0) |}.
Proof.
  intros HM. induction k as [|k IH].
  - change (Nat.iter 1 shr_1 ?x) with (shr_1 x).
    rewrite shr_1_nonneg by assumption. f_equal.
    + simpl. rewrite Z.div_1_r. reflexivity.
    + simpl. rewrite Z.mod_1_r. reflexivity.
  - change (Nat.iter (S (S k)) shr_1 ?x) with (shr_1 (Nat.iter (S k) shr_1 x)).
    rewrite IH.
    assert (0 < 2 ^ Z.of_nat k) as Hpow by (apply Z.pow_pos_nonneg; lia).
    rewrite shr_1_nonneg by (apply Z.div_pos; [assumption|apply Z.pow_pos_nonneg; lia]).
    f_equal.
    + rewrite Z.div_div by lia. f_equal.
      rewrite (Nat2Z.inj_succ (S k)), Z.pow_succ_r by lia. lia.
    + rewrite (Nat2Z.inj_succ k), Z.pow_succ_r by lia.
      rewrite (Z.mul_comm 2), Z.rem_mul_r by lia.
      rewrite odd_mod2.
      pose proof (Z.mod_pos_bound M (2 ^ Z.of_nat k) Hpow).
      pose proof (Z.mod_pos_bound (M / 2 ^ Z.of_nat k) 2 ltac:(lia)).
      destruct (Z.eqb_spec ((M / 2 ^ Z.of_nat k) mod 2) 1) as [E1|E1];
        destruct (Z.eqb_spec (M mod 2 ^ Z.of_nat k) 0) as [E2|E2];
        simpl; symmetry; rewrite ?negb_true_iff, ?negb_false_iff;
        try (apply Z.eqb_neq; nia); apply Z.eqb_eq; nia.
Qed.

(** The shift to the format's exponent, when it is by [p] bits. *)
Lemma shr_fexp_shift (M E : Z) (p : positive) :
  0 <= M ->
  fexp prec emax (Zdigits2 M + E) - E = Zpos p ->
  shr_fexp prec emax M E loc_Exact
  = ({| shr_m := M / 2 ^ Zpos p;
        shr_r := Z.odd (M / 2 ^ (Zpos p - 1));
        shr_s := negb (M mod 2 ^ (Zpos p - 1) =? 0) |}, E + Zpos p).
Proof.
  intros HM Hn. unfold shr_fexp. rewrite Hn. unfold shr, shr_record_of_loc.
  rewrite iter_pos_nat.
  destruct (Pos2Nat.is_succ p) as [k Hk]. rewrite Hk, shr_iter by assumption.
  rewrite <-Hk, positive_nat_Z.
  replace (Z.of_nat k) with (Zpos p - 1) by lia. reflexivity.
Qed.

(** No shift is needed when the mantissa already fits. *)
Lemma shr_fexp_keep (m e : Z) :
  fexp prec emax (Zdigits2 m + e) - e <= 0 ->
  shr_fexp prec emax m e loc_Exact
  = ({| shr_m := m; shr_r := false; shr_s := false |}, e).
Proof.
  intros Hn. unfold shr_fexp, shr, shr_record_of_loc.
  destruct (fexp prec emax (Zdigits2 m + e) - e); try reflexivity. lia.
Qed.

Lemma round_nearest_even_bounds mx lx :
  mx <= round_nearest_even mx lx <= mx + 1.
Proof.
  unfold round_nearest_even. destruct lx as [|[| |]]; try lia.
  destruct (Z.even mx); lia.
Qed.

(** Two shifts: the rounded quotient of [t] by four is within half a unit. *)
Lemma round_quarter (t : Z) :
  3 <= t ->
  let m1 := round_nearest_even (t / 4)
              (loc_of_shr_record {| shr_m := t / 4;
                                    shr_r := Z.odd (t / 2);
                                    shr_s := negb (t mod 2 =? 0) |}) in
  1 <= m1 /\ 4 * m1 <= t + 2.
Proof.
  intros Ht. cbv zeta. rewrite odd_mod2. unfold loc_of_shr_record.
  destruct (Z.eqb_spec ((t / 2) mod 2) 1) as [E1|E1];
    destruct (Z.eqb_spec (t mod 2) 0) as [E2|E2]; cbn [negb round_nearest_even];
    try destruct (Z.even (t / 4)); Z.div_mod_to_equations; lia.
Qed.

(** The product of 0.75 and a positive finite number [m * 2^e] is a
    positive finite number [m' * 2^e'] with a smaller exponent, or with
    the same exponent and a mantissa that is not larger. *)
Lemma three_quarters_finite (m : positive) (e : Z) :
  bounded prec emax m e = true ->
  exists m' e',
    SFmul prec emax (S754_finite false mappingMantissa (-53)) (S754_finite false m e)
    = S754_finite false m' e'
    /\ (e' < e \/ (e' = e /\ Zpos m' <= Zpos m)).
Proof.
  unfold bounded, canonical_mantissa. intros Hb.
  apply andb_true_iff in Hb as [Hcanon He]. apply Z.eqb_eq in Hcanon. apply Z.leb_le in He.
  unfold fexp, emin, prec, emax in Hcanon, He.
  pose proof (digits2_lt_pow m 53) as Hlt.
  pose proof (digits2_ge_pow m 53) as Hge.
  change (2 ^ 53) with 9007199254740992 in Hlt.
  change (2 ^ (53 - 1)) with 4503599627370496 in Hge.
  assert (Zpos m < 9007199254740992) as Hm by (apply Hlt; lia).
  assert (-1074 <= e) as Hemin by lia.
  assert (-1073 <= e -> 4503599627370496 <= Zpos m) as Hnormal by (intros; apply Hge; lia).
  clear Hlt Hge.
  unfold SFmul. cbn [xorb]. unfold binary_round_aux.
  set (M := Zpos (mappingMantissa * m)).
  assert (M = 6755399441055744 * Zpos m) as HM by (unfold M, mappingMantissa; lia).
  assert (0 <= M) as HM0 by lia.
  set (E := -53 + e).
  (* the first shift is by 52 or by 53 bits *)
  assert ((fexp prec emax (Zdigits2 M + E) - E = 52
           /\ 9007199254740992 <= 3 * Zpos m < 18014398509481984 /\ -1073 <= e)
          \/ fexp prec emax (Zdigits2 M + E) - E = 53) as Hshift.
  { unfold fexp, emin, prec, emax, E, Zdigits2, M.
    destruct (Z.le_gt_cases (-1073) e) as [Hn|Hs].
    - specialize (Hnormal Hn).
      destruct (Z.lt_ge_cases (3 * Zpos m) 18014398509481984) as [Hlo|Hhi].
      + left. rewrite (digits2_unique (mappingMantissa * m) 105); [lia| |lia].
        change (2 ^ (105 - 1)) with 20282409603651670423947251286016.
        change (2 ^ 105) with 40564819207303340847894502572032.
        fold M. lia.
      + right. rewrite (digits2_unique (mappingMantissa * m) 106); [lia| |lia].
        change (2 ^ (106 - 1)) with 40564819207303340847894502572032.
        change (2 ^ 106) with 81129638414606681695789005144064.
        fold M. lia.
    - right. pose proof (digits2_le (mappingMantissa * m) 106) as Hd.
      change (2 ^ 106) with 81129638414606681695789005144064 in Hd.
      fold M in Hd. lia. }
  destruct Hshift as [(Hn & Ht & Hnorm)|Hn].
  - (* one bit of 3m is shifted out *)
    rewrite (shr_fexp_shift M E 52 HM0 Hn).
    change (2 ^ 52) with 4503599627370496. change (2 ^ (52 - 1)) with 2251799813685248.
    set (mrs := {| shr_m := _ |}).
    pose proof (round_nearest_even_bounds (shr_m mrs) (loc_of_shr_record mrs)) as Hr.
    set (m1 := round_nearest_even (shr_m mrs) (loc_of_shr_record mrs)) in *.
    unfold mrs in Hr. cbn [shr_m] in Hr.
    assert (4503599627370496 <= m1 <= 9007199254740992) as Hm1
      by (Z.div_mod_to_equations; lia).
    destruct m1 as [|p1|p1] eqn:Hp1; [lia| |lia].
    destruct (Z.eq_dec (Zpos p1) 9007199254740992) as [Htop|Htop].
    + (* the mantissa overflows to 2^53 and is shifted once more *)
      assert (fexp prec emax (Zdigits2 (Zpos p1) + (E + 52)) - (E + 52) = 1) as Hn2.
      { unfold fexp, emin, prec, emax, E, Zdigits2.
        rewrite (digits2_unique p1 54); [lia| |lia].
        change (2 ^ (54 - 1)) with 9007199254740992.
        change (2 ^ 54) with 18014398509481984. lia. }
      rewrite (shr_fexp_shift (Zpos p1) (E + 52) 1 ltac:(lia) Hn2).
      cbn [shr_m]. change (2 ^ 1) with 2.
      assert (Zpos p1 / 2 = 4503599627370496) as -> by (Z.div_mod_to_equations; lia).
      assert (E + 52 + 1 = e) as -> by (unfold E; lia).
      unfold emax, prec. replace (e <=? 1024 - 53) with true by (symmetry; apply Z.leb_le; lia).
      eexists _, _. split; [reflexivity|]. right. split; [reflexivity|]. lia.
    + assert (fexp prec emax (Zdigits2 (Zpos p1) + (E + 52)) - (E + 52) <= 0) as Hn2.
      { unfold fexp, emin, prec, emax, E, Zdigits2.
        rewrite (digits2_unique p1 53); [lia| |lia].
        change (2 ^ (53 - 1)) with 4503599627370496.
        change (2 ^ 53) with 9007199254740992. lia. }
      rewrite (shr_fexp_keep _ _ Hn2). cbn [shr_m].
      unfold emax, prec.
      replace (E + 52 <=? 1024 - 53) with true by (symmetry; apply Z.leb_le; unfold E; lia).
      eexists _, _. split; [reflexivity|]. left. unfold E. lia.
  - (* two bits of 3m are shifted out *)
    rewrite (shr_fexp_shift M E 53 HM0 Hn).
    change (2 ^ 53) with 9007199254740992. change (2 ^ (53 - 1)) with 4503599627370496.
    assert (M / 9007199254740992 = (3 * Zpos m) / 4) as -> by (Z.div_mod_to_equations; lia).
    assert (M / 4503599627370496 = (3 * Zpos m) / 2) as -> by (Z.div_mod_to_equations; lia).
    assert ((M mod 4503599627370496 =? 0) = ((3 * Zpos m) mod 2 =? 0)) as ->.
    { destruct (Z.eqb_spec (M mod 4503599627370496) 0);
        destruct (Z.eqb_spec ((3 * Zpos m) mod 2) 0); try reflexivity;
        Z.div_mod_to_equations; lia. }
    destruct (round_quarter (3 * Zpos m) ltac:(lia)) as [Hpos Hle].
    set (m1 := round_nearest_even _ _) in *.
    destruct m1 as [|p1|p1] eqn:Hp1; [lia| |lia].
    assert (fexp prec emax (Zdigits2 (Zpos p1) + (E + 53)) - (E + 53) <= 0) as Hn2.
    { unfold fexp, emin, prec, emax, E, Zdigits2.
      destruct (Z.le_gt_cases (-1073) e) as [Hn'|Hs].
      - specialize (Hnormal Hn'). pose proof (digits2_le p1 53) as Hd.
        change (2 ^ 53) with 9007199254740992 in Hd. lia.
      - pose proof (digits2_le p1 (Zpos (digits2_pos m))) as Hd.
        pose proof (digits2_lt_pow p1 (Zpos (digits2_pos m))) as Hd'.
        assert (Zpos p1 < 2 ^ Zpos (digits2_pos m)); [|lia].
        pose proof (digits2_lt_pow m (Zpos (digits2_pos m)) ltac:(lia)). lia. }
    rewrite (shr_fexp_keep _ _ Hn2). cbn [shr_m].
    unfold emax, prec.
    replace (E + 53 <=? 1024 - 53) with true by (symmetry; apply Z.leb_le; unfold E; lia).
    eexists _, _. split; [reflexivity|]. right. unfold E. split; lia.
Qed.

(** Multiplying a positive binary64 number by 0.75 gives a positive
    number that is not larger. *)
Lemma three_quarters_float (c : float) :
  (0 <? c)%float = true ->
  (0 <? 0.75 * c)%float = true /\ (0.75 * c <=? c)%float = true.
Proof.
  rewrite !ltb_spec, leb_spec, mul_spec.
  change (Prim2SF 0) with (S754_zero false).
  change (Prim2SF 0.75) with (S754_finite false mappingMantissa (-53)).
  pose proof (Prim2SF_valid c) as Hv.
  destruct (Prim2SF c) as [s|s| |s m e]; try discriminate.
  - destruct s; [discriminate|]. intros _. split; reflexivity.
  - destruct s; [discriminate|]. intros _.
    destruct (three_quarters_finite m e Hv) as (m' & e' & Heq & Hcmp).
    unfold SF64mul. rewrite Heq. split; [reflexivity|].
    unfold SFleb, SFcompare. destruct Hcmp as [Hlt|[-> Hle]].
    + apply Z.compare_lt_iff in Hlt. rewrite Hlt. reflexivity.
    + rewrite Z.compare_refl. fold (Pos.compare m' m).
      destruct (Pos.compare_spec m' m) as [?|?|Hgt]; try reflexivity. lia.
Qed.

End Binary64.

Section ConfidenceFacts.
Context `{ext : Externals}.

(** C2 (as amended): the confidence of a candidate is 0.75 times the
    confidence of its chunk, in binary64 arithmetic; when the chunk's
    confidence is positive, the candidate's is positive and not larger
    than the chunk's. *)
Theorem candidate_confidence (chunk : EvidenceChunk) (cand : SchemaCandidate) :
  mapChunk chunk = Some cand →
  CandidateConfidence cand = (0.75 * Confidence chunk)%float
  ∧ ((0 <? Confidence chunk)%float = true →
       (0 <? CandidateConfidence cand)%float = true
       ∧ (CandidateConfidence cand <=? Confidence chunk)%float = true).
Proof.
  intros Hmap.
  apply mapChunk_rules_Some in Hmap as (? & ? & ? & _ & _ & _ & ->).
  cbn [CandidateConfidence]. split; [done|].
  apply three_quarters_float.
Qed.

End ConfidenceFacts.

(** C2, at a chunk of confidence one. *)
Lemma candidate_confidence_witness :
  let cand := {| TargetField := "controls[].objective";
                 Value := "objective: ensure encryption";
                 SourceRef := "doc.md / s1";
                 CandidateConfidence := 0.75 |} in
  @mapChunk Flat.codec Examples.sureChunk = Some cand
  ∧ (0 <? Confidence Examples.sureChunk)%float = true
  ∧ CandidateConfidence cand = (0.75 * Confidence Examples.sureChunk)%float
  ∧ (0 <? CandidateConfidence cand)%float = true
  ∧ (CandidateConfidence cand <=? Confidence Examples.sureChunk)%float = true.
Proof.
  intros cand.
  assert (@mapChunk Flat.codec Examples.sureChunk = Some cand) as Hmap
    by (vm_compute; reflexivity).
  split; [exact Hmap|]. split; [reflexivity|].
  destruct (@candidate_confidence Flat.codec Examples.sureChunk cand Hmap) as [Hprod Hbound].
  split; [exact Hprod|]. exact (Hbound eq_refl).
Defined.

(** C2, counterexample: a chunk of confidence zero yields a candidate
    whose confidence is zero, hence not positive. *)
Lemma zero_confidence_candidate :
  ∃ cand,
    @mapChunk Flat.codec Examples.zeroChunk = Some cand
    ∧ CandidateConfidence cand = 0%float
    ∧ (0 <? CandidateConfidence cand)%float = false.
Proof. eexists. split_and!; [vm_compute; reflexivity|reflexivity..]. Qed.

(** ** How far two runs agree *)

Section Determinism.
Context `{ext : Externals}.

Lemma yaml_chunks_permutation (ρ1 ρ2 : MapRange) source doc :
  valid_range ρ1 → valid_range ρ2 →
  fold_left (yaml_entry source) (ρ1 doc) []
  ≡ₚ fold_left (yaml_entry source) (ρ2 doc) [].
Proof.
  intros H1 H2. rewrite !yaml_fold. simpl.
  apply fmap_Permutation. by rewrite (H1 doc), (H2 doc).
Qed.

(** Two runs of a pipeline over the repository's parsers on one source
    both fail with the same error, or both succeed with the same parser,
    the same chunk count and the same candidates up to their order. *)
Theorem runs_agree_up_to_order (ρ1 ρ2 : MapRange) (ps : list EvidenceParser)
    (source : EvidenceSource) :
  valid_range ρ1 → valid_range ρ2 →
  (∀ parser, parser ∈ ps → parser ∈ repoParsers) →
  agree_up_to_order (RunWithMeta ρ1 (NewPipeline ps) source)
                    (RunWithMeta ρ2 (NewPipeline ps) source).
Proof.
  intros H1 H2 Hps. unfold RunWithMeta.
  destruct (selectParser (NewPipeline ps) source) as [err|parser] eqn:Hsel; [done|].
  destruct (selectParser_loop_inr ps parser source Hsel) as (pre & post & -> & _ & _).
  assert (parser ∈ repoParsers) as Hp by (apply Hps; set_solver).
  unfold repoParsers in Hp.
  apply elem_of_cons in Hp as [->|Hp]; [|apply elem_of_cons in Hp as [->|Hp]];
    [| |apply list_elem_of_singleton in Hp as ->].
  - simpl. done.
  - simpl. done.
  - cbn [Parse YAMLParser Name]. unfold YAMLParser_Parse.
    destruct (yamlUnmarshalMap (Content source)) as [err|doc]; [done|].
    pose proof (yaml_chunks_permutation ρ1 ρ2 source doc H1 H2) as Hperm.
    cbn [agree_up_to_order Candidates ParserUsed ChunkCount]. split_and!.
    + rewrite !Map_omap. by apply omap_Permutation.
    + done.
    + by apply Permutation_length.
Qed.

(** A pipeline of the Markdown and Kubernetes parsers only returns the
    same result on every run. *)
Theorem runs_equal_without_yaml (ρ1 ρ2 : MapRange) (ps : list EvidenceParser)
    (source : EvidenceSource) :
  (∀ parser, parser ∈ ps → parser = MarkdownParser ∨ parser = KubernetesParser) →
  RunWithMeta ρ1 (NewPipeline ps) source = RunWithMeta ρ2 (NewPipeline ps) source.
Proof.
  intros Hps. unfold RunWithMeta.
  destruct (selectParser (NewPipeline ps) source) as [err|parser] eqn:Hsel; [done|].
  destruct (selectParser_loop_inr ps parser source Hsel) as (pre & post & -> & _ & _).
  destruct (Hps parser) as [-> | ->]; [set_solver|done..].
Qed.

End Determinism.

Lemma runs_agree_up_to_order_witness :
  valid_range Flat.ascending ∧ valid_range Flat.descending
  ∧ agree_up_to_order
      (RunWithMeta Flat.ascending (NewPipeline (@repoParsers Flat.codec)) Examples.policy)
      (RunWithMeta Flat.descending (NewPipeline (@repoParsers Flat.codec)) Examples.policy).
Proof.
  split; [exact ascending_valid|]. split; [exact descending_valid|].
  apply (@runs_agree_up_to_order Flat.codec).
  - exact ascending_valid.
  - exact descending_valid.
  - intros parser Hp. exact Hp.
Defined.

Lemma runs_equal_without_yaml_witness :
  RunWithMeta Flat.ascending
    (NewPipeline [@KubernetesParser Flat.codec; MarkdownParser]) Examples.mdSample
  = RunWithMeta Flat.descending
      (NewPipeline [@KubernetesParser Flat.codec; MarkdownParser]) Examples.mdSample.
Proof.
  apply (@runs_equal_without_yaml Flat.codec).
  intros parser Hp. apply elem_of_cons in Hp as [->|Hp]; [by right|].
  apply list_elem_of_singleton in Hp as ->. by left.
Defined.

(** ** The tests of the repository, on the model *)

Section Tests.
Context `{ext : Externals}.

(** [TestSchemaMapper_Map]. *)
Lemma test_SchemaMapper_Map :
  TargetField <$> Map [ {| Text := "The objective of this control is to ensure TLS 1.2+";
                           SourceID := "doc.md"; SectionPath := "Section 1"; Confidence := 1 |} ]
  = ["controls[].objective"]
  ∧ TargetField <$> Map [ {| Text := "title: Network Security Policy";
                             SourceID := "policy.yaml"; SectionPath := "root"; Confidence := 1 |} ]
    = ["metadata.title"]
  ∧ TargetField <$> Map [ {| Text := "Verify that TLS certificates are valid and unexpired";
                             SourceID := "doc.md"; SectionPath := "Audit"; Confidence := 0.9 |} ]
    = ["controls[].assessment"]
  ∧ Map [ {| Text := "Lorem ipsum dolor sit amet";
             SourceID := "doc.md"; SectionPath := "random"; Confidence := 1 |} ] = []
  ∧ Map [] = [].
Proof. split_and!; vm_compute; reflexivity. Qed.

(** [TestSchemaMapper_ConfidencePropagation]. *)
Lemma test_ConfidencePropagation :
  ∃ c1 c2,
    Map [ {| Text := "objective: ensure encryption"; SourceID := "doc.md";
             SectionPath := "s1"; Confidence := 1 |};
          {| Text := "objective: ensure encryption"; SourceID := "doc.md";
             SectionPath := "s2"; Confidence := 0.5 |} ] = [c1; c2]
    ∧ (CandidateConfidence c2 <? CandidateConfidence c1)%float = true.
Proof. eexists _, _. split; vm_compute; reflexivity. Qed.

(** [TestPipeline_UnsupportedFormat], [TestPipeline_RegisteredParsers]
    and [TestPipeline_RunWithMeta_MarkdownDoc]. *)
Lemma test_Pipeline (ρ : MapRange) :
  (∃ err, Run ρ (NewPipeline []) Examples.pdfSource = inl err
          ∧ Contains (Error err) "unsupported evidence format" = true)
  ∧ RegisteredParsers (NewPipeline [MarkdownParser; YAMLParser]) = ["markdown"; "yaml"]
  ∧ (∃ result,
       RunWithMeta ρ (NewPipeline [MarkdownParser])
         {| Content := "# Network Security" +:+ nl
                         +:+ "The objective of this control is to encrypt all traffic."
                         +:+ nl +:+ nl +:+ "## Assessment" +:+ nl +:+ "Verify TLS settings.";
            Format := ""; ID := "policy.md" |} = inr result
       ∧ ParserUsed result = "markdown" ∧ 0 < ChunkCount result).
Proof.
  split_and!.
  - eexists. split; [reflexivity|]. vm_compute. reflexivity.
  - reflexivity.
  - eexists. split_and!; [vm_compute; reflexivity|reflexivity|simpl; lia].
Qed.

(** [TestMarkdownParser_CanHandle], [TestYAMLParser_CanHandle] and
    [TestKubernetesParser_CanHandle]. *)
Lemma test_CanHandle :
  CanHandle MarkdownParser (Examples.hint "markdown") = true
  ∧ CanHandle MarkdownParser (Examples.hint "md") = true
  ∧ CanHandle MarkdownParser (Examples.content ("# Heading" +:+ nl +:+ "text")) = true
  ∧ CanHandle MarkdownParser (Examples.content ("preamble" +:+ nl +:+ "# Heading")) = true
  ∧ CanHandle MarkdownParser (Examples.content "apiVersion: v1") = false
  ∧ CanHandle YAMLParser (Examples.hint "yaml") = true
  ∧ CanHandle YAMLParser (Examples.hint "yml") = true
  ∧ CanHandle YAMLParser (Examples.hint "json") = true
  ∧ CanHandle YAMLParser
      (Examples.content ("{" +:+ dquote +:+ "key" +:+ dquote +:+ ": "
                           +:+ dquote +:+ "value" +:+ dquote +:+ "}")) = true
  ∧ CanHandle YAMLParser (Examples.content ("key: value" +:+ nl +:+ "other: thing")) = true
  ∧ CanHandle YAMLParser (Examples.content ("# Heading" +:+ nl +:+ "text")) = false
  ∧ CanHandle KubernetesParser (Examples.hint "kubernetes") = true
  ∧ CanHandle KubernetesParser (Examples.hint "k8s") = true
  ∧ CanHandle KubernetesParser (Examples.content Examples.sampleDeployment) = true
  ∧ CanHandle KubernetesParser (Examples.content "# Markdown doc") = false.
Proof. split_and!; vm_compute; reflexivity. Qed.

(** [TestMarkdownParser_Parse_Preamble] and
    [TestMarkdownParser_Parse_EmptyContent]. *)
Lemma test_MarkdownParser_Parse :
  (∃ c1 c2,
     MarkdownParser_Parse
       {| Content := "This is a preamble." +:+ nl +:+ nl +:+ "# First Section"
                       +:+ nl +:+ "Section content.";
          Format := ""; ID := "doc.md" |} = inr [c1; c2]
     ∧ SectionPath c1 = "preamble")
  ∧ MarkdownParser_Parse {| Content := ""; Format := ""; ID := "empty.md" |} = inr [].
Proof. split; [eexists _, _; split|]; vm_compute; reflexivity. Qed.

End Tests.

(** ** When the text of a chunk is trimmed *)

Lemma byte_lt_not_is (n : N) (c : ascii) :
  (RuneSelf ≤ n)%N → byte_lt c RuneSelf = true → byte_is n c = false.
Proof.
  unfold byte_is, byte_lt. intros Hn Hc. apply N.ltb_lt in Hc. apply N.eqb_neq. lia.
Qed.

Lemma space2_high c0 c1 :
  space2 c0 c1 = true → byte_lt c0 RuneSelf = false ∧ byte_lt c1 RuneSelf = false.
Proof.
  intros H. split.
  - destruct (byte_lt c0 RuneSelf) eqn:E; [|done]. unfold space2 in H.
    by rewrite (byte_lt_not_is 194 c0) in H.
  - destruct (byte_lt c1 RuneSelf) eqn:E; [|done]. unfold space2 in H.
    rewrite (byte_lt_not_is 133 c1), (byte_lt_not_is 160 c1) in H by done.
    by rewrite andb_false_r in H.
Qed.

Lemma space3_high c0 c1 c2 :
  space3 c0 c1 c2 = true →
  byte_lt c0 RuneSelf = false ∧ byte_lt c1 RuneSelf = false
  ∧ byte_lt c2 RuneSelf = false.
Proof.
  unfold space3, byte_in, byte_is, byte_lt, RuneSelf. intros H.
  repeat match goal with
         | H : _ || _ = true |- _ => apply orb_true_iff in H as [H|H]
         | H : _ && _ = true |- _ => apply andb_true_iff in H as [? ?]
         | H : (_ =? _)%N = true |- _ => apply N.eqb_eq in H
         | H : (_ <=? _)%N = true |- _ => apply N.leb_le in H
         end;
    split_and!; apply N.ltb_ge; lia.
Qed.


(** Appending text that starts with an ASCII byte to a non-empty string
    does not make it begin with a white-space rune. *)
Lemma spaceWidth_app_ascii back s c t :
  spaceWidth back s = 0 → s ≠ "" → byte_lt c RuneSelf = true →
  spaceWidth back (s +:+ String c t) = 0.
Proof.
  intros H0 Hs Hc. destruct s as [|a s]; [done|]. clear Hs.
  rewrite sapp_cons. cbn [spaceWidth] in *.
  destruct (asciiSpace a); [done|].
  destruct s as [|b s].
  - rewrite sapp_nil_l.
    destruct (if back then space2 c a else space2 a c) eqn:E2.
    { destruct back; apply space2_high in E2 as [? ?]; congruence. }
    destruct t as [|c2 t]; [done|].
    destruct (if back then space3 c2 c a else space3 a c c2) eqn:E3; [|done].
    destruct back; apply space3_high in E3 as (? & ? & ?); congruence.
  - rewrite sapp_cons.
    destruct (if back then space2 b a else space2 a b); [done|].
    destruct s as [|x s].
    + rewrite sapp_nil_l.
      destruct (if back then space3 c b a else space3 a b c) eqn:E3; [|done].
      destruct back; apply space3_high in E3 as (? & ? & ?); congruence.
    + by rewrite sapp_cons.
Qed.

Lemma TrimSpace_fixed s :
  spaceWidth false s = 0 → spaceWidth true (String.rev s) = 0 → TrimSpace s = s.
Proof.
  intros Hl Hr. unfold TrimSpace.
  by rewrite (trimSpaceFront_fixed false s Hl), (trimSpaceFront_fixed true _ Hr),
       rev_involutive.
Qed.

Lemma TrimSpace_end s : spaceWidth true (String.rev (TrimSpace s)) = 0.
Proof. unfold TrimSpace. rewrite rev_involutive. apply trimSpaceFront_stable. Qed.

Lemma rev_nonempty s : s ≠ "" → String.rev s ≠ "".
Proof. intros Hs Hr. apply Hs. by rewrite <-(rev_involutive s), Hr. Qed.


Section TrimmedTexts.
Context `{ext : Externals}.








End TrimmedTexts.


(** ** Shape of the parsers' output *)

Section Shapes.
Context `{ext : Externals}.

(** The YAML parser yields one chunk for each top-level key, in the
    order in which the runtime walks the map: the section paths are the
    keys in that order, the source ID is the source's, and the
    confidence is 0.80. *)
Theorem YAMLParser_one_chunk_per_key (ρ : MapRange) (source : EvidenceSource)
    (doc : gmap string Any) :
  valid_range ρ →
  yamlUnmarshalMap (Content source) = inr doc →
  ∃ chunks,
    YAMLParser_Parse ρ source = inr chunks
    ∧ length chunks = size doc
    ∧ SectionPath <$> chunks = fst <$> ρ doc
    ∧ SectionPath <$> chunks ≡ₚ fst <$> map_to_list doc
    ∧ ∀ c, c ∈ chunks →
           SourceID c = ID source ∧ Confidence c = 0.80%float
           ∧ is_Some (doc !! SectionPath c).
Proof.
  intros Hρ Hdoc. unfold YAMLParser_Parse. rewrite Hdoc, yaml_fold. simpl.
  eexists. split; [reflexivity|]. split_and!.
  - by rewrite length_fmap, (Hρ doc), length_map_to_list.
  - by rewrite <-list_fmap_compose.
  - rewrite <-list_fmap_compose, <-(Hρ doc). done.
  - intros c ([k v] & -> & Hkv)%list_elem_of_fmap. simpl. split_and!; [done..|].
    exists v. apply elem_of_map_to_list. by rewrite <-(Hρ doc).
Qed.




End Shapes.

Lemma YAMLParser_one_chunk_per_key_witness :
  ∃ chunks,
    @YAMLParser_Parse Flat.codec Flat.descending Examples.policy = inr chunks
    ∧ length chunks = 2
    ∧ SectionPath <$> chunks = ["title"; "version"].
Proof.
  destruct (@YAMLParser_one_chunk_per_key Flat.codec Flat.descending Examples.policy
              {[ "title" := "Access Policy"; "version" := "v2" ]})
    as (chunks & Hparse & Hlen & Horder & _).
  - exact descending_valid.
  - vm_compute. reflexivity.
  - exists chunks. split; [exact Hparse|]. split.
    + rewrite Hlen. vm_compute. reflexivity.
    + rewrite Horder. vm_compute. reflexivity.
Defined.


(** * Further properties *)

(** ** Lines *)

Lemma Split_nl_nil : Split "" nl = [""].
Proof. reflexivity. Qed.

Lemma HasPrefix_nil (s : string) : HasPrefix s "" = true.
Proof. by destruct s. Qed.

Lemma Split_nl_cons (c : ascii) (s : string) :
  Split (String c s) nl
  = if decide (c = "010"%char) then "" :: Split s nl else cons_head c (Split s nl).
Proof.
  unfold Split, nl. cbn [split_aux HasPrefix String.length Nat.sub].
  case_decide; [by rewrite HasPrefix_nil|done].
Qed.

Lemma Split_nl_nonempty (s : string) : Split s nl ≠ [].
Proof.
  destruct s as [|c s]; [done|]. rewrite Split_nl_cons.
  case_decide; [done|]. by destruct (Split s nl).
Qed.

Lemma cons_head_app (c : ascii) (l k : list string) :
  l ≠ [] → cons_head c (l ++ k) = cons_head c l ++ k.
Proof. by destruct l. Qed.

Lemma Split_nl_app (a b : string) :
  Split (a +:+ nl +:+ b) nl = Split a nl ++ Split b nl.
Proof.
  induction a as [|c a IH].
  - rewrite sapp_nil_l. unfold nl. rewrite sapp_cons, sapp_nil_l, Split_nl_cons.
    by rewrite decide_True.
  - rewrite sapp_cons, !Split_nl_cons, IH. case_decide; [done|].
    apply cons_head_app, Split_nl_nonempty.
Qed.

Lemma Join_cons (e : string) (rest : list string) (sep : string) :
  rest ≠ [] → Join (e :: rest) sep = e +:+ sep +:+ Join rest sep.
Proof. by destruct rest. Qed.

Lemma Join_cons_head (c : ascii) (l : list string) (sep : string) :
  l ≠ [] → Join (cons_head c l) sep = String c (Join l sep).
Proof.
  destruct l as [|e rest]; [done|]. intros _. cbn [cons_head].
  destruct rest as [|e' rest]; [done|].
  by rewrite (Join_cons (String c e)), (Join_cons e), sapp_cons.
Qed.

(** Cutting a text into lines and joining them again gives the text. *)
Lemma Join_Split_nl (s : string) : Join (Split s nl) nl = s.
Proof.
  induction s as [|c s IH]; [done|]. rewrite Split_nl_cons. case_decide as Hc.
  - rewrite Join_cons by apply Split_nl_nonempty. rewrite IH, sapp_nil_l. by subst.
  - rewrite Join_cons_head by apply Split_nl_nonempty. by rewrite IH.
Qed.

Lemma Contains_nl_nil : Contains "" nl = false.
Proof. reflexivity. Qed.

Lemma Contains_nl_cons (c : ascii) (s : string) :
  Contains (String c s) nl = bool_decide (c = "010"%char) || Contains s nl.
Proof.
  rewrite Contains_unfold. unfold nl at 1. cbn [HasPrefix].
  case_decide; [rewrite bool_decide_true, HasPrefix_nil by done|rewrite bool_decide_false by done];
    done.
Qed.

Lemma Contains_nl_app (a b : string) :
  Contains (a +:+ b) nl = Contains a nl || Contains b nl.
Proof.
  induction a as [|c a IH]; [by rewrite sapp_nil_l|].
  by rewrite sapp_cons, !Contains_nl_cons, IH, orb_assoc.
Qed.

Lemma Split_nl_single (s : string) : Contains s nl = false → Split s nl = [s].
Proof.
  induction s as [|c s IH]; [done|]. rewrite Contains_nl_cons, Split_nl_cons.
  intros [Hc Hs]%orb_false_iff. apply bool_decide_eq_false in Hc.
  by rewrite decide_False, IH.
Qed.

Lemma Split_nl_lines (s l : string) : l ∈ Split s nl → Contains l nl = false.
Proof.
  revert l. induction s as [|c s IH]; intros l.
  - by intros ->%list_elem_of_singleton.
  - rewrite Split_nl_cons. case_decide as Hc.
    + intros [->|Hl]%elem_of_cons; [done|by apply IH].
    + destruct (Split s nl) as [|l0 rest] eqn:E; cbn [cons_head].
      * intros ->%list_elem_of_singleton. by rewrite Contains_nl_cons, bool_decide_false.
      * intros [->|Hl]%elem_of_cons.
        -- rewrite Contains_nl_cons, bool_decide_false by done. apply IH. by left.
        -- apply IH. by right.
Qed.

(** ** Texts of white space only *)

Lemma String_drop_app (n : nat) (s t : string) :
  n ≤ String.length s → String_drop n (s +:+ t) = String_drop n s +:+ t.
Proof.
  revert s. induction n as [|n IH]; intros [|c s] Hn; simpl in *; try done; try lia.
  apply IH. lia.
Qed.

Lemma spaceWidth_le back (s : string) : spaceWidth back s ≤ String.length s.
Proof.
  destruct s as [|c0 [|c1 [|c2 s]]]; simpl; repeat case_match; simpl; lia.
Qed.

Lemma spaceWidth_app_eq back (s t : string) :
  spaceWidth back s ≠ 0 → spaceWidth back (s +:+ t) = spaceWidth back s.
Proof.
  destruct s as [|c0 [|c1 [|c2 s]]]; rewrite ?sapp_cons; simpl;
    repeat case_match; try done.
Qed.

(** White space in front of a text is trimmed with it. *)
Lemma trimSpaceFront_app_spaces back (x y : string) :
  trimSpaceFront back x = "" →
  trimSpaceFront back (x +:+ y) = trimSpaceFront back y.
Proof.
  induction x as [x H0|x Hn IH] using (trimSpaceFront_ind back).
  - rewrite (trimSpaceFront_fixed back x H0). intros ->. by rewrite sapp_nil_l.
  - rewrite (trimSpaceFront_unfold back x), decide_False by done. intros Hx.
    rewrite (trimSpaceFront_unfold back (x +:+ y)).
    rewrite spaceWidth_app_eq by done. rewrite decide_False by done.
    rewrite String_drop_app by apply spaceWidth_le. by apply IH.
Qed.

(** In front of an ASCII byte, a text is trimmed away only when it is
    white space itself. *)
Lemma trimSpaceFront_app_ascii (x : string) (c : ascii) (y : string) :
  byte_lt c RuneSelf = true →
  trimSpaceFront false (x +:+ String c y) = ""
  ↔ trimSpaceFront false x = "" ∧ trimSpaceFront false (String c y) = "".
Proof.
  intros Hc. induction x as [x H0|x Hn IH] using (trimSpaceFront_ind false).
  - rewrite (trimSpaceFront_fixed false x H0). destruct x as [|a x].
    + by rewrite sapp_nil_l; split; [|intros [_ ?]].
    + rewrite (trimSpaceFront_fixed false (String a x +:+ String c y))
        by by apply spaceWidth_app_ascii.
      rewrite sapp_cons. by split; [|intros [? _]].
  - rewrite (trimSpaceFront_unfold false x), decide_False by done.
    rewrite (trimSpaceFront_unfold false (x +:+ _)).
    rewrite spaceWidth_app_eq by done. rewrite decide_False by done.
    rewrite String_drop_app by apply spaceWidth_le. apply IH.
Qed.

Lemma trimSpaceFront_Join (lines : list string) :
  trimSpaceFront false (Join lines nl) = ""
  ↔ Forall (λ l, trimSpaceFront false l = "") lines.
Proof.
  induction lines as [|l rest IH]; [by split|].
  destruct rest as [|l' rest].
  - cbn [Join]. split; [by constructor|by intros ?%Forall_inv].
  - rewrite Join_cons by done. unfold nl at 1. rewrite sapp_cons, sapp_nil_l.
    rewrite trimSpaceFront_app_ascii by done.
    cbn [trimSpaceFront asciiSpace]. change (asciiSpace "010") with true. cbv iota.
    rewrite IH. split; [intros [? ?]; by constructor|].
    intros H. split; [by apply Forall_inv in H|by apply Forall_inv_tail in H].
Qed.

Lemma asciiSpace_high (c : ascii) : byte_lt c RuneSelf = false → asciiSpace c = false.
Proof.
  unfold asciiSpace, byte_in, byte_is, byte_lt, RuneSelf. intros H%N.ltb_ge.
  apply orb_false_iff. split.
  - apply andb_false_iff. right. apply N.leb_gt. lia.
  - apply N.eqb_neq. lia.
Qed.

Lemma space3_not_space2 c0 c1 c2 x : space3 c0 c1 c2 = true → space2 c0 x = false.
Proof.
  unfold space3, space2, byte_in, byte_is. intros H.
  apply andb_false_iff. left. apply N.eqb_neq.
  repeat match goal with
         | H : _ || _ = true |- _ => apply orb_true_iff in H as [H|H]
         | H : _ && _ = true |- _ => apply andb_true_iff in H as [? ?]
         | H : (_ =? _)%N = true |- _ => apply N.eqb_eq in H
         | H : (_ <=? _)%N = true |- _ => apply N.leb_le in H
         end; lia.
Qed.

(** One white-space rune read back to front is white space read front
    to back. *)
Lemma trimSpaceFront_rev_rune (r : string) :
  spaceWidth true r ≠ 0 →
  trimSpaceFront false (String.rev (String_take (spaceWidth true r) r)) = "".
Proof.
  destruct r as [|c0 r]; [done|]. cbn [spaceWidth].
  destruct (asciiSpace c0) eqn:E0.
  { intros _. cbn [String_take].
    change (String.rev (String c0 "")) with (String c0 "").
    cbn [trimSpaceFront]. by rewrite E0. }
  destruct r as [|c1 r]; [done|].
  destruct (space2 c1 c0) eqn:E2.
  { intros _. cbn [String_take].
    change (String.rev (String c0 (String c1 ""))) with (String c1 (String c0 "")).
    cbn [trimSpaceFront].
    destruct (space2_high _ _ E2) as [H1 _].
    by rewrite (asciiSpace_high c1 H1), E2. }
  destruct r as [|c2 r]; [done|].
  destruct (space3 c2 c1 c0) eqn:E3; [|done].
  intros _. cbn [String_take].
  change (String.rev (String c0 (String c1 (String c2 ""))))
    with (String c2 (String c1 (String c0 ""))).
  cbn [trimSpaceFront].
  destruct (space3_high _ _ _ E3) as (H2 & _ & _).
  by rewrite (asciiSpace_high c2 H2), (space3_not_space2 _ _ _ c1 E3), E3.
Qed.

Lemma trimSpaceFront_rev (r : string) :
  trimSpaceFront true r = "" → trimSpaceFront false (String.rev r) = "".
Proof.
  induction r as [r H0|r Hn IH] using (trimSpaceFront_ind true).
  - rewrite (trimSpaceFront_fixed true r H0). by intros ->.
  - rewrite (trimSpaceFront_unfold true r), decide_False by done. intros Hr.
    rewrite <-(take_drop (spaceWidth true r) r) at 1. rewrite rev_app_distr.
    rewrite trimSpaceFront_app_spaces by by apply IH.
    by apply trimSpaceFront_rev_rune.
Qed.

(** A text trims to nothing exactly when trimming its front leaves
    nothing. *)
Lemma TrimSpace_empty_iff (s : string) :
  TrimSpace s = "" ↔ trimSpaceFront false s = "".
Proof.
  unfold TrimSpace. split.
  - intros H. apply (f_equal String.rev) in H. rewrite rev_involutive in H.
    change (String.rev "") with "" in H. apply trimSpaceFront_rev in H.
    rewrite rev_involutive in H.
    by rewrite (trimSpaceFront_fixed false _ (trimSpaceFront_stable false s)) in H.
  - by intros ->.
Qed.

(** A text is white space exactly when each of its lines is. *)
Lemma TrimSpace_empty_lines (s : string) :
  TrimSpace s = "" ↔ Forall (λ l, TrimSpace l = "") (Split s nl).
Proof.
  rewrite TrimSpace_empty_iff. rewrite <-(Join_Split_nl s) at 1.
  rewrite trimSpaceFront_Join. apply Forall_iff. intros l.
  by rewrite TrimSpace_empty_iff.
Qed.

Lemma blank_take_spaceWidth back (s : string) :
  blank (String_take (spaceWidth back s) s) = true.
Proof.
  unfold blank.
  destruct s as [|c0 [|c1 [|c2 s]]]; simpl; repeat case_match; simpl; try done;
    repeat match goal with
           | H : asciiSpace _ = true |- _ => unfold blankByte; rewrite H; clear H
           | H : space2 _ _ = true |- _ => apply space2_blank in H as [-> ->]
           | H : space3 _ _ _ = true |- _ => apply space3_blank in H as (-> & -> & ->)
           end; simpl; try done.
Qed.

Lemma trimSpaceFront_suffix_blank back (s : string) :
  ∃ w, s = w +:+ trimSpaceFront back s ∧ blank w = true.
Proof.
  induction s as [s H0|s Hn (w & IH & Hw)] using (trimSpaceFront_ind back);
    rewrite trimSpaceFront_unfold; case_decide; try done.
  - by exists "".
  - exists (String_take (spaceWidth back s) s +:+ w). split.
    + by rewrite sapp_assoc, <-IH, take_drop.
    + unfold blank in *. rewrite forallb_app, Hw, andb_true_r.
      apply blank_take_spaceWidth.
Qed.

(** What [TrimSpace] removes at either end is made of white-space
    bytes and bytes of multi-byte runes. *)
Lemma TrimSpace_decompose (s : string) :
  ∃ w1 w2, s = w1 +:+ TrimSpace s +:+ w2 ∧ blank w1 = true ∧ blank w2 = true.
Proof.
  destruct (trimSpaceFront_suffix_blank false s) as (w1 & H1 & Hw1).
  destruct (trimSpaceFront_suffix_blank true (String.rev (trimSpaceFront false s)))
    as (w2 & H2 & Hw2).
  exists w1, (String.rev w2). split_and!; [|done|].
  - rewrite H1 at 1. f_equal. unfold TrimSpace. rewrite <-rev_app_distr, <-H2.
    by rewrite rev_involutive.
  - unfold blank. by rewrite forallb_rev.
Qed.

Lemma TrimSpace_start (s : string) : spaceWidth false (TrimSpace s) = 0.
Proof.
  destruct (decide (spaceWidth false (TrimSpace s) = 0)) as [|Hne]; [done|].
  unfold TrimSpace in *.
  destruct (trimSpaceFront_suffix true (String.rev (trimSpaceFront false s))) as [w Hw].
  apply (spaceWidth_app _ (String.rev w)) in Hne.
  rewrite <-rev_app_distr, <-Hw, rev_involutive in Hne.
  by rewrite trimSpaceFront_stable in Hne.
Qed.

Lemma TrimSpace_no_nl (s : string) :
  Contains s nl = false → Contains (TrimSpace s) nl = false.
Proof.
  destruct (TrimSpace_decompose s) as (w1 & w2 & Hs & _). rewrite Hs at 1.
  rewrite !Contains_nl_app. by intros [_ [? _]%orb_false_iff]%orb_false_iff.
Qed.

(** ** Normalised values *)

Lemma normalizeValue_fold (lines acc : list string) :
  fold_left (λ parts l,
               let trimmed := TrimSpace l in
               if decide (trimmed = "") then parts else parts ++ [trimmed])
            lines acc
  = acc ++ filter (λ t, t ≠ "") (TrimSpace <$> lines).
Proof.
  revert acc. induction lines as [|l lines IH]; intros acc.
  - by rewrite app_nil_r.
  - cbn [fold_left fmap list_fmap]. rewrite IH, filter_cons. cbv zeta.
    case_decide as Hl.
    + by rewrite decide_False by (by intros ?).
    + rewrite decide_True by done. by rewrite <-app_assoc.
Qed.

Lemma normalizeValue_parts (text : string) :
  normalizeValue text
  = Join (filter (λ t, t ≠ "") (TrimSpace <$> Split text nl)) " ".
Proof. unfold normalizeValue. cbv zeta. by rewrite normalizeValue_fold. Qed.

Lemma Join_nonempty (parts : list string) (sep : string) :
  parts ≠ [] → Forall (λ p, p ≠ "") parts → Join parts sep ≠ "".
Proof.
  destruct parts as [|p rest]; [done|]. intros _ [Hp _]%Forall_cons.
  destruct rest; [done|]. rewrite Join_cons by done.
  destruct p; [done|]. by rewrite sapp_cons.
Qed.

Lemma Join_no_nl (parts : list string) :
  Forall (λ p, Contains p nl = false) parts → Contains (Join parts " ") nl = false.
Proof.
  induction 1 as [|p rest Hp _ IH]; [done|].
  destruct rest; [done|]. rewrite Join_cons by done.
  by rewrite !Contains_nl_app, Hp, IH.
Qed.

Lemma Join_start (parts : list string) :
  Forall (λ p, p ≠ "" ∧ spaceWidth false p = 0) parts →
  spaceWidth false (Join parts " ") = 0.
Proof.
  destruct 1 as [|p rest [Hp H0] _]; [done|].
  destruct rest; [done|]. rewrite Join_cons by done.
  by apply spaceWidth_app_ascii.
Qed.

Lemma Join_end (parts : list string) :
  Forall (λ p, p ≠ "" ∧ spaceWidth true (String.rev p) = 0) parts →
  spaceWidth true (String.rev (Join parts " ")) = 0.
Proof.
  induction 1 as [|p rest [Hp H0] Hrest IH]; [done|].
  destruct rest as [|q rest]; [done|]. rewrite Join_cons by done.
  rewrite !rev_app_distr. change (String.rev " ") with " ".
  rewrite sapp_assoc, sapp_cons, sapp_nil_l.
  apply spaceWidth_app_ascii; [done| |done].
  apply rev_nonempty, Join_nonempty; [done|].
  eapply Forall_impl; [exact Hrest|]. by intros ? [? _].
Qed.

Lemma normalizeValue_no_nl (text : string) : Contains (normalizeValue text) nl = false.
Proof.
  rewrite normalizeValue_parts. apply Join_no_nl, Forall_forall.
  intros p [_ (l & -> & Hl)%list_elem_of_fmap]%list_elem_of_filter.
  by apply TrimSpace_no_nl, (Split_nl_lines text).
Qed.

Lemma normalizeValue_trimmed (text : string) :
  TrimSpace (normalizeValue text) = normalizeValue text.
Proof.
  rewrite normalizeValue_parts. apply TrimSpace_fixed.
  - apply Join_start, Forall_forall.
    intros p [Hp (l & -> & Hl)%list_elem_of_fmap]%list_elem_of_filter.
    split; [done|apply TrimSpace_start].
  - apply Join_end, Forall_forall.
    intros p [Hp (l & -> & Hl)%list_elem_of_fmap]%list_elem_of_filter.
    split; [done|apply TrimSpace_end].
Qed.

Lemma normalizeValue_single_line (text : string) :
  Contains text nl = false → normalizeValue text = TrimSpace text.
Proof.
  intros Hnl. rewrite normalizeValue_parts, (Split_nl_single text Hnl).
  cbn [fmap list_fmap]. rewrite filter_cons, filter_nil.
  case_decide as Ht; [done|]. by rewrite Ht.
Qed.

Lemma normalizeValue_empty (text : string) :
  normalizeValue text = "" ↔ TrimSpace text = "".
Proof.
  rewrite normalizeValue_parts, TrimSpace_empty_lines. split.
  - intros Hjoin. apply Forall_forall. intros l Hl.
    destruct (decide (TrimSpace l = "")) as [|Hne]; [done|]. exfalso.
    revert Hjoin. apply Join_nonempty.
    + intros Hnil. assert (TrimSpace l ∈ filter (λ t, t ≠ "") (TrimSpace <$> Split text nl)) as Hin
        by (apply list_elem_of_filter; split; [done|by apply list_elem_of_fmap_2]).
      rewrite Hnil in Hin. by apply elem_of_nil in Hin.
    + apply Forall_forall. by intros p [? _]%list_elem_of_filter.
  - intros Hall.
    destruct (filter (λ t, t ≠ "") (TrimSpace <$> Split text nl)) as [|p ps] eqn:E; [done|].
    assert (p ∈ filter (λ t, t ≠ "") (TrimSpace <$> Split text nl)) as Hp
      by (rewrite E; left).
    apply list_elem_of_filter in Hp as [Hp (l & -> & Hl)%list_elem_of_fmap].
    rewrite Forall_forall in Hall. by destruct Hp; apply Hall.
Qed.

(** [normalizeValue] returns a normal form: one line, trimmed, and
    left unchanged by a second pass; a text of one line is just
    trimmed. *)
Theorem normalizeValue_normal_form (text : string) :
  Contains (normalizeValue text) nl = false
  ∧ TrimSpace (normalizeValue text) = normalizeValue text
  ∧ normalizeValue (normalizeValue text) = normalizeValue text
  ∧ (Contains text nl = false → normalizeValue text = TrimSpace text).
Proof.
  split_and!.
  - apply normalizeValue_no_nl.
  - apply normalizeValue_trimmed.
  - rewrite (normalizeValue_single_line (normalizeValue text))
      by apply normalizeValue_no_nl.
    apply normalizeValue_trimmed.
  - apply normalizeValue_single_line.
Qed.

(** [normalizeValue] returns the empty string exactly on the texts that
    are white space only. *)
Theorem normalizeValue_empty_iff (text : string) :
  normalizeValue text = "" ↔ TrimSpace text = "".
Proof. apply normalizeValue_empty. Qed.

(** ** The mapper over lists of chunks *)

Section MapperLists.
Context `{ext : Externals}.

Lemma mapChunk_fields chunk cand :
  mapChunk chunk = Some cand →
  TargetField cand ∈ (targetField <$> schemaFieldRules)
  ∧ Value cand = normalizeValue (Text chunk)
  ∧ SourceRef cand = SourceID chunk +:+ " / " +:+ SectionPath chunk
  ∧ CandidateConfidence cand = (mappingConfidence * Confidence chunk)%float.
Proof.
  intros (pre & rule & post & Htable & _ & _ & ->)%mapChunk_rules_Some.
  cbn [TargetField Value SourceRef CandidateConfidence]. split; [|done].
  rewrite Htable, fmap_app, fmap_cons. apply elem_of_app. right. left.
Qed.

Lemma Map_elem chunks cand :
  cand ∈ Map chunks ↔ ∃ c, c ∈ chunks ∧ mapChunk c = Some cand.
Proof. rewrite Map_omap. apply list_elem_of_omap. Qed.

(** [Map] works chunk by chunk: it distributes over concatenation,
    keeps the order of the chunks, and every candidate carries the
    normalised text and the reference of its own chunk. *)
Theorem Map_app_sublist (chunks1 chunks2 : list EvidenceChunk) :
  Map (chunks1 ++ chunks2) = Map chunks1 ++ Map chunks2
  ∧ (λ cand, (Value cand, SourceRef cand)) <$> Map chunks1
      `sublist_of` (λ c, (normalizeValue (Text c),
                          SourceID c +:+ " / " +:+ SectionPath c)) <$> chunks1
  ∧ length (Map chunks1) ≤ length chunks1.
Proof.
  rewrite !Map_omap. split_and!.
  - apply omap_app.
  - induction chunks1 as [|c chunks1 IH]; [done|]. cbn [omap list_omap fmap list_fmap].
    destruct (mapChunk c) as [cand|] eqn:Hc.
    + apply mapChunk_fields in Hc as (_ & Hv & Hs & _). cbn [fmap list_fmap].
      rewrite Hv, Hs. by apply sublist_skip.
    + by apply sublist_cons.
  - induction chunks1 as [|c chunks1 IH]; [done|]. cbn [omap list_omap].
    destruct (mapChunk c); simpl; lia.
Qed.

End MapperLists.

(** ** Where chunks come from *)

Section ChunkOrigins.
Context `{ext : Externals}.

Lemma section_chunks_shape source heading body c :
  c ∈ section_chunks source heading body →
  SourceID c = ID source
  ∧ SectionPath c = (if decide (heading = "") then "preamble" else heading).
Proof.
  unfold section_chunks. case_decide; [by intros ?%elem_of_nil|].
  by intros ->%list_elem_of_singleton.
Qed.

Lemma section_chunks_length source heading body :
  length (section_chunks source heading body) ≤ 1.
Proof. unfold section_chunks. case_decide; simpl; lia. Qed.

Lemma headings_count (body0 : list string) (secs : list (string * list string)) :
  well_sectioned body0 secs →
  length (filter (λ l, isHeading l = true) (section_lines body0 secs)) = length secs.
Proof.
  intros [Hb Hs]. unfold section_lines. rewrite filter_app, length_app.
  assert (∀ body, Forall (λ l, isHeading l = false) body →
                  filter (λ l, isHeading l = true) body = []) as Hnone.
  { induction 1 as [|l body Hl _ IH]; [done|].
    rewrite filter_cons, decide_False by congruence. done. }
  rewrite (Hnone body0 Hb). simpl.
  induction Hs as [|[h b] secs [Hh Hbody] _ IH]; [done|].
  cbn [flat_map fst snd] in *. rewrite <-app_comm_cons, filter_cons, decide_True by done.
  rewrite filter_app, (Hnone b Hbody). simpl. by rewrite IH.
Qed.

Lemma flat_map_length_le {A B} (f : A → list B) (l : list A) :
  (∀ a, length (f a) ≤ 1) → length (flat_map f l) ≤ length l.
Proof.
  intros Hf. induction l as [|a l IH]; [done|]. simpl. rewrite length_app.
  specialize (Hf a). lia.
Qed.

(** The chunks of the Markdown parser carry the source's ID and a
    section path that is never empty: [preamble], or the text of one of
    the document's heading lines.  There is at most one chunk more than
    there are heading lines. *)
Theorem MarkdownParser_section_paths (source : EvidenceSource) :
  ∃ chunks,
    MarkdownParser_Parse source = inr chunks
    ∧ (∀ c, c ∈ chunks →
         SourceID c = ID source
         ∧ SectionPath c ≠ ""
         ∧ (SectionPath c = "preamble"
            ∨ ∃ line, line ∈ Split (Content source) nl
                      ∧ isHeading line = true
                      ∧ SectionPath c = headingText line))
    ∧ length chunks
      ≤ 1 + length (filter (λ l, isHeading l = true) (Split (Content source) nl)).
Proof.
  destruct (sections_exist (Split (Content source) nl)) as (body0 & secs & Hs & Hw).
  rewrite (MarkdownParser_Parse_sections source body0 secs Hw Hs).
  eexists. split; [reflexivity|]. split.
  - intros c [Hc|Hc]%elem_of_app.
    + apply section_chunks_shape in Hc as [-> ->]. rewrite decide_True by done.
      split_and!; [done..|by left].
    + apply list_elem_of_In, in_flat_map in Hc as ([h b] & Hsec & Hc).
      apply list_elem_of_In in Hc, Hsec. cbn [fst snd] in Hc.
      apply section_chunks_shape in Hc as [-> ->]. split; [done|].
      case_decide as Hh; [split; [done|by left]|]. split; [done|]. right.
      pose proof (proj2 Hw) as Hsecs. rewrite Forall_forall in Hsecs.
      exists h. split_and!; [|by destruct (Hsecs _ Hsec)|done].
      rewrite Hs. unfold section_lines. apply elem_of_app. right.
      apply list_elem_of_In, in_flat_map. exists (h, b).
      split; [by apply list_elem_of_In|by left].
  - rewrite Hs, (headings_count body0 secs Hw), length_app.
    pose proof (section_chunks_length source "" body0).
    pose proof (flat_map_length_le
                  (λ sec, section_chunks source (headingText (fst sec)) (snd sec)) secs
                  (λ sec, section_chunks_length source _ _)).
    lia.
Qed.

Lemma MarkdownParser_chunks_source source chunks c :
  MarkdownParser_Parse source = inr chunks → c ∈ chunks → SourceID c = ID source.
Proof.
  destruct (sections_exist (Split (Content source) nl)) as (body0 & secs & Hs & Hw).
  rewrite (MarkdownParser_Parse_sections source body0 secs Hw Hs).
  intros [= <-] [Hc|Hc]%elem_of_app.
  - by apply section_chunks_shape in Hc as [? _].
  - apply list_elem_of_In, in_flat_map in Hc as (sec & _ & Hc).
    apply list_elem_of_In in Hc. by apply section_chunks_shape in Hc as [? _].
Qed.

Lemma YAMLParser_chunks_source ρ source chunks c :
  YAMLParser_Parse ρ source = inr chunks → c ∈ chunks → SourceID c = ID source.
Proof.
  unfold YAMLParser_Parse. destruct (yamlUnmarshalMap (Content source)); [done|].
  intros [= <-]. rewrite yaml_fold. simpl.
  by intros ([k v] & -> & _)%list_elem_of_fmap.
Qed.

(** The chunk of one security key. *)
Lemma spec_fold_omap spec sourceID resourceRef keys acc :
  fold_left (spec_key spec sourceID resourceRef) keys acc
  = acc ++ omap (λ key, spec_key spec sourceID resourceRef [] key !! 0) keys.
Proof.
  revert acc. induction keys as [|key keys IH]; intros acc.
  - by rewrite app_nil_r.
  - cbn [fold_left omap list_omap]. rewrite IH. unfold spec_key at 1 3.
    destruct (spec !! key); [|done]. by rewrite <-app_assoc.
Qed.

Lemma spec_chunks_paths spec sourceID resourceRef keys :
  SectionPath <$> fold_left (spec_key spec sourceID resourceRef) keys []
  = (λ key, resourceRef +:+ " / spec." +:+ key)
      <$> filter (λ key, is_Some (spec !! key)) keys.
Proof.
  rewrite spec_fold_omap. simpl.
  induction keys as [|key keys IH]; [done|]. cbn [omap list_omap].
  rewrite filter_cons. unfold spec_key at 1. destruct (spec !! key) as [val|] eqn:E.
  - rewrite decide_True by done. cbn. by rewrite IH.
  - rewrite decide_False by (by intros [? ?]). done.
Qed.

Lemma spec_chunks_source spec sourceID resourceRef keys acc c :
  c ∈ fold_left (spec_key spec sourceID resourceRef) keys acc →
  c ∈ acc ∨ SourceID c = sourceID.
Proof.
  revert acc. induction keys as [|key keys IH]; intros acc; simpl; [by left|].
  intros Hc. apply IH in Hc as [Hc|Hc]; [|by right].
  unfold spec_key in Hc. destruct (spec !! key) as [val|]; [|by left].
  apply elem_of_app in Hc as [Hc|Hc]; [by left|right].
  by apply list_elem_of_singleton in Hc as ->.
Qed.

Lemma parseDocument_paths (content sourceID : string) (i : nat)
    (manifest : kubeManifest Any) :
  yamlUnmarshalManifest content = inr manifest →
  let resourceRef :=
    match Metadata manifest ≫= (λ m, m !! "name") with
    | Some name => Kind manifest +:+ "/" +:+ formatAny name
                     +:+ " (doc " +:+ formatInt i +:+ ")"
    | None => Kind manifest +:+ "/" +:+ APIVersion manifest
    end in
  ∃ chunks,
    parseDocument content sourceID i = inr chunks
    ∧ SectionPath <$> chunks
      = (if decide (Kind manifest ≠ "") then [resourceRef +:+ " / identity"] else [])
          ++ ((λ key, resourceRef +:+ " / spec." +:+ key)
                <$> filter (λ key, is_Some (default ∅ (Spec manifest) !! key)) securityKeys)
    ∧ (∀ c, c ∈ chunks → SourceID c = sourceID)
    ∧ length chunks ≤ 1 + length securityKeys.
Proof.
  intros Hdec resourceRef. unfold parseDocument. rewrite Hdec. fold resourceRef.
  eexists. split; [reflexivity|].
  set (identity := if decide (Kind manifest ≠ "") then _ else _).
  assert (SectionPath <$> identity
          = if decide (Kind manifest ≠ "") then [resourceRef +:+ " / identity"] else [])
    as Hid by (unfold identity; by case_decide).
  assert (∀ c, c ∈ identity → SourceID c = sourceID) as Hsrc.
  { unfold identity. case_decide; [|by intros c ?%elem_of_nil].
    by intros c ->%list_elem_of_singleton. }
  assert (length identity ≤ 1) as Hlen by (unfold identity; case_decide; simpl; lia).
  destruct (Spec manifest) as [spec|]; cbn [default].
  - split_and!.
    + unfold extractSpecChunks. by rewrite fmap_app, Hid, spec_chunks_paths.
    + intros c [Hc|Hc]%elem_of_app; [by apply Hsrc|].
      by apply spec_chunks_source in Hc as [?%elem_of_nil|?].
    + rewrite length_app. unfold extractSpecChunks.
      rewrite <-(length_fmap SectionPath (fold_left _ _ _)), spec_chunks_paths, length_fmap.
      pose proof (length_filter (λ key, is_Some (spec !! key)) securityKeys). lia.
  - split_and!.
    + rewrite Hid. rewrite <-(app_nil_r (if decide _ then _ else _)) at 1. by f_equal.
    + intros c Hc. by apply Hsrc.
    + lia.
Qed.
(** A manifest yields exactly these chunks, in this order: the identity
    chunk when it has a kind, then one chunk for each security key that
    its spec holds, in the order of the key list; other keys of the spec
    yield nothing.  Every chunk carries the given source ID. *)
Theorem parseDocument_section_paths (content sourceID : string) (i : nat)
    (manifest : kubeManifest Any) :
  yamlUnmarshalManifest content = inr manifest →
  let resourceRef :=
    match Metadata manifest ≫= (λ m, m !! "name") with
    | Some name => Kind manifest +:+ "/" +:+ formatAny name
                     +:+ " (doc " +:+ formatInt i +:+ ")"
    | None => Kind manifest +:+ "/" +:+ APIVersion manifest
    end in
  ∃ chunks,
    parseDocument content sourceID i = inr chunks
    ∧ SectionPath <$> chunks
      = (if decide (Kind manifest ≠ "") then [resourceRef +:+ " / identity"] else [])
          ++ ((λ key, resourceRef +:+ " / spec." +:+ key)
                <$> filter (λ key, is_Some (default ∅ (Spec manifest) !! key)) securityKeys)
    ∧ (∀ c, c ∈ chunks → SourceID c = sourceID)
    ∧ length chunks ≤ 1 + length securityKeys.
Proof. apply parseDocument_paths. Qed.

Lemma concat_imap_length {A B} (f : nat → A → list B) (l : list A) (n : nat) :
  (∀ i x, length (f i x) ≤ n) → length (concat (imap f l)) ≤ n * length l.
Proof.
  revert f. induction l as [|x l IH]; intros f Hf; [simpl; lia|].
  cbn [imap concat length]. rewrite length_app.
  specialize (IH (f ∘ S) (λ i, Hf (S i))). specialize (Hf 0 x). lia.
Qed.

Lemma document_chunks_inv source i doc :
  length (document_chunks source i doc) ≤ 1 + length securityKeys
  ∧ ∀ c, c ∈ document_chunks source i doc → SourceID c = ID source.
Proof.
  unfold document_chunks. case_decide.
  { split; [simpl; lia|by intros c ?%elem_of_nil]. }
  destruct (yamlUnmarshalManifest (TrimSpace doc)) as [err|manifest] eqn:Hdec.
  - unfold parseDocument. rewrite Hdec. split; [simpl; lia|by intros c ?%elem_of_nil].
  - destruct (parseDocument_paths _ (ID source) i _ Hdec) as (chunks & -> & _ & Hsrc & Hlen).
    done.
Qed.

Lemma KubernetesParser_chunks_source source chunks c :
  KubernetesParser_Parse source = inr chunks → c ∈ chunks → SourceID c = ID source.
Proof.
  rewrite KubernetesParser_Parse_concat. intros [= <-] Hc.
  apply list_elem_of_In, in_concat in Hc as (cs & Hcs & Hc).
  apply list_elem_of_In in Hc, Hcs.
  apply elem_of_lookup_imap in Hcs as (i & doc & -> & _).
  by apply (document_chunks_inv source i doc).
Qed.

(** The manifest parser returns at most twelve chunks for each piece of
    its input, the identity chunk and one for each security key, and
    every chunk carries the source's ID. *)
Theorem KubernetesParser_chunk_bound (source : EvidenceSource) :
  ∃ chunks,
    KubernetesParser_Parse source = inr chunks
    ∧ length chunks ≤ 12 * length (Split (Content source) (nl +:+ "---"))
    ∧ ∀ c, c ∈ chunks → SourceID c = ID source.
Proof.
  eexists. split; [apply KubernetesParser_Parse_concat|]. split.
  - apply concat_imap_length. intros i doc.
    by destruct (document_chunks_inv source i doc) as [? _].
  - intros c Hc. eapply KubernetesParser_chunks_source; [|exact Hc].
    apply KubernetesParser_Parse_concat.
Qed.

Lemma repo_chunks_source ρ parser source chunks c :
  parser ∈ repoParsers → Parse parser ρ source = inr chunks → c ∈ chunks →
  SourceID c = ID source ∧ TrimSpace (Text c) ≠ ""
  ∧ (Confidence c = 0.85%float ∧ parser = MarkdownParser
     ∨ Confidence c = 0.80%float ∧ parser = YAMLParser
     ∨ (Confidence c = 0.90%float ∨ Confidence c = 0.88%float) ∧ parser = KubernetesParser).
Proof.
  intros Hp Hparse Hc. unfold repoParsers in Hp.
  apply elem_of_cons in Hp as [->|Hp]; [|apply elem_of_cons in Hp as [->|Hp]];
    [| |apply list_elem_of_singleton in Hp as ->].
  - destruct (KubernetesParser_chunks_inv _ _ _ Hparse Hc) as (_ & ? & ?).
    split_and!; [exact (KubernetesParser_chunks_source source chunks c Hparse Hc)|done|auto].
  - destruct (MarkdownParser_chunks_inv _ _ _ Hparse Hc) as (? & Ht & ?).
    split_and!; [exact (MarkdownParser_chunks_source source chunks c Hparse Hc)
                |by rewrite Ht|auto].
  - destruct (YAMLParser_chunks_inv _ _ _ _ Hparse Hc) as (_ & ? & ?).
    split_and!; [exact (YAMLParser_chunks_source ρ source chunks c Hparse Hc)|done|auto].
Qed.

Lemma targetFields_nonempty : Forall (λ f, f ≠ "") (targetField <$> schemaFieldRules).
Proof. unfold schemaFieldRules. cbn. repeat (constructor; [done|]). constructor. Qed.

Lemma repo_candidate ρ parser source chunks cand :
  parser ∈ repoParsers → Parse parser ρ source = inr chunks → cand ∈ Map chunks →
  ∃ c, c ∈ chunks
       ∧ TargetField cand ∈ (targetField <$> schemaFieldRules)
       ∧ TargetField cand ≠ ""
       ∧ Value cand ≠ ""
       ∧ SourceRef cand = ID source +:+ " / " +:+ SectionPath c
       ∧ (CandidateConfidence cand = (0.75 * 0.85)%float ∧ parser = MarkdownParser
          ∨ CandidateConfidence cand = (0.75 * 0.80)%float ∧ parser = YAMLParser
          ∨ (CandidateConfidence cand = (0.75 * 0.90)%float
             ∨ CandidateConfidence cand = (0.75 * 0.88)%float) ∧ parser = KubernetesParser).
Proof.
  intros Hp Hparse (c & Hc & Hmap)%Map_elem.
  apply mapChunk_fields in Hmap as (Hfield & Hvalue & Href & Hconf).
  destruct (repo_chunks_source ρ parser source chunks c Hp Hparse Hc) as (Hid & Htext & Hc').
  exists c. split_and!.
  - done.
  - done.
  - pose proof targetFields_nonempty as Hall. rewrite Forall_forall in Hall. by apply Hall.
  - rewrite Hvalue. by rewrite normalizeValue_empty.
  - by rewrite Href, Hid.
  - rewrite Hconf. unfold mappingConfidence.
    destruct Hc' as [[-> ->] | [[-> ->] | [[-> | ->] ->]]]; auto.
Qed.

Lemma confidence_range (x : float) :
  x = (0.75 * 0.85)%float ∨ x = (0.75 * 0.80)%float
  ∨ x = (0.75 * 0.90)%float ∨ x = (0.75 * 0.88)%float →
  (0.6 <=? x)%float = true ∧ (x <? 0.7)%float = true.
Proof. by intros [-> | [-> | [-> | ->]]]. Qed.


(** The confidence of a candidate is fixed by the parser that produced
    its chunk: 0.75 times 0.85 for Markdown, times 0.80 for YAML, times
    0.90 or 0.88 for a manifest.  Each of these products is at least 0.6
    and below 0.7. *)
Theorem candidate_confidence_by_parser (ρ : MapRange) (parser : EvidenceParser)
    (source : EvidenceSource) (chunks : list EvidenceChunk) (cand : SchemaCandidate) :
  parser ∈ repoParsers → Parse parser ρ source = inr chunks → cand ∈ Map chunks →
  (CandidateConfidence cand = (0.75 * 0.85)%float ∧ parser = MarkdownParser
   ∨ CandidateConfidence cand = (0.75 * 0.80)%float ∧ parser = YAMLParser
   ∨ (CandidateConfidence cand = (0.75 * 0.90)%float
      ∨ CandidateConfidence cand = (0.75 * 0.88)%float) ∧ parser = KubernetesParser)
  ∧ (0.6 <=? CandidateConfidence cand)%float = true
  ∧ (CandidateConfidence cand <? 0.7)%float = true.
Proof.
  intros Hp Hparse Hcand.
  destruct (repo_candidate ρ parser source chunks cand Hp Hparse Hcand)
    as (c & _ & _ & _ & _ & _ & Hconf).
  split; [done|]. apply confidence_range. tauto.
Qed.

End ChunkOrigins.

(** The section paths of a named pod with a service account, as the
    fourth document of a stream. *)
Lemma parseDocument_section_paths_witness :
  ∃ chunks,
    @parseDocument Flat.codec Examples.pod "stack.yaml" 3 = inr chunks
    ∧ SectionPath <$> chunks
      = ["Pod/builder (doc 3) / identity";
         "Pod/builder (doc 3) / spec.serviceAccountName"]
    ∧ ∀ c, c ∈ chunks → SourceID c = "stack.yaml".
Proof.
  destruct (@parseDocument_section_paths Flat.codec Examples.pod "stack.yaml" 3
              {| APIVersion := "v1"; Kind := "Pod";
                 Metadata := Some {[ "name" := "builder" ]};
                 Spec := Some {[ "serviceAccountName" := "builder" ]} |})
    as (chunks & Hparse & Hpaths & Hsrc & _).
  - vm_compute. reflexivity.
  - exists chunks. split; [exact Hparse|]. split; [|exact Hsrc].
    rewrite Hpaths. vm_compute. reflexivity.
Defined.


(** The confidence of a candidate of the YAML parser. *)
Lemma candidate_confidence_by_parser_witness :
  let chunks := [ {| Text := "version: v2"; SourceID := "policy.yaml";
                     SectionPath := "version"; Confidence := 0.80 |};
                  {| Text := "title: Access Policy"; SourceID := "policy.yaml";
                     SectionPath := "title"; Confidence := 0.80 |} ] in
  let cand := {| TargetField := "metadata.title"; Value := "title: Access Policy";
                 SourceRef := "policy.yaml / title";
                 CandidateConfidence := (0.75 * 0.80)%float |} in
  @YAMLParser Flat.codec ∈ repoParsers
  ∧ Parse (@YAMLParser Flat.codec) Flat.ascending Examples.policy = inr chunks
  ∧ cand ∈ @Map Flat.codec chunks
  ∧ (0.6 <=? CandidateConfidence cand)%float = true
  ∧ (CandidateConfidence cand <? 0.7)%float = true.
Proof.
  intros chunks cand.
  assert (@YAMLParser Flat.codec ∈ repoParsers) as Hp by (right; right; left).
  assert (Parse (@YAMLParser Flat.codec) Flat.ascending Examples.policy = inr chunks) as Hparse
    by (vm_compute; reflexivity).
  assert (cand ∈ @Map Flat.codec chunks) as Hcand by (vm_compute; right; left).
  split; [exact Hp|]. split; [exact Hparse|]. split; [exact Hcand|].
  exact (proj2 (@candidate_confidence_by_parser Flat.codec Flat.ascending _
                  Examples.policy chunks cand Hp Hparse Hcand)).
Defined.

(** ** Runs of the pipeline *)

Section PipelineRuns.
Context `{ext : Externals}.

Lemma RunWithMeta_inl ρ ps source e :
  RunWithMeta ρ (NewPipeline ps) source = inl e →
  (e = errUnsupported source ∧ ∀ q, q ∈ ps → CanHandle q source = false)
  ∨ (∃ parser err,
       selectParser (NewPipeline ps) source = inr parser
       ∧ Parse parser ρ source = inl err
       ∧ e = Errorf_w ("parser " +:+ Quote (Name parser) +:+ " failed: ") err).
Proof.
  unfold RunWithMeta.
  destruct (selectParser (NewPipeline ps) source) as [err|parser] eqn:Hsel.
  - intros [= <-]. left. by apply selectParser_loop_inl.
  - destruct (Parse parser ρ source) as [err|chunks] eqn:Hparse; [|done].
    intros [= <-]. right. by exists parser, err.
Qed.

Lemma RunWithMeta_inr ρ ps source r :
  RunWithMeta ρ (NewPipeline ps) source = inr r →
  ∃ parser chunks,
    selectParser (NewPipeline ps) source = inr parser
    ∧ parser ∈ ps
    ∧ Parse parser ρ source = inr chunks
    ∧ r = {| Candidates := Map chunks;
             ParserUsed := Name parser;
             ChunkCount := length chunks |}.
Proof.
  unfold RunWithMeta.
  destruct (selectParser (NewPipeline ps) source) as [err|parser] eqn:Hsel; [done|].
  destruct (Parse parser ρ source) as [err|chunks] eqn:Hparse; [done|].
  intros [= <-]. exists parser, chunks. split_and!; try done.
  destruct (selectParser_loop_inr ps parser source Hsel) as (pre & post & -> & _).
  set_solver.
Qed.

Lemma Quote_yaml : Quote "yaml" = dquote +:+ "yaml" +:+ dquote.
Proof. reflexivity. Qed.

(** A pipeline over the repository's parsers fails in two ways only: no
    parser accepts the source, or the YAML parser was selected and the
    content did not decode.  In the second case the decoder's error is
    wrapped twice, and its message follows the two prefixes. *)
Theorem repo_pipeline_failures (ρ : MapRange) (ps : list EvidenceParser)
    (source : EvidenceSource) (e : error) :
  (∀ parser, parser ∈ ps → parser ∈ repoParsers) →
  RunWithMeta ρ (NewPipeline ps) source = inl e →
  (e = errUnsupported source
   ∧ Unwrap e = None
   ∧ ∀ q, q ∈ ps → CanHandle q source = false)
  ∨ (∃ err,
       yamlUnmarshalMap (Content source) = inl err
       ∧ selectParser (NewPipeline ps) source = inr YAMLParser
       ∧ Error e = "parser " +:+ dquote +:+ "yaml" +:+ dquote
                     +:+ " failed: failed to unmarshal YAML/JSON: " +:+ Error err
       ∧ Unwrap e ≫= Unwrap = Some err).
Proof.
  intros Hps [[-> Hnone]|(parser & err & Hsel & Hparse & ->)]%RunWithMeta_inl.
  { by left. }
  right.
  destruct (selectParser_loop_inr ps parser source Hsel) as (pre & post & Heq & _ & _).
  assert (parser ∈ repoParsers) as Hp by (apply Hps; rewrite Heq; set_solver).
  unfold repoParsers in Hp.
  apply elem_of_cons in Hp as [->|Hp]; [|apply elem_of_cons in Hp as [->|Hp]];
    [| |apply list_elem_of_singleton in Hp as ->].
  - by cbn in Hparse.
  - by cbn in Hparse.
  - cbn [Parse YAMLParser] in Hparse. unfold YAMLParser_Parse in Hparse.
    destruct (yamlUnmarshalMap (Content source)) as [derr|doc]; [|done].
    injection Hparse as <-. exists derr. split_and!; [done..| |done].
    cbn [Name YAMLParser Errorf_w Error]. rewrite Quote_yaml.
    by rewrite !sapp_assoc.
Qed.

(** What a run reports: there are never more candidates than chunks,
    the parser used is one of the registered parsers, and [Run] returns
    the candidates or the error of [RunWithMeta]. *)
Theorem RunWithMeta_counts (ρ : MapRange) (ps : list EvidenceParser)
    (source : EvidenceSource) :
  (∀ r, RunWithMeta ρ (NewPipeline ps) source = inr r →
        length (Candidates r) ≤ ChunkCount r
        ∧ (ChunkCount r = 0 → Candidates r = [])
        ∧ ParserUsed r ∈ RegisteredParsers (NewPipeline ps)
        ∧ Run ρ (NewPipeline ps) source = inr (Candidates r))
  ∧ (∀ e, RunWithMeta ρ (NewPipeline ps) source = inl e
          ↔ Run ρ (NewPipeline ps) source = inl e)
  ∧ length (RegisteredParsers (NewPipeline ps)) = length ps.
Proof.
  split_and!.
  - intros r Hr. pose proof Hr as (parser & chunks & _ & Hp & _ & ->)%RunWithMeta_inr.
    cbn [Candidates ChunkCount ParserUsed].
    assert (length (Map chunks) ≤ length chunks) as Hlen.
    { rewrite Map_omap. clear. induction chunks as [|c chunks IH]; [done|].
      cbn [omap list_omap]. destruct (mapChunk c); simpl; lia. }
    split_and!.
    + done.
    + intros H0. apply nil_length_inv. lia.
    + unfold RegisteredParsers. cbn [parsers NewPipeline]. by apply list_elem_of_fmap_2.
    + unfold Run. by rewrite Hr.
  - intros e. unfold Run.
    destruct (RunWithMeta ρ (NewPipeline ps) source); [|done].
    split; by intros [= ->].
  - unfold RegisteredParsers. by rewrite length_fmap.
Qed.

End PipelineRuns.

(** A YAML sequence sent with the hint [yaml]: the decoder's error is
    wrapped twice. *)
Lemma repo_pipeline_failures_witness :
  ∃ e err,
    RunWithMeta Flat.ascending (NewPipeline (@repoParsers Flat.codec)) Examples.listYaml = inl e
    ∧ @yamlUnmarshalMap Flat.codec (Content Examples.listYaml) = inl err
    ∧ Error e = "parser " +:+ dquote +:+ "yaml" +:+ dquote
                  +:+ " failed: failed to unmarshal YAML/JSON: " +:+ Error err
    ∧ Unwrap e ≫= Unwrap = Some err.
Proof.
  eexists.
  assert (RunWithMeta Flat.ascending (NewPipeline (@repoParsers Flat.codec)) Examples.listYaml
          = inl (wrapError
                   ("parser " +:+ dquote +:+ "yaml" +:+ dquote
                      +:+ " failed: failed to unmarshal YAML/JSON: "
                      +:+ "yaml: not a flat mapping of plain scalars")
                   (wrapError
                      "failed to unmarshal YAML/JSON: yaml: not a flat mapping of plain scalars"
                      (errorString "yaml: not a flat mapping of plain scalars")))) as Hrun
    by (vm_compute; reflexivity).
  destruct (@repo_pipeline_failures Flat.codec Flat.ascending repoParsers Examples.listYaml _
              (λ parser Hp, Hp) Hrun) as [(Heq & _)|(err & Hdec & _ & Herr & Hun)].
  - discriminate Heq.
  - exists err. split; [exact Hrun|]. split; [exact Hdec|]. split; [exact Herr|exact Hun].
Defined.

(** ** Format hints and content sniffing *)

Lemma N_of_lowerByte (c : ascii) :
  N_of_ascii (lowerByte c)
  = if byte_in 65 90 c then (N_of_ascii c + 32)%N else N_of_ascii c.
Proof.
  unfold lowerByte. destruct (byte_in 65 90 c) eqn:E; [|done].
  unfold byte_in in E. apply andb_true_iff in E as [_ E%N.leb_le].
  apply N_ascii_embedding. lia.
Qed.

Lemma lowerByte_eq (a b : ascii) :
  lowerByte a = lowerByte b ↔ N_of_ascii (lowerByte a) = N_of_ascii (lowerByte b).
Proof.
  split; [by intros ->|]. intros H.
  by rewrite <-(ascii_N_embedding (lowerByte a)), H, ascii_N_embedding.
Qed.

(** The fold test of [strings.EqualFold] on two different ASCII bytes. *)
Lemma fold_bytes (sr tr : ascii) :
  tr ≠ sr →
  (let lo := N.min (N_of_ascii sr) (N_of_ascii tr) in
   let hi := N.max (N_of_ascii sr) (N_of_ascii tr) in
   (65 <=? lo)%N && (lo <=? 90)%N && (hi =? lo + 32)%N) = true
  ↔ lowerByte sr = lowerByte tr.
Proof.
  intros Hne. cbv zeta. rewrite lowerByte_eq, !N_of_lowerByte. unfold byte_in.
  assert (N_of_ascii sr ≠ N_of_ascii tr) as Hn.
  { intros H. apply Hne. by rewrite <-(ascii_N_embedding tr), <-H, ascii_N_embedding. }
  rewrite !andb_true_iff, !N.leb_le, N.eqb_eq.
  destruct (65 <=? N_of_ascii sr)%N eqn:E1, (N_of_ascii sr <=? 90)%N eqn:E2,
           (65 <=? N_of_ascii tr)%N eqn:E3, (N_of_ascii tr <=? 90)%N eqn:E4;
    cbn [andb];
    repeat match goal with
           | H : (_ <=? _)%N = true |- _ => apply N.leb_le in H
           | H : (_ <=? _)%N = false |- _ => apply N.leb_gt in H
           end; lia.
Qed.

Lemma equalFold_ASCII (fold : string → string → bool) (s t : string) :
  isASCII s = true → isASCII t = true →
  equalFold fold s t = bool_decide (String_map lowerByte s = String_map lowerByte t).
Proof.
  revert t. induction s as [|sr s IH]; intros [|tr t]; try done.
  unfold isASCII. cbn [String_forallb equalFold String_map].
  intros [Hsr Hs]%andb_true_iff [Htr Ht]%andb_true_iff. rewrite Hsr, Htr. cbn [andb negb].
  specialize (IH t Hs Ht). destruct (decide (tr = sr)) as [->|Heq].
  - rewrite IH. apply bool_decide_ext. split; [by intros ->|by intros [= ->]].
  - destruct ((65 <=? N.min (N_of_ascii sr) (N_of_ascii tr))%N
              && (N.min (N_of_ascii sr) (N_of_ascii tr) <=? 90)%N
              && (N.max (N_of_ascii sr) (N_of_ascii tr)
                  =? N.min (N_of_ascii sr) (N_of_ascii tr) + 32)%N) eqn:E.
    + apply (fold_bytes sr tr Heq) in E. rewrite IH, E. apply bool_decide_ext.
      split; [by intros ->|by intros [= ->]].
    + symmetry. apply bool_decide_eq_false. intros [= Hb _].
      apply (fold_bytes sr tr Heq) in Hb. cbv zeta in Hb. congruence.
Qed.

Lemma Contains_blank (s : string) (c : ascii) (n : string) :
  blank s = true → blankByte c = false → Contains s (String c n) = false.
Proof.
  intros Hs Hc. induction s as [|a s IH]; [done|].
  unfold blank in Hs. cbn [String_forallb] in Hs. apply andb_true_iff in Hs as [Ha Hs].
  rewrite Contains_unfold. cbn [HasPrefix]. rewrite decide_False by congruence.
  by apply IH.
Qed.

Lemma TrimSpace_empty_blank (s : string) : TrimSpace s = "" → blank s = true.
Proof. intros H. by rewrite <-blank_TrimSpace, H. Qed.

Section Hints.
Context `{ext : Externals}.

Lemma ToLower_ASCII (s : string) : isASCII s = true → ToLower s = String_map lowerByte s.
Proof. unfold ToLower. by intros ->. Qed.

Lemma EqualFold_ASCII (s name : string) :
  isASCII s = true → isASCII name = true → String_map lowerByte name = name →
  EqualFold s name = bool_decide (ToLower s = name).
Proof.
  intros Hs Hn Hl. unfold EqualFold. rewrite (equalFold_ASCII _ s name Hs Hn).
  by rewrite ToLower_ASCII, Hl.
Qed.

Lemma MarkdownParser_hint (source : EvidenceSource) :
  isASCII (Format source) = true →
  EqualFold (Format source) "markdown" || EqualFold (Format source) "md"
  = bool_decide (ToLower (Format source) ∈ ["markdown"; "md"]).
Proof.
  intros Hf. rewrite !EqualFold_ASCII by done.
  destruct (decide (ToLower (Format source) = "markdown")) as [->|H1]; [done|].
  destruct (decide (ToLower (Format source) = "md")) as [->|H2]; [done|].
  rewrite !bool_decide_false; [done| |done..].
  by intros [?|[?|?%elem_of_nil]%elem_of_cons]%elem_of_cons.
Qed.

(** Format hints are matched without regard to letter case.  For an
    ASCII hint, each parser accepts a source whose lower-cased hint is
    one of its names, whatever the content; and when the content is
    white space only, it accepts no other source, so that a pipeline of
    these parsers refuses the source as unsupported. *)
Theorem format_hints (source : EvidenceSource) :
  isASCII (Format source) = true →
  let hint := ToLower (Format source) in
  (hint ∈ ["markdown"; "md"] → CanHandle MarkdownParser source = true)
  ∧ (hint ∈ ["yaml"; "yml"; "json"] → CanHandle YAMLParser source = true)
  ∧ (hint ∈ ["kubernetes"; "k8s"] → CanHandle KubernetesParser source = true)
  ∧ (TrimSpace (Content source) = "" →
       CanHandle MarkdownParser source = bool_decide (hint ∈ ["markdown"; "md"])
       ∧ CanHandle YAMLParser source = bool_decide (hint ∈ ["yaml"; "yml"; "json"])
       ∧ CanHandle KubernetesParser source = bool_decide (hint ∈ ["kubernetes"; "k8s"])
       ∧ (hint ∉ ["markdown"; "md"; "yaml"; "yml"; "json"; "kubernetes"; "k8s"] →
          ∀ ρ ps, (∀ parser, parser ∈ ps → parser ∈ repoParsers) →
                  RunWithMeta ρ (NewPipeline ps) source = inl (errUnsupported source))).
Proof.
  intros Hf hint.
  assert (CanHandle MarkdownParser source
          = bool_decide (hint ∈ ["markdown"; "md"])
            || (HasPrefix (TrimSpace (Content source)) "#"
                || Contains (TrimSpace (Content source)) (nl +:+ "#"))) as Hmd.
  { cbn [CanHandle MarkdownParser]. unfold MarkdownParser_CanHandle.
    rewrite MarkdownParser_hint by done. fold hint. by case_bool_decide. }
  assert (∀ names : list string, hint ∈ names → bool_decide (hint ∈ names) = true) as Htrue
    by (intros; by apply bool_decide_eq_true_2).
  assert (CanHandle KubernetesParser source
          = bool_decide (hint ∈ ["kubernetes"; "k8s"])
            || (Contains (Content source) "apiVersion:" && Contains (Content source) "kind:"))
    as Hk8s.
  { cbn [CanHandle KubernetesParser]. unfold KubernetesParser_CanHandle. fold hint.
    destruct (decide (hint = "kubernetes" ∨ hint = "k8s")) as [Hh|Hh].
    - rewrite bool_decide_true; [done|]. solve_names.
    - rewrite bool_decide_false; [done|]. solve_names. }
  split_and!.
  - intros Hin. by rewrite Hmd, Htrue.
  - intros Hin. cbn [CanHandle YAMLParser]. unfold YAMLParser_CanHandle. fold hint.
    rewrite decide_True; [done|]. solve_names.
  - intros Hin. by rewrite Hk8s, Htrue.
  - intros Hblank.
    assert (CanHandle MarkdownParser source = bool_decide (hint ∈ ["markdown"; "md"])) as Hmd'.
    { rewrite Hmd, Hblank. cbn. by rewrite orb_false_r. }
    assert (CanHandle YAMLParser source = bool_decide (hint ∈ ["yaml"; "yml"; "json"])) as Hyaml'.
    { cbn [CanHandle YAMLParser]. unfold YAMLParser_CanHandle. fold hint.
      rewrite Hblank. destruct (decide (hint = "yaml" ∨ hint = "yml" ∨ hint = "json")) as [Hh|Hh].
      - rewrite bool_decide_true; [done|]. solve_names.
      - rewrite bool_decide_false; [done|]. solve_names. }
    assert (CanHandle KubernetesParser source = bool_decide (hint ∈ ["kubernetes"; "k8s"]))
      as Hk8s'.
    { rewrite Hk8s, (Contains_blank (Content source) "a" "piVersion:");
        [by rewrite orb_false_r|by apply TrimSpace_empty_blank|done]. }
    split_and!; [done..|].
    intros Hno ρ ps Hps. unfold RunWithMeta, selectParser. cbn [parsers NewPipeline].
    rewrite selectParser_loop_none; [done|].
    intros q Hq. apply Hps in Hq. unfold repoParsers in Hq.
    apply elem_of_cons in Hq as [->|Hq]; [|apply elem_of_cons in Hq as [->|Hq]];
      [| |apply list_elem_of_singleton in Hq as ->].
    + rewrite Hk8s'. apply bool_decide_eq_false. solve_names.
    + rewrite Hmd'. apply bool_decide_eq_false. solve_names.
    + rewrite Hyaml'. apply bool_decide_eq_false. solve_names.
Qed.

End Hints.

(** White space with the hint [PDF] is refused as unsupported. *)
Lemma format_hints_witness :
  isASCII (Format Examples.blankPdf) = true
  ∧ TrimSpace (Content Examples.blankPdf) = ""
  ∧ @ToLower Flat.codec (Format Examples.blankPdf) = "pdf"
  ∧ RunWithMeta Flat.ascending (NewPipeline (@repoParsers Flat.codec)) Examples.blankPdf
    = inl (@errUnsupported Flat.codec Examples.blankPdf).
Proof.
  split; [reflexivity|]. split; [vm_compute; reflexivity|]. split; [reflexivity|].
  destruct (@format_hints Flat.codec Examples.blankPdf eq_refl) as (_ & _ & _ & Hblank).
  assert (TrimSpace (Content Examples.blankPdf) = "") as Htrim by (vm_compute; reflexivity).
  destruct (Hblank Htrim) as (_ & _ & _ & Hno).
  apply Hno.
  - apply (bool_decide_unpack _). vm_compute. exact I.
  - intros parser Hp. exact Hp.
Defined.

(** A needle made of ASCII bytes other than white space. *)
Lemma HasPrefix_blank_suffix (x w n : string) :
  blank w = true → String_forallb (λ c, negb (blankByte c)) n = true →
  HasPrefix (x +:+ w) n = HasPrefix x n.
Proof.
  intros Hw. revert n. induction x as [|a x IH]; intros [|c n] Hn;
    rewrite ?HasPrefix_nil; try done.
  - rewrite sapp_nil_l. cbn [String_forallb] in Hn.
    apply andb_true_iff in Hn as [Hc%negb_true_iff _].
    destruct w as [|d w]; [done|]. unfold blank in Hw. cbn [String_forallb] in Hw.
    apply andb_true_iff in Hw as [Hd _]. cbn [HasPrefix].
    by rewrite decide_False by congruence.
  - rewrite sapp_cons. cbn [HasPrefix]. cbn [String_forallb] in Hn.
    apply andb_true_iff in Hn as [_ Hn]. case_decide; [by apply IH|done].
Qed.

Lemma Contains_blank_suffix (x w n : string) :
  blank w = true → String_forallb (λ c, negb (blankByte c)) n = true → n ≠ "" →
  Contains (x +:+ w) n = Contains x n.
Proof.
  intros Hw Hn Hne. induction x as [|a x IH].
  - rewrite sapp_nil_l. destruct n as [|c n]; [done|]. cbn [String_forallb] in Hn.
    apply andb_true_iff in Hn as [Hc%negb_true_iff _].
    by rewrite Contains_blank.
  - rewrite sapp_cons, (Contains_unfold (String a (x +:+ w))), (Contains_unfold (String a x)).
    rewrite IH. f_equal. rewrite <-sapp_cons. by apply HasPrefix_blank_suffix.
Qed.

Lemma Contains_blank_prefix (w x n : string) :
  blank w = true → String_forallb (λ c, negb (blankByte c)) n = true → n ≠ "" →
  Contains (w +:+ x) n = Contains x n.
Proof.
  intros Hw Hn Hne. destruct n as [|c n]; [done|]. cbn [String_forallb] in Hn.
  apply andb_true_iff in Hn as [Hc%negb_true_iff _].
  induction w as [|a w IH]; [by rewrite sapp_nil_l|].
  unfold blank in Hw. cbn [String_forallb] in Hw. apply andb_true_iff in Hw as [Ha Hw].
  rewrite sapp_cons, Contains_unfold. cbn [HasPrefix].
  rewrite decide_False by congruence. by apply IH.
Qed.

(** Trimming a text neither adds nor removes an occurrence of such a
    needle. *)
Lemma Contains_TrimSpace (s n : string) :
  String_forallb (λ c, negb (blankByte c)) n = true → n ≠ "" →
  Contains (TrimSpace s) n = Contains s n.
Proof.
  intros Hn Hne. destruct (TrimSpace_decompose s) as (w1 & w2 & Hs & Hw1 & Hw2).
  rewrite Hs at 2. by rewrite Contains_blank_prefix, Contains_blank_suffix.
Qed.

Section Sniffing.
Context `{ext : Externals}.

(** White space around the content never changes which parser is
    selected: each of the repository's parsers accepts a source exactly
    when it accepts the source with its content trimmed. *)
Theorem selectParser_ignores_outer_white_space (ps : list EvidenceParser)
    (source : EvidenceSource) :
  (∀ parser, parser ∈ ps → parser ∈ repoParsers) →
  let trimmed := {| Content := TrimSpace (Content source);
                    Format := Format source;
                    ID := ID source |} in
  (∀ parser, parser ∈ ps → CanHandle parser trimmed = CanHandle parser source)
  ∧ selectParser (NewPipeline ps) trimmed = selectParser (NewPipeline ps) source.
Proof.
  intros Hps trimmed.
  assert (∀ parser, parser ∈ repoParsers →
                    CanHandle parser trimmed = CanHandle parser source) as Hsame.
  { intros parser Hp. unfold repoParsers in Hp.
    apply elem_of_cons in Hp as [->|Hp]; [|apply elem_of_cons in Hp as [->|Hp]];
      [| |apply list_elem_of_singleton in Hp as ->].
    - cbn [CanHandle KubernetesParser]. unfold KubernetesParser_CanHandle.
      cbn [Content Format trimmed]. by rewrite !Contains_TrimSpace.
    - cbn [CanHandle MarkdownParser]. unfold MarkdownParser_CanHandle.
      cbn [Content Format trimmed]. by rewrite TrimSpace_idempotent.
    - cbn [CanHandle YAMLParser]. unfold YAMLParser_CanHandle.
      cbn [Content Format trimmed]. by rewrite TrimSpace_idempotent. }
  split; [intros parser Hp; by apply Hsame, Hps|].
  unfold selectParser. cbn [parsers NewPipeline].
  induction ps as [|q ps IH]; [done|]. cbn [selectParser_loop].
  rewrite Hsame by (apply Hps; left).
  destruct (CanHandle q source); [done|]. apply IH. intros parser Hp. apply Hps. by right.
Qed.

(** Content that begins, after trimming, with a heading mark or with
    [FROM] is left to other parsers by the YAML parser unless the hint
    names it.  Content that begins with a heading mark is accepted by
    the Markdown parser, which a pipeline in the repository's order
    then uses, and without failure, unless the manifest parser claims
    the source first. *)
Theorem heading_content_routing (source : EvidenceSource) :
  let content := TrimSpace (Content source) in
  HasPrefix content "#" = true ∨ HasPrefix content "FROM" = true →
  (CanHandle YAMLParser source = true
   ↔ ToLower (Format source) ∈ ["yaml"; "yml"; "json"])
  ∧ (HasPrefix content "#" = true →
       CanHandle MarkdownParser source = true
       ∧ (CanHandle KubernetesParser source = false →
          ∀ ρ, ∃ chunks,
            MarkdownParser_Parse source = inr chunks
            ∧ RunWithMeta ρ (NewPipeline repoParsers) source
              = inr {| Candidates := Map chunks;
                       ParserUsed := "markdown";
                       ChunkCount := length chunks |})).
Proof.
  intros content Hstart. split.
  - cbn [CanHandle YAMLParser]. unfold YAMLParser_CanHandle. fold content.
    destruct (decide (ToLower (Format source) = "yaml" ∨ ToLower (Format source) = "yml"
                      ∨ ToLower (Format source) = "json")) as [Hh|Hh].
    { split; [intros _|done]. solve_names. }
    assert (HasPrefix content "{" = false) as ->.
    { destruct content as [|c rest]; [done|]. cbn [HasPrefix] in *.
      destruct Hstart as [H|H]; case_decide; subst; done. }
    assert (negb (HasPrefix content "#") && negb (HasPrefix content "FROM") = false) as ->.
    { destruct Hstart as [-> | ->]; [done|by rewrite andb_false_r]. }
    split; [by destruct (_ && _)|]. intros Hin. solve_names.
  - intros Hhead.
    assert (CanHandle MarkdownParser source = true) as Hmd.
    { cbn [CanHandle MarkdownParser]. unfold MarkdownParser_CanHandle. fold content.
      rewrite Hhead. by destruct (_ || _). }
    split; [done|]. intros Hk8s ρ. eexists. split; [reflexivity|].
    unfold RunWithMeta, selectParser, repoParsers. cbn [parsers NewPipeline selectParser_loop].
    by rewrite Hk8s, Hmd.
Qed.

End Sniffing.

(** A padded document selects the parser of its trimmed content. *)
Lemma selectParser_ignores_outer_white_space_witness :
  TrimSpace (Content Examples.padded) = "# Title" +:+ nl +:+ "text"
  ∧ selectParser (NewPipeline (@repoParsers Flat.codec))
      {| Content := TrimSpace (Content Examples.padded); Format := ""; ID := "padded.md" |}
    = selectParser (NewPipeline (@repoParsers Flat.codec)) Examples.padded.
Proof.
  split; [vm_compute; reflexivity|].
  exact (proj2 (@selectParser_ignores_outer_white_space Flat.codec repoParsers Examples.padded
                  (λ parser Hp, Hp))).
Defined.

(** A document that begins with a heading, sent with the hint [yaml],
    is parsed as Markdown. *)
Lemma heading_content_routing_witness :
  HasPrefix (TrimSpace (Content Examples.headingAsYaml)) "#" = true
  ∧ CanHandle (@YAMLParser Flat.codec) Examples.headingAsYaml = true
  ∧ CanHandle (@KubernetesParser Flat.codec) Examples.headingAsYaml = false
  ∧ ∃ chunks,
      MarkdownParser_Parse Examples.headingAsYaml = inr chunks
      ∧ RunWithMeta Flat.ascending (NewPipeline (@repoParsers Flat.codec)) Examples.headingAsYaml
        = inr {| Candidates := @Map Flat.codec chunks;
                 ParserUsed := "markdown";
                 ChunkCount := length chunks |}.
Proof.
  assert (HasPrefix (TrimSpace (Content Examples.headingAsYaml)) "#" = true) as Hhead
    by (vm_compute; reflexivity).
  split; [exact Hhead|].
  destruct (@heading_content_routing Flat.codec Examples.headingAsYaml (or_introl Hhead))
    as [Hyaml Hmd].
  split.
  - apply Hyaml. vm_compute. left.
  - assert (CanHandle (@KubernetesParser Flat.codec) Examples.headingAsYaml = false) as Hk
      by (vm_compute; reflexivity).
    split; [exact Hk|]. destruct (Hmd Hhead) as [_ Hrun]. exact (Hrun Hk Flat.ascending).
Defined.

(** ** Composition of Markdown documents *)

Lemma Split_nl_heading (b : string) :
  HasPrefix b "#" = true →
  ∃ line rest, Split b nl = line :: rest ∧ isHeading line = true.
Proof.
  destruct b as [|c b]; [done|]. cbn [HasPrefix]. case_decide as Hc; [|done]. subst c.
  intros _. rewrite Split_nl_cons, decide_False by done.
  destruct (Split b nl) as [|l0 rest]; cbn [cons_head]; eexists _, _;
    (split; [reflexivity|]); unfold isHeading; cbn [HasPrefix];
    rewrite decide_True by done; rewrite ?HasPrefix_nil; done.
Qed.

(** Appending a document that begins with a heading line appends its
    chunks: the chunks of the first document are not changed, and those
    of the second are what it yields on its own. *)
Theorem MarkdownParser_Parse_app (a b format id : string) :
  HasPrefix b "#" = true →
  ∃ chunksA chunksB,
    MarkdownParser_Parse {| Content := a; Format := format; ID := id |} = inr chunksA
    ∧ MarkdownParser_Parse {| Content := b; Format := format; ID := id |} = inr chunksB
    ∧ MarkdownParser_Parse {| Content := a +:+ nl +:+ b; Format := format; ID := id |}
      = inr (chunksA ++ chunksB).
Proof.
  intros Hb.
  destruct (sections_exist (Split a nl)) as (bodyA & secsA & HsA & HwA).
  destruct (sections_exist (Split b nl)) as (bodyB & secsB & HsB & HwB).
  assert (bodyB = []) as ->.
  { destruct (Split_nl_heading b Hb) as (line & rest & Hsplit & Hline).
    destruct bodyB as [|l bodyB]; [done|]. destruct HwB as [HbodyB _].
    apply Forall_cons in HbodyB as [Hl _]. rewrite Hsplit in HsB.
    unfold section_lines in HsB. injection HsB as -> _. congruence. }
  set (srcA := {| Content := a; Format := format; ID := id |}).
  set (srcB := {| Content := b; Format := format; ID := id |}).
  set (srcAB := {| Content := a +:+ nl +:+ b; Format := format; ID := id |}).
  rewrite (MarkdownParser_Parse_sections srcA bodyA secsA HwA HsA).
  rewrite (MarkdownParser_Parse_sections srcB [] secsB HwB HsB).
  rewrite (MarkdownParser_Parse_sections srcAB bodyA (secsA ++ secsB)).
  - eexists _, _. split; [reflexivity|]. split; [reflexivity|].
    f_equal. rewrite flat_map_app, <-app_assoc. reflexivity.
  - destruct HwA as [? ?], HwB as [_ ?]. split; [done|]. by apply Forall_app.
  - cbn [Content srcAB]. rewrite Split_nl_app, HsA, HsB. unfold section_lines.
    rewrite flat_map_app, <-app_assoc. reflexivity.
Qed.

(** A preamble followed by a section. *)
Lemma MarkdownParser_Parse_app_witness :
  ∃ chunksA chunksB,
    MarkdownParser_Parse
      {| Content := "This is a preamble." +:+ nl; Format := ""; ID := "doc.md" |} = inr chunksA
    ∧ MarkdownParser_Parse
        {| Content := "# First Section" +:+ nl +:+ "Section content.";
           Format := ""; ID := "doc.md" |} = inr chunksB
    ∧ MarkdownParser_Parse Examples.withPreamble = inr (chunksA ++ chunksB).
Proof.
  exact (MarkdownParser_Parse_app ("This is a preamble." +:+ nl)
           ("# First Section" +:+ nl +:+ "Section content.") "" "doc.md" eq_refl).
Defined.

(** ** The handler of parse_governance_document *)

Section ToolFacts.
Context `{ext : Externals}.
Variable dockerfile : EvidenceParser.

Lemma ParseGovernanceDocument_run ρ input :
  Tool.Content input ≠ "" →
  Tool.ParseGovernanceDocument dockerfile ρ input
  = match RunWithMeta ρ (Tool.defaultPipeline dockerfile) (Tool.sourceOf input) with
    | inl err => inl err
    | inr r => inr {| Tool.Candidates := Candidates r;
                      Tool.ParserUsed := ParserUsed r;
                      Tool.TotalChunks := ChunkCount r |}
    end.
Proof.
  intros Hc. unfold Tool.ParseGovernanceDocument. rewrite decide_False by done.
  cbv zeta. fold (Tool.sourceOf input).
  by destruct (RunWithMeta _ _ _) as [|[? ? ?]].
Qed.

(** The manifest parser is registered first: a source with one of its
    hints, or whose content holds both [apiVersion:] and [kind:], is
    parsed by it whatever the other hint or the Dockerfile parser, and
    the handler returns a result. *)
Theorem ParseGovernanceDocument_kubernetes_first (ρ : MapRange)
    (input : Tool.InputParseGovernanceDocument) :
  Tool.Content input ≠ "" →
  ToLower (Tool.Format input) ∈ ["kubernetes"; "k8s"]
  ∨ (Contains (Tool.Content input) "apiVersion:" = true
     ∧ Contains (Tool.Content input) "kind:" = true) →
  ∃ chunks,
    KubernetesParser_Parse (Tool.sourceOf input) = inr chunks
    ∧ Tool.ParseGovernanceDocument dockerfile ρ input
      = inr {| Tool.Candidates := Map chunks;
               Tool.ParserUsed := "kubernetes";
               Tool.TotalChunks := length chunks |}.
Proof.
  intros Hc Hk8s. rewrite ParseGovernanceDocument_run by done.
  assert (CanHandle KubernetesParser (Tool.sourceOf input) = true) as Hcan.
  { cbn [CanHandle KubernetesParser]. unfold KubernetesParser_CanHandle.
    cbn [Format Content Tool.sourceOf].
    destruct (decide (ToLower (Tool.Format input) = "kubernetes"
                      ∨ ToLower (Tool.Format input) = "k8s")) as [|Hh]; [done|].
    destruct Hk8s as [Hin|[-> ->]]; [|done]. destruct Hh. solve_names. }
  eexists. split; [apply KubernetesParser_Parse_concat|].
  unfold RunWithMeta, selectParser, Tool.defaultPipeline.
  cbn [parsers NewPipeline selectParser_loop]. rewrite Hcan.
  change (Parse KubernetesParser ρ (Tool.sourceOf input))
    with (KubernetesParser_Parse (Tool.sourceOf input)).
  by rewrite KubernetesParser_Parse_concat.
Qed.

(** The handler fails in four ways only: the content is empty; no
    parser accepts the source; the Dockerfile parser was selected and
    failed; the YAML parser was selected and the content did not
    decode. *)
Theorem ParseGovernanceDocument_failures (ρ : MapRange)
    (input : Tool.InputParseGovernanceDocument) (e : error) :
  let src := Tool.sourceOf input in
  Tool.ParseGovernanceDocument dockerfile ρ input = inl e ↔
  (Tool.Content input = "" ∧ e = errorString "content is required")
  ∨ (Tool.Content input ≠ ""
     ∧ ((e = errUnsupported src
         ∧ ∀ q, q ∈ [KubernetesParser; dockerfile; MarkdownParser; YAMLParser] →
                CanHandle q src = false)
        ∨ (CanHandle KubernetesParser src = false
           ∧ CanHandle dockerfile src = true
           ∧ ∃ err, Parse dockerfile ρ src = inl err
                    ∧ e = Errorf_w ("parser " +:+ Quote (Name dockerfile) +:+ " failed: ") err)
        ∨ (CanHandle KubernetesParser src = false
           ∧ CanHandle dockerfile src = false
           ∧ CanHandle MarkdownParser src = false
           ∧ CanHandle YAMLParser src = true
           ∧ ∃ err, yamlUnmarshalMap (Tool.Content input) = inl err
                    ∧ e = Errorf_w ("parser " +:+ dquote +:+ "yaml" +:+ dquote +:+ " failed: ")
                            (Errorf_w "failed to unmarshal YAML/JSON: " err)))).
Proof.
  intros src. destruct (decide (Tool.Content input = "")) as [Hc|Hc].
  { unfold Tool.ParseGovernanceDocument. rewrite decide_True by done. split.
    - intros [= <-]. by left.
    - intros [[_ ->]|[? _]]; done. }
  rewrite ParseGovernanceDocument_run by done. fold src.
  unfold RunWithMeta, selectParser, Tool.defaultPipeline.
  cbn [parsers NewPipeline selectParser_loop].
  destruct (CanHandle KubernetesParser src) eqn:Hk.
  { cbn [Parse KubernetesParser]. rewrite KubernetesParser_Parse_concat. split; [done|].
    intros [[? _]|[_ [[_ Hall]|[(? & _)|(? & _)]]]]; try done.
    specialize (Hall KubernetesParser). rewrite Hk in Hall. by discriminate Hall; left. }
  destruct (CanHandle dockerfile src) eqn:Hd.
  { destruct (Parse dockerfile ρ src) as [err|chunks] eqn:Hp.
    - split.
      + intros [= <-]. right. split; [done|]. right. left. split_and!; [done..|].
        by exists err.
      + intros [[? _]|[_ [[_ Hall]|[(_ & _ & err' & [= <-] & ->)|(_ & ? & _)]]]]; try done.
        specialize (Hall dockerfile). rewrite Hd in Hall. discriminate Hall. right. left.
    - split; [done|].
      intros [[? _]|[_ [[_ Hall]|[(_ & _ & err' & ? & _)|(_ & ? & _)]]]]; try done.
      specialize (Hall dockerfile). rewrite Hd in Hall. discriminate Hall. right. left. }
  destruct (CanHandle MarkdownParser src) eqn:Hm.
  { cbn [Parse MarkdownParser]. unfold MarkdownParser_Parse. split; [done|].
    intros [[? _]|[_ [[_ Hall]|[(_ & ? & _)|(_ & _ & ? & _)]]]]; try done.
    specialize (Hall MarkdownParser). rewrite Hm in Hall. discriminate Hall.
    right. right. left. }
  destruct (CanHandle YAMLParser src) eqn:Hy.
  { cbn [Parse YAMLParser Name]. unfold YAMLParser_Parse. cbn [Content src Tool.sourceOf].
    rewrite Quote_yaml.
    destruct (yamlUnmarshalMap (Tool.Content input)) as [err|doc] eqn:Hdec.
    - split.
      + intros [= <-]. right. split; [done|]. right. right. split_and!; [done..|].
        by exists err.
      + intros [[? _]|[_ [[_ Hall]|[(_ & ? & _)|(_ & _ & _ & _ & err' & [= <-] & ->)]]]];
          try done.
        specialize (Hall YAMLParser). rewrite Hy in Hall. discriminate Hall.
        right. right. right. left.
    - split; [done|].
      intros [[? _]|[_ [[_ Hall]|[(_ & ? & _)|(_ & _ & _ & _ & err' & ? & _)]]]]; try done.
      specialize (Hall YAMLParser). rewrite Hy in Hall. discriminate Hall.
      right. right. right. left. }
  split.
  - intros [= <-]. right. split; [done|]. left. split; [done|].
    intros q Hq. rewrite !elem_of_cons, elem_of_nil in Hq.
    destruct Hq as [->|[->|[->|[->|[]]]]]; done.
  - intros [[? _]|[_ [[-> _]|[(_ & ? & _)|(_ & _ & _ & ? & _)]]]]; done.
Qed.

(** When the Dockerfile parser declines the source, a result of the
    handler names one of the three other parsers, holds no more
    candidates than chunks, and each candidate has a target field, a
    value, a source reference that begins with the source ID (or with
    [unknown] when the input has none), and a confidence of at least
    0.6 and below 0.7. *)
Theorem ParseGovernanceDocument_output (ρ : MapRange)
    (input : Tool.InputParseGovernanceDocument)
    (output : Tool.OutputParseGovernanceDocument) :
  CanHandle dockerfile (Tool.sourceOf input) = false →
  Tool.ParseGovernanceDocument dockerfile ρ input = inr output →
  Tool.ParserUsed output ∈ ["kubernetes"; "markdown"; "yaml"]
  ∧ length (Tool.Candidates output) ≤ Tool.TotalChunks output
  ∧ ∀ cand, cand ∈ Tool.Candidates output →
      TargetField cand ≠ ""
      ∧ Value cand ≠ ""
      ∧ HasPrefix (SourceRef cand)
          ((if decide (Tool.SourceID input = "") then "unknown" else Tool.SourceID input)
             +:+ " / ") = true
      ∧ (0.6 <=? CandidateConfidence cand)%float = true
      ∧ (CandidateConfidence cand <? 0.7)%float = true.
Proof.
  intros Hd Hrun.
  assert (Tool.Content input ≠ "") as Hc.
  { intros Hc. unfold Tool.ParseGovernanceDocument in Hrun.
    by rewrite decide_True in Hrun by done. }
  rewrite ParseGovernanceDocument_run in Hrun by done.
  destruct (RunWithMeta ρ (Tool.defaultPipeline dockerfile) (Tool.sourceOf input))
    as [|r] eqn:Hr; [done|]. injection Hrun as <-.
  cbn [Tool.ParserUsed Tool.Candidates Tool.TotalChunks].
  apply RunWithMeta_inr in Hr as (parser & chunks & Hsel & Hin & Hparse & ->).
  cbn [Candidates ParserUsed ChunkCount].
  assert (parser ∈ repoParsers) as Hrepo.
  { destruct (selectParser_loop_inr _ parser _ Hsel) as (_ & _ & _ & _ & Hcan).
    rewrite !elem_of_cons, elem_of_nil in Hin. unfold repoParsers.
    destruct Hin as [->|[->|[->|[->|[]]]]]; [left|congruence|right; left|right; right; left]. }
  split_and!.
  - unfold repoParsers in Hrepo. rewrite !elem_of_cons, elem_of_nil in Hrepo.
    destruct Hrepo as [->|[->|[->|[]]]]; cbn [Name KubernetesParser MarkdownParser YAMLParser];
      solve_names.
  - rewrite Map_omap. clear. induction chunks as [|c chunks IH]; [done|].
    cbn [omap list_omap]. destruct (mapChunk c); simpl; lia.
  - intros cand Hcand.
    destruct (repo_candidate ρ parser _ chunks cand Hrepo Hparse Hcand)
      as (c & _ & _ & ? & ? & Href & Hconf).
    split_and!; [done..| | |].
    + rewrite Href. cbn [ID Tool.sourceOf]. rewrite <-sapp_assoc. apply HasPrefix_app.
    + apply confidence_range. tauto.
    + apply confidence_range. tauto.
Qed.

End ToolFacts.

(** A pod sent with the hint [markdown] is parsed as a manifest. *)
Lemma ParseGovernanceDocument_kubernetes_first_witness :
  ∃ chunks,
    @KubernetesParser_Parse Flat.codec (Tool.sourceOf Examples.podAsMarkdown) = inr chunks
    ∧ Tool.ParseGovernanceDocument Examples.fromParser Flat.ascending Examples.podAsMarkdown
      = inr {| Tool.Candidates := @Map Flat.codec chunks;
               Tool.ParserUsed := "kubernetes";
               Tool.TotalChunks := length chunks |}.
Proof.
  apply (@ParseGovernanceDocument_kubernetes_first Flat.codec Examples.fromParser
           Flat.ascending Examples.podAsMarkdown).
  - vm_compute. discriminate.
  - right. split; vm_compute; reflexivity.
Defined.

(** The policy of the handler's test, sent without a source ID. *)
Lemma ParseGovernanceDocument_output_witness :
  ∃ output,
    CanHandle Examples.fromParser (Tool.sourceOf Examples.policyInput) = false
    ∧ Tool.ParseGovernanceDocument Examples.fromParser Flat.ascending Examples.policyInput
      = inr output
    ∧ Tool.ParserUsed output = "markdown"
    ∧ length (Tool.Candidates output) = 1
    ∧ ∀ cand, cand ∈ Tool.Candidates output →
              Value cand ≠ "" ∧ HasPrefix (SourceRef cand) "unknown / " = true.
Proof.
  eexists.
  assert (CanHandle Examples.fromParser (Tool.sourceOf Examples.policyInput) = false) as Hd
    by (vm_compute; reflexivity).
  assert (Tool.ParseGovernanceDocument Examples.fromParser Flat.ascending Examples.policyInput
          = inr {| Tool.Candidates :=
                     [ {| TargetField := "controls[].objective";
                          Value := "The objective of this policy is to enforce access controls.";
                          SourceRef := "unknown / Policy";
                          CandidateConfidence := (0.75 * 0.85)%float |} ];
                   Tool.ParserUsed := "markdown";
                   Tool.TotalChunks := 1 |}) as Hrun
    by (vm_compute; reflexivity).
  split; [exact Hd|]. split; [exact Hrun|]. split; [reflexivity|]. split; [reflexivity|].
  intros cand Hcand.
  destruct (@ParseGovernanceDocument_output Flat.codec Examples.fromParser Flat.ascending
              Examples.policyInput _ Hd Hrun) as (_ & _ & Hall).
  destruct (Hall cand Hcand) as (_ & Hv & Href & _).
  split; [exact Hv|exact Href].
Defined.

(** ** Documents of one section, and blank documents *)

Lemma HasPrefix_inv (s p : string) : HasPrefix s p = true → ∃ b, s = p +:+ b.
Proof.
  revert s. induction p as [|c p IH]; intros s.
  - intros _. exists s. by rewrite sapp_nil_l.
  - destruct s as [|a s]; [done|]. cbn [HasPrefix]. case_decide as Ha; [|done].
    subst a. intros [b ->]%IH. exists b. by rewrite sapp_cons.
Qed.

Lemma Contains_inv (s n : string) : Contains s n = true → ∃ a b, s = a +:+ n +:+ b.
Proof.
  induction s as [|c s IH]; rewrite Contains_unfold.
  - rewrite orb_false_r. intros [b ->]%HasPrefix_inv. exists "", b. by rewrite sapp_nil_l.
  - intros [[b ->]%HasPrefix_inv|(a & b & ->)%IH]%orb_true_iff.
    + exists "", b. by rewrite sapp_nil_l.
    + exists (String c a), b. by rewrite sapp_cons.
Qed.

Lemma Contains_blank_needle (s n : string) :
  blank s = true → blank n = false → Contains s n = false.
Proof.
  intros Hs Hn. destruct (Contains s n) eqn:E; [|done].
  apply Contains_inv in E as (a & b & ->). unfold blank in *.
  rewrite !forallb_app, Hn in Hs. by rewrite andb_false_r in Hs.
Qed.

Lemma Split_single (s sep : string) : Contains s sep = false → Split s sep = [s].
Proof.
  unfold Split. induction s as [|c s IH]; [done|].
  rewrite Contains_unfold. intros [Hp Hs]%orb_false_iff.
  cbn [split_aux]. rewrite Hp, IH by done. done.
Qed.

Lemma blank_line_no_heading (line : string) : TrimSpace line = "" → isHeading line = false.
Proof.
  intros Hblank. unfold isHeading. destruct (HasPrefix line "#") eqn:E; [|done].
  apply HasPrefix_inv in E as [b ->]. by destruct (TrimSpace_solid "" b "#").
Qed.

Section SmallDocuments.
Context `{ext : Externals}.

Lemma MarkdownParser_body (source : EvidenceSource) :
  Forall (λ line, isHeading line = false) (Split (Content source) nl) →
  MarkdownParser_Parse source
  = inr (if decide (TrimSpace (Content source) = "") then []
         else [ {| Text := TrimSpace (Content source);
                   SourceID := ID source;
                   SectionPath := "preamble";
                   Confidence := 0.85 |} ]).
Proof.
  intros Hlines. unfold MarkdownParser_Parse. cbv zeta.
  rewrite md_body, flush_section_chunks by done.
  cbn [md_chunks currentHeading currentLines app]. unfold section_chunks.
  by rewrite Join_Split_nl.
Qed.

(** A Markdown document without a heading line is one section: the
    parser returns its trimmed content as a single chunk with the
    section path [preamble], and nothing when the content is white
    space only. *)
Theorem MarkdownParser_no_heading (source : EvidenceSource) :
  Forall (λ line, isHeading line = false) (Split (Content source) nl) →
  MarkdownParser_Parse source
  = inr (if decide (TrimSpace (Content source) = "") then []
         else [ {| Text := TrimSpace (Content source);
                   SourceID := ID source;
                   SectionPath := "preamble";
                   Confidence := 0.85 |} ]).
Proof. apply MarkdownParser_body. Qed.

Lemma KubernetesParser_one (source : EvidenceSource) :
  Contains (Content source) (nl +:+ "---") = false →
  KubernetesParser_Parse source = inr (document_chunks source 0 (Content source)).
Proof.
  intros Hsep. rewrite KubernetesParser_Parse_concat, Split_single by done.
  cbn [imap concat]. by rewrite app_nil_r.
Qed.

(** A manifest stream without a separator is one document: the parser
    returns the chunks of that document, with index 0. *)
Theorem KubernetesParser_single_document (source : EvidenceSource) :
  Contains (Content source) (nl +:+ "---") = false →
  KubernetesParser_Parse source = inr (document_chunks source 0 (Content source))
  ∧ (∀ manifest,
       TrimSpace (Content source) ≠ "" →
       yamlUnmarshalManifest (TrimSpace (Content source)) = inr manifest →
       KubernetesParser_Parse source = parseDocument (TrimSpace (Content source)) (ID source) 0).
Proof.
  intros Hsep. split; [by apply KubernetesParser_one|].
  intros manifest Hne Hdec. rewrite KubernetesParser_one by done.
  unfold document_chunks. rewrite decide_False by done.
  unfold parseDocument. by rewrite Hdec.
Qed.

(** Content of white space only yields no chunk and no error from the
    Markdown and manifest parsers, so a run that selects one of them
    reports no chunk and no candidate. *)
Theorem blank_content_no_chunks (source : EvidenceSource) :
  TrimSpace (Content source) = "" →
  MarkdownParser_Parse source = inr []
  ∧ KubernetesParser_Parse source = inr []
  ∧ ∀ ρ ps parser,
      selectParser (NewPipeline ps) source = inr parser →
      parser = MarkdownParser ∨ parser = KubernetesParser →
      RunWithMeta ρ (NewPipeline ps) source
      = inr {| Candidates := []; ParserUsed := Name parser; ChunkCount := 0 |}.
Proof.
  intros Hblank.
  assert (MarkdownParser_Parse source = inr []) as Hmd.
  { rewrite MarkdownParser_body; [by rewrite decide_True|].
    apply TrimSpace_empty_lines in Hblank. eapply Forall_impl; [exact Hblank|].
    intros line. apply blank_line_no_heading. }
  assert (KubernetesParser_Parse source = inr []) as Hk8s.
  { rewrite KubernetesParser_one.
    - unfold document_chunks. by rewrite decide_True.
    - apply Contains_blank_needle; [by apply TrimSpace_empty_blank|done]. }
  split_and!; [done..|].
  intros ρ ps parser Hsel [-> | ->]; unfold RunWithMeta; rewrite Hsel.
  - cbn [Parse MarkdownParser]. by rewrite Hmd.
  - cbn [Parse KubernetesParser]. by rewrite Hk8s.
Qed.

(** Parsers registered later matter only when no earlier one accepts
    the source: a run over two lists of parsers is the run over the
    first list when one of its parsers accepts, and the run over the
    second list otherwise. *)
Theorem RunWithMeta_app (ρ : MapRange) (ps qs : list EvidenceParser)
    (source : EvidenceSource) :
  ((∃ parser, parser ∈ ps ∧ CanHandle parser source = true) →
     RunWithMeta ρ (NewPipeline (ps ++ qs)) source = RunWithMeta ρ (NewPipeline ps) source)
  ∧ ((∀ parser, parser ∈ ps → CanHandle parser source = false) →
       RunWithMeta ρ (NewPipeline (ps ++ qs)) source = RunWithMeta ρ (NewPipeline qs) source).
Proof.
  unfold RunWithMeta, selectParser. cbn [parsers NewPipeline]. split.
  - intros (parser & Hin & Hcan).
    assert (selectParser_loop (ps ++ qs) source = selectParser_loop ps source) as ->; [|done].
    induction ps as [|p ps IH]; [by apply elem_of_nil in Hin|].
    cbn [app selectParser_loop]. destruct (CanHandle p source) eqn:Hp; [done|].
    apply IH. apply elem_of_cons in Hin as [->|Hin]; [congruence|done].
  - intros Hnone.
    assert (selectParser_loop (ps ++ qs) source = selectParser_loop qs source) as ->; [|done].
    induction ps as [|p ps IH]; [done|]. cbn [app selectParser_loop].
    rewrite (Hnone p) by left. apply IH. intros parser Hin. apply Hnone. by right.
Qed.

End SmallDocuments.

(** An indented heading mark starts no section: the padded document
    is one preamble chunk. *)
Lemma MarkdownParser_no_heading_witness :
  Forall (λ line, isHeading line = false) (Split (Content Examples.padded) nl)
  ∧ MarkdownParser_Parse Examples.padded
    = inr [ {| Text := "# Title" +:+ nl +:+ "text"; SourceID := "padded.md";
               SectionPath := "preamble"; Confidence := 0.85 |} ].
Proof.
  assert (Forall (λ line, isHeading line = false) (Split (Content Examples.padded) nl))
    as Hlines by (vm_compute; repeat constructor).
  split; [exact Hlines|].
  rewrite (MarkdownParser_no_heading Examples.padded Hlines). vm_compute. reflexivity.
Defined.

(** A manifest of one line. *)
Lemma KubernetesParser_single_document_witness :
  Contains (Content Examples.bareKind) (nl +:+ "---") = false
  ∧ @KubernetesParser_Parse Flat.codec Examples.bareKind
    = inr [ {| Text := "kind: Pod" +:+ nl +:+ "apiVersion: "; SourceID := "pod.yaml";
               SectionPath := "Pod/ / identity"; Confidence := 0.90 |} ].
Proof.
  assert (Contains (Content Examples.bareKind) (nl +:+ "---") = false) as Hsep
    by (vm_compute; reflexivity).
  split; [exact Hsep|].
  destruct (@KubernetesParser_single_document Flat.codec Examples.bareKind Hsep) as [-> _].
  vm_compute. reflexivity.
Defined.

(** A source of a space and a newline. *)
Lemma blank_content_no_chunks_witness :
  TrimSpace (Content Examples.blankPdf) = ""
  ∧ MarkdownParser_Parse Examples.blankPdf = inr []
  ∧ @KubernetesParser_Parse Flat.codec Examples.blankPdf = inr [].
Proof.
  assert (TrimSpace (Content Examples.blankPdf) = "") as Hblank by (vm_compute; reflexivity).
  split; [exact Hblank|].
  destruct (@blank_content_no_chunks Flat.codec Examples.blankPdf Hblank) as (Hmd & Hk8s & _).
  split; [exact Hmd|exact Hk8s].
Defined.

(** ** Heading lines and sniffing *)

Lemma Join_middle (pre : list string) (l : string) (post : list string) (sep : string) :
  ∃ A B, Join (pre ++ l :: post) sep = A +:+ l +:+ B
         ∧ (A = "" ∨ ∃ A', A = A' +:+ sep).
Proof.
  induction pre as [|p pre (A & B & IH & HA)].
  - exists "". destruct post as [|q post].
    + exists "". split; [by rewrite sapp_nil_l, sapp_nil_r|by left].
    + exists (sep +:+ Join (q :: post) sep). split; [|by left].
      cbn [app]. by rewrite Join_cons, sapp_nil_l.
  - exists (p +:+ sep +:+ A), B. split.
    + cbn [app]. rewrite Join_cons by (by destruct pre). by rewrite IH, !sapp_assoc.
    + right. destruct HA as [->|[A' ->]].
      * exists p. by rewrite sapp_nil_r.
      * exists (p +:+ sep +:+ A'). by rewrite !sapp_assoc.
Qed.

Lemma after_newline_tail (c : ascii) (A : string) :
  (∃ A', String c A = A' +:+ nl) → A = "" ∨ ∃ A', A = A' +:+ nl.
Proof.
  intros [[|a A'] H].
  - rewrite sapp_nil_l in H. injection H as _ <-. by left.
  - rewrite sapp_cons in H. injection H as _ ->. right. by exists A'.
Qed.

(** A heading mark at the start of a line survives the trimming of
    leading white space either at the start of the text or after a
    newline. *)
Lemma heading_after_blank (w X A R : string) :
  blank w = true →
  w +:+ X = A +:+ "#" +:+ R →
  A = "" ∨ (∃ A', A = A' +:+ nl) →
  HasPrefix X "#" = true ∨ Contains X (nl +:+ "#") = true.
Proof.
  revert A. induction w as [|a w IH]; intros A Hw HX HA.
  - rewrite sapp_nil_l in HX. subst X. destruct HA as [->|[A' ->]].
    + left. rewrite sapp_nil_l. apply HasPrefix_app.
    + right. rewrite sapp_assoc, <-(sapp_assoc nl "#" R). apply Contains_middle.
  - unfold blank in Hw. cbn [String_forallb] in Hw. apply andb_true_iff in Hw as [Ha Hw].
    rewrite sapp_cons in HX. destruct A as [|c A].
    + rewrite sapp_nil_l in HX. injection HX as -> _. done.
    + rewrite sapp_cons in HX. injection HX as -> HX.
      destruct HA as [?|HA]; [done|]. apply (IH A Hw HX). by eapply after_newline_tail.
Qed.

Lemma HasPrefix_nl_hash_suffix (x w : string) :
  blank w = true → HasPrefix (x +:+ w) (nl +:+ "#") = HasPrefix x (nl +:+ "#").
Proof.
  intros Hw. change (nl +:+ "#") with (String "010" (String "#" "")).
  assert (∀ v, blank v = true → HasPrefix v "#" = false) as Hhash.
  { intros [|d v]; [done|]. unfold blank. cbn [String_forallb HasPrefix].
    intros [Hd _]%andb_true_iff. rewrite decide_False; [done|]. by intros ->. }
  destruct x as [|a [|b x]].
  - rewrite sapp_nil_l. destruct w as [|d w]; [done|]. cbn [HasPrefix].
    case_decide; [|done]. apply Hhash. unfold blank in *. cbn [String_forallb] in Hw.
    by apply andb_true_iff in Hw as [_ ?].
  - rewrite sapp_cons, sapp_nil_l. cbn [HasPrefix]. case_decide; [by apply Hhash|done].
  - rewrite !sapp_cons. cbn [HasPrefix]. repeat case_decide; rewrite ?HasPrefix_nil; done.
Qed.

Lemma Contains_nl_hash_suffix (x w : string) :
  blank w = true → Contains (x +:+ w) (nl +:+ "#") = Contains x (nl +:+ "#").
Proof.
  intros Hw. induction x as [|a x IH].
  - rewrite sapp_nil_l. by apply Contains_blank_needle.
  - rewrite sapp_cons, (Contains_unfold (String a (x +:+ w))), (Contains_unfold (String a x)).
    rewrite IH. f_equal. rewrite <-sapp_cons. by apply HasPrefix_nl_hash_suffix.
Qed.

Section HeadingLines.
Context `{ext : Externals}.

(** Every document in which the Markdown parser finds a heading line is
    one that it accepts without a hint. *)
Theorem heading_lines_are_sniffed (source : EvidenceSource) (line : string) :
  line ∈ Split (Content source) nl → isHeading line = true →
  CanHandle MarkdownParser source = true.
Proof.
  intros (pre & post & Hsplit)%list_elem_of_split [r ->]%HasPrefix_inv.
  destruct (Join_middle pre ("#" +:+ r) post nl) as (A & B & HJ & HA).
  rewrite <-Hsplit, Join_Split_nl in HJ.
  destruct (TrimSpace_decompose (Content source)) as (w1 & w2 & Hc & Hw1 & Hw2).
  assert (HasPrefix (TrimSpace (Content source) +:+ w2) "#" = true
          ∨ Contains (TrimSpace (Content source) +:+ w2) (nl +:+ "#") = true) as Hfound.
  { apply (heading_after_blank w1 _ A (r +:+ B)); [done| |done].
    by rewrite <-Hc, HJ, !sapp_assoc. }
  cbn [CanHandle MarkdownParser]. unfold MarkdownParser_CanHandle.
  destruct (EqualFold _ _ || EqualFold _ _); [done|]. cbv zeta.
  rewrite (HasPrefix_blank_suffix _ w2 "#") in Hfound by done.
  rewrite Contains_nl_hash_suffix in Hfound by done.
  destruct Hfound as [-> | ->]; [done|by rewrite orb_true_r].
Qed.

End HeadingLines.

(** The document with a preamble holds a heading line. *)
Lemma heading_lines_are_sniffed_witness :
  "# First Section" ∈ Split (Content Examples.withPreamble) nl
  ∧ CanHandle (@MarkdownParser Flat.codec) Examples.withPreamble = true.
Proof.
  assert ("# First Section" ∈ Split (Content Examples.withPreamble) nl) as Hline
    by (vm_compute; right; right; left).
  split; [exact Hline|].
  exact (@heading_lines_are_sniffed Flat.codec Examples.withPreamble "# First Section"
           Hline eq_refl).
Defined.
